(** * eule: the boundary-tag allocator of [allocator.cpp]

    A shallow embedding of [DlAllocator] and its [Header] for an LP64
    target: [uintptr_t] and pointers are 64 bits wide, and the most
    aligned scalar ([long double]) needs 16 bytes.  The managed region
    and the allocator object live in one flat, word-granular memory;
    every pointer the code forms is a 64-bit number, and pointer
    arithmetic wraps like [uintptr_t] arithmetic. *)

From Stdlib Require Import ZArith List Lia Bool Sorting.Sorted Permutation.
Import ListNotations.
Open Scope Z_scope.

(** ** Machine words *)

Definition modulus : Z := 2 ^ 64.
Definition wrap (x : Z) : Z := x mod modulus.

Definition sizeof_size_type : Z := 8.
Definition max_alignment : Z := 16.
Definition sizeof_Header : Z := 4 * sizeof_size_type.
Definition minimum_alloc_size : Z := 2 * sizeof_size_type.
Definition InUse : Z := 1.

(** [~InUse] and [-max_alignment], both taken as [uintptr_t]. *)
Definition not_InUse : Z := wrap (Z.lnot InUse).
Definition neg_max_alignment : Z := wrap (- max_alignment).

(** ** Memory

    A memory maps the address of a word to the 64-bit value stored there.
    The allocator only ever reads and writes whole [size_type] or pointer
    fields.

    The memory is word-granular: the words at two different addresses are
    independent cells, and every address, the null address included, can
    be read and written.  This is the memory of the program as long as
    any two words it accesses are the same word or do not overlap, and
    all of them are mapped: so it is for headers at multiples of 8 with
    sizes that are multiples of 8, which is what well-formed heaps hold.
    Where the program would access words less than 8 bytes apart, or
    write through a null pointer, the model still gives a value where
    the program need not. *)

Definition mem : Type := Z -> Z.

Definition load (m : mem) (a : Z) : Z := m a.
Definition store (m : mem) (a v : Z) : mem :=
  fun x => if x =? a then v else m x.

(** ** Header: field addresses

    [struct Header { size_type prevSize; size_type thisSize;
                     Header* nextFree; Header** prevFree; }] *)

Definition prevSize_at (h : Z) : Z := h.
Definition thisSize_at (h : Z) : Z := wrap (h + sizeof_size_type).
Definition nextFree_at (h : Z) : Z := wrap (h + 2 * sizeof_size_type).
Definition prevFree_at (h : Z) : Z := wrap (h + 3 * sizeof_size_type).

Definition payloadToHeader (payload : Z) : Z :=
  wrap (payload - 2 * sizeof_size_type).
Definition toPayload (h : Z) : Z := wrap (h + 2 * sizeof_size_type).

(** ** Header: sizes and neighbours *)

Definition size (m : mem) (h : Z) : Z :=
  Z.land (load m (thisSize_at h)) not_InUse.

Definition previousSize (m : mem) (h : Z) : Z :=
  Z.land (load m (prevSize_at h)) not_InUse.

Definition next (m : mem) (h : Z) : Z := wrap (h + size m h).

Definition setSize_used (m : mem) (h sz : Z) : mem :=
  let m1 := store m (thisSize_at h) (Z.lor sz InUse) in
  store m1 (prevSize_at (next m1 h)) (Z.lor sz InUse).

Definition setSize_free (m : mem) (h sz : Z) : mem :=
  let m1 := store m (thisSize_at h) sz in
  store m1 (prevSize_at (next m1 h)) sz.

(** [nullptr] is address 0. *)
Definition nextIfFree (m : mem) (h : Z) : Z :=
  let header := next m h in
  if Z.land (load m (thisSize_at header)) InUse =? 0 then header else 0.

Definition prevIfFree (m : mem) (h : Z) : Z :=
  if Z.land (load m (prevSize_at h)) InUse =? 0
  then wrap (h - previousSize m h) else 0.

(** ** Header: the free list

    The loop of [link] walks pointer slots; it only reads, so the size of
    the chunk being linked is the same in every iteration.  [None] means
    the fuel ran out before the loop ended. *)

Fixpoint link_scan (fuel : nat) (m : mem) (sz : Z) (iter : Z) : option Z :=
  match fuel with
  | O => None
  | S fuel' =>
      let cur := load m iter in
      if cur =? 0 then Some iter
      else if size m cur <? sz then link_scan fuel' m sz (nextFree_at cur)
      else Some iter
  end.

Definition link (fuel : nat) (m : mem) (h first : Z) : option mem :=
  match link_scan fuel m (size m h) first with
  | None => None
  | Some iter =>
      let m1 := store m (prevFree_at h) iter in
      let m2 := store m1 (nextFree_at h) (load m1 iter) in
      let m3 := store m2 iter h in
      let nf := load m3 (nextFree_at h) in
      Some (if nf =? 0 then m3
            else store m3 (prevFree_at nf) (nextFree_at h))
  end.

Definition unlink (m : mem) (h : Z) : mem :=
  let m1 := store m (load m (prevFree_at h)) (load m (nextFree_at h)) in
  let nf := load m1 (nextFree_at h) in
  if nf =? 0 then m1
  else store m1 (prevFree_at nf) (load m1 (prevFree_at h)).

(** ** DlAllocator

    [this] is the address of the member [m_freeList] of the allocator
    object. *)

Definition align_begin (begin : Z) : Z :=
  Z.land (wrap (wrap (wrap (begin + 2 * sizeof_size_type) + max_alignment) - 1))
         neg_max_alignment.

Definition align_end (end_ : Z) : Z :=
  Z.land (wrap (end_ - 2 * sizeof_size_type)) neg_max_alignment.

Definition DlAllocator (fuel : nat) (this : Z) (m : mem) (begin end_ : Z)
  : option mem :=
  let m0 := store m this 0 in
  let b := align_begin begin in
  let e := align_end end_ in
  if e <=? b then Some m0
  else
    let header := payloadToHeader b in
    let m1 := setSize_free m0 header (wrap (e - b)) in
    let m2 := store m1 (prevSize_at header) InUse in
    let m3 := store m2 (thisSize_at (next m2 header)) InUse in
    link fuel m3 header this.

(** The chunk size [allocate] looks for. *)
Definition needed (numBytes : Z) : Z :=
  let n := if numBytes <=? minimum_alloc_size
           then minimum_alloc_size else numBytes in
  let n := wrap (n + 2 * sizeof_size_type) in
  Z.land (wrap (wrap (n + max_alignment) - 1)) neg_max_alignment.

(** The search loop of [allocate]: the first chunk of the free list whose
    size reaches [n], or 0 when the list ends first. *)
Fixpoint find_chunk (fuel : nat) (m : mem) (n : Z) (iter : Z) : option Z :=
  match fuel with
  | O => None
  | S fuel' =>
      if iter =? 0 then Some 0
      else if n <=? size m iter then Some iter
      else find_chunk fuel' m n (load m (nextFree_at iter))
  end.

Definition allocate (fuel : nat) (this : Z) (m : mem) (numBytes : Z)
  : option (Z * mem) :=
  let n := needed numBytes in
  match find_chunk fuel m n (load m this) with
  | None => None
  | Some iter =>
      if iter =? 0 then Some (0, m)
      else
        let m1 := unlink m iter in
        let remainingSize := wrap (size m1 iter - n) in
        if sizeof_Header <=? remainingSize then
          let m2 := setSize_used m1 iter n in
          let nxt := next m2 iter in
          let m3 := setSize_free m2 nxt remainingSize in
          match link fuel m3 nxt this with
          | None => None
          | Some m4 => Some (toPayload iter, m4)
          end
        else
          let m2 := setSize_used m1 iter (size m1 iter) in
          Some (toPayload iter, m2)
  end.

Definition deallocate (fuel : nat) (this : Z) (m : mem) (ptr : Z)
  : option mem :=
  let self := payloadToHeader ptr in
  let chunkSize := size m self in
  let nextHeader := nextIfFree m self in
  let '(m1, chunkSize1) :=
    if nextHeader =? 0 then (m, chunkSize)
    else let m' := unlink m nextHeader in
         (m', wrap (chunkSize + size m' nextHeader)) in
  let prevHeader := prevIfFree m1 self in
  let '(m2, chunkSize2, self2) :=
    if prevHeader =? 0 then (m1, chunkSize1, self)
    else let m' := unlink m1 prevHeader in
         (m', wrap (chunkSize1 + size m' prevHeader), prevHeader) in
  let m3 := setSize_free m2 self2 chunkSize2 in
  link fuel m3 self2 this.


(** * Specification vocabulary *)

(** The two ways a size field is written: with and without the flag. *)
Definition tag (s : Z) (used : bool) : Z := if used then Z.lor s InUse else s.

(** The largest request whose chunk size [needed] computes without
    wrapping. *)
Definition max_request : Z := modulus - 32.

(** The operations a client issues, and their execution in sequence.
    [run] collects what every [allocate] returned. *)
Inductive op : Type :=
| Allocate (numBytes : Z)
| Deallocate (ptr : Z).

Fixpoint run (fuel : nat) (this : Z) (m : mem) (ops : list op)
  : option (list Z * mem) :=
  match ops with
  | [] => Some ([], m)
  | Allocate numBytes :: rest =>
      match allocate fuel this m numBytes with
      | None => None
      | Some (p, m') =>
          match run fuel this m' rest with
          | None => None
          | Some (ps, m'') => Some (p :: ps, m'')
          end
      end
  | Deallocate ptr :: rest =>
      match deallocate fuel this m ptr with
      | None => None
      | Some m' => run fuel this m' rest
      end
  end.

Definition is_Allocate (o : op) : Prop :=
  match o with Allocate _ => True | Deallocate _ => False end.

(** The free list as the loop of [allocate] walks it: the chunks reached
    from [p] through [nextFree] up to the null pointer. *)
Fixpoint free_chain (m : mem) (p : Z) (l : list Z) : Prop :=
  match l with
  | [] => p = 0
  | h :: t => p = h /\ h <> 0 /\ free_chain m (load m (nextFree_at h)) t
  end.

(** ** The heap as a sequence of chunks *)

Record chunk : Type := Chunk { addr : Z; csize : Z; used : bool }.

(** [tiles h cs hend]: the chunks [cs] lie one after the other from [h] to
    [hend] without gaps; each is large enough for a header and a multiple
    of the alignment. *)
Fixpoint tiles (h : Z) (cs : list chunk) (hend : Z) : Prop :=
  match cs with
  | [] => h = hend
  | c :: cs' =>
      addr c = h /\ sizeof_Header <= csize c /\
      csize c mod max_alignment = 0 /\ tiles (h + csize c) cs' hend
  end.

Definition total_size (cs : list chunk) : Z :=
  fold_right (fun c acc => csize c + acc) 0 cs.

(** [flist m slot l]: the pointer slot [slot] starts the doubly linked list
    of the chunks [l]; every chunk points back to the slot that points to
    it. *)
Fixpoint flist (m : mem) (slot : Z) (l : list chunk) : Prop :=
  match l with
  | [] => load m slot = 0
  | c :: t =>
      load m slot = addr c /\
      load m (prevFree_at (addr c)) = slot /\
      flist m (nextFree_at (addr c)) t
  end.

Definition by_size (a b : chunk) : Prop := csize a <= csize b.

(** Sorted insertion, as [link] performs it: before the first element that
    is not smaller. *)
Fixpoint insert (x : chunk) (l : list chunk) : list chunk :=
  match l with
  | [] => [x]
  | c :: t => if csize c <? csize x then c :: insert x t else x :: c :: t
  end.

(** The first chunk of a free list that reaches the size [n], with what
    precedes and what follows it. *)
Fixpoint first_fit (n : Z) (l : list chunk)
  : option (list chunk * chunk * list chunk) :=
  match l with
  | [] => None
  | c :: t =>
      if n <=? csize c then Some ([], c, t)
      else match first_fit n t with
           | Some (pre, x, post) => Some (c :: pre, x, post)
           | None => None
           end
  end.

(** The invariant of the allocator: [cs] are the chunks between the first
    header [h0] and the end sentinel [hend], [fl] is the free list. *)
Record wf (this h0 hend : Z) (m : mem) (cs fl : list chunk) : Prop := {
  wf_h0 : 0 < h0;
  wf_hend : hend + 2 * sizeof_size_type <= modulus;
  wf_align : h0 mod max_alignment = 0;
  wf_this : 0 <= this /\ this + sizeof_size_type <= h0 \/
            hend + 2 * sizeof_size_type <= this < modulus;
  wf_tiles : tiles h0 cs hend;
  wf_first : load m h0 = InUse;
  wf_last : load m (hend + sizeof_size_type) = InUse;
  wf_tags : forall c, In c cs ->
      load m (addr c + sizeof_size_type) = tag (csize c) (used c) /\
      load m (addr c + csize c) = tag (csize c) (used c);
  wf_flist : flist m this fl;
  wf_free : forall c, In c fl <-> In c cs /\ used c = false;
  wf_nodup : NoDup (map addr fl);
  wf_sorted : StronglySorted by_size fl
}.

(** ** Separation of list cells

    [spaced slot l]: the headers of the chunks [l] lie in the address
    space, do not overlap one another, and none of them contains the
    pointer slot [slot]. *)
Definition far (c c' : chunk) : Prop :=
  addr c + sizeof_Header <= addr c' \/ addr c' + sizeof_Header <= addr c.

Record spaced (slot : Z) (l : list chunk) : Prop := {
  sp_range : forall c, In c l -> 0 < addr c /\ addr c + sizeof_Header <= modulus;
  sp_slot : forall c, In c l ->
      slot + sizeof_size_type <= addr c \/ addr c + sizeof_Header <= slot;
  sp_far : forall c c', In c l -> In c' l -> addr c = addr c' \/ far c c';
  sp_nodup : NoDup (map addr l)
}.

(** The words a free list occupies: its head slot and the two link fields
    of every member. *)
Definition touches (slot : Z) (l : list chunk) (x : Z) : Prop :=
  x = slot \/
  exists c, In c l /\ (x = nextFree_at (addr c) \/ x = prevFree_at (addr c)).

(** The four writes at the end of [link], once the loop has found the
    slot [iter]. *)
Definition splice (m : mem) (h iter : Z) : mem :=
  let m1 := store m (prevFree_at h) iter in
  let m2 := store m1 (nextFree_at h) (load m1 iter) in
  let m3 := store m2 iter h in
  let nf := load m3 (nextFree_at h) in
  if nf =? 0 then m3 else store m3 (prevFree_at nf) (nextFree_at h).

(** ** The invariant with a hole

    While [allocate] and [deallocate] work, the bytes between [lo] and
    [hi] belong to no chunk: the chunks [a] lie before the hole, the
    chunks [b] after it, and the free list holds the free chunks of both.
    The hole owns the words from [lo + 8] up to [hi]: the size field of a
    chunk starting at [lo] and the mirrored size field at [hi]. *)
Record pwf (this h0 hend : Z) (m : mem) (a : list chunk) (lo hi : Z)
    (b fl : list chunk) : Prop := {
  pw_h0 : 0 < h0;
  pw_hend : hend + 2 * sizeof_size_type <= modulus;
  pw_align : h0 mod max_alignment = 0;
  pw_this : 0 <= this /\ this + sizeof_size_type <= h0 \/
            hend + 2 * sizeof_size_type <= this < modulus;
  pw_left : tiles h0 a lo;
  pw_right : tiles hi b hend;
  pw_hole : lo <= hi;
  pw_first : load m h0 = InUse;
  pw_last : load m (hend + sizeof_size_type) = InUse;
  pw_tags : forall c, In c (a ++ b) ->
      load m (addr c + sizeof_size_type) = tag (csize c) (used c) /\
      load m (addr c + csize c) = tag (csize c) (used c);
  pw_flist : flist m this fl;
  pw_free : forall c, In c fl <-> In c (a ++ b) /\ used c = false;
  pw_nodup : NoDup (map addr fl);
  pw_sorted : StronglySorted by_size fl
}.

(** A word that is neither the head slot [this] nor a link field of a
    free chunk. *)
Definition not_link (this : Z) (a b : list chunk) (y : Z) : Prop :=
  y <> this /\
  forall c, In c (a ++ b) -> used c = false ->
            y <> addr c + 16 /\ y <> addr c + 24.

(** Removal of the chunk at address [h] from a free list. *)
Definition without (h : Z) (l : list chunk) : list chunk :=
  filter (fun c => negb (addr c =? h)) l.

(** The free neighbour after a position, and the free neighbour before
    it, if there is one. *)
Definition free_head (b : list chunk) : option (chunk * list chunk) :=
  match b with
  | n :: b' => if used n then None else Some (n, b')
  | [] => None
  end.

Definition free_last (a : list chunk) : option (list chunk * chunk) :=
  match rev a with
  | p :: ra => if used p then None else Some (rev ra, p)
  | [] => None
  end.

(** What [allocate] makes of the free chunk [x] it has chosen for the
    chunk size [n], and what it does to the rest [l] of the free list. *)
Definition carve (n : Z) (x : chunk) : list chunk :=
  if sizeof_Header <=? csize x - n
  then [Chunk (addr x) n true; Chunk (addr x + n) (csize x - n) false]
  else [Chunk (addr x) (csize x) true].

Definition relink (n : Z) (x : chunk) (l : list chunk) : list chunk :=
  if sizeof_Header <=? csize x - n
  then insert (Chunk (addr x + n) (csize x - n) false) l
  else l.

(** A region the constructor can be given: it lies in the address space,
    a header away from both of its ends, and does not contain the
    allocator object. *)
Definition region_ok (this begin end_ : Z) : Prop :=
  sizeof_Header <= begin /\ begin <= end_ /\
  end_ + sizeof_Header <= modulus /\
  (0 <= this /\ this + sizeof_size_type <= begin \/
   end_ <= this /\ this < modulus).

(** What [deallocate] makes of the used chunk [x] between the chunks [a]
    and [b], and which chunks it takes from the free list [fl] first. *)
Definition coalesce (a : list chunk) (x : chunk) (b : list chunk)
  : list chunk * chunk * list chunk :=
  let '(b1, hi) :=
    match free_head b with
    | Some (n, b') => (b', addr x + csize x + csize n)
    | None => (b, addr x + csize x)
    end in
  let '(a1, lo) :=
    match free_last a with
    | Some (a', p) => (a', addr p)
    | None => (a, addr x)
    end in
  (a1, Chunk lo (hi - lo) false, b1).

Definition unlinked (a b fl : list chunk) : list chunk :=
  let fl1 := match free_head b with
             | Some (n, _) => without (addr n) fl
             | None => fl
             end in
  match free_last a with
  | Some (_, p) => without (addr p) fl1
  | None => fl1
  end.

(** ** Client view *)

(** The pointers of the used chunks: what [allocate] has handed out and
    [deallocate] has not taken back. *)
Definition live_ptrs (cs : list chunk) : list Z :=
  map (fun c => addr c + 16) (filter used cs).

(** The bytes between a payload address and the header of the next
    chunk. *)
Definition usable (m : mem) (p : Z) : Z :=
  next m (payloadToHeader p) - p.

(** The states an allocator over the region [[begin, end_)] goes through
    when every request is at most [max_request] bytes and [deallocate] is
    only given live pointers; the list holds the live pointers. *)
Inductive reachable (this begin end_ : Z) : mem -> list Z -> Prop :=
| reach_new (fuel : nat) (m m' : mem) :
    DlAllocator fuel this m begin end_ = Some m' ->
    reachable this begin end_ m' []
| reach_allocate (fuel : nat) (m m' : mem) (live : list Z) (N p : Z) :
    reachable this begin end_ m live ->
    0 <= N <= max_request ->
    allocate fuel this m N = Some (p, m') ->
    reachable this begin end_ m' (if p =? 0 then live else p :: live)
| reach_deallocate (fuel : nat) (m m' : mem) (live : list Z) (p : Z) :
    reachable this begin end_ m live ->
    In p live ->
    deallocate fuel this m p = Some m' ->
    reachable this begin end_ m' (remove Z.eq_dec p live).

(** A region whose interior is one alignment unit: the constructor makes
    one free chunk of 16 bytes, too small for any request. *)
Definition tiny_heap (this h0 : Z) (m : mem) : Prop :=
  0 < h0 /\ h0 + sizeof_Header <= modulus /\ h0 mod max_alignment = 0 /\
  load m this = h0 /\ size m h0 = max_alignment /\
  load m (nextFree_at h0) = 0.

(** No two neighbouring chunks are both free: [deallocate] has merged
    whatever it could. *)
Fixpoint no_adj (cs : list chunk) : Prop :=
  match cs with
  | [] => True
  | c :: t =>
      match t with
      | [] => True
      | d :: _ => used c = true \/ used d = true
      end /\ no_adj t
  end.

(** What holds in every reachable state. *)
Definition heap_inv (this begin end_ : Z) (m : mem) (live : list Z) : Prop :=
  (sizeof_Header <= align_end end_ - align_begin begin /\
   exists cs fl,
      wf this (align_begin begin - 16) (align_end end_ - 16) m cs fl /\
      no_adj cs /\ NoDup live /\
      forall p, In p live <-> In p (live_ptrs cs)) \/
  (align_end end_ - align_begin begin < sizeof_Header /\
   live = [] /\
   (load m this = 0 \/ tiny_heap this (align_begin begin - 16) m)).

(** ** The needed size, step by step

    Following the words of the specification: clamp the request to the
    minimum allocation size, add the two size fields, round up to the
    maximum alignment, every step in 64-bit unsigned arithmetic. *)
Definition needed_by_steps (N : Z) : Z :=
  let clamped := Z.max N minimum_alloc_size in
  let with_header := (clamped + 2 * sizeof_size_type) mod 2 ^ 64 in
  let bumped := (with_header + (max_alignment - 1)) mod 2 ^ 64 in
  max_alignment * (bumped / max_alignment).

(** ** Concrete scenarios

    A region of 160 bytes at address 4096, with the allocator object at
    32752 and all memory zero before the constructor runs. *)
Definition zero_mem : mem := fun _ => 0.
Definition demo_this : Z := 32752.
Definition demo_begin : Z := 4096.
Definition demo_end : Z := 4256.

Definition demo_fresh : mem :=
  match DlAllocator 2 demo_this zero_mem demo_begin demo_end with
  | Some m => m
  | None => zero_mem
  end.

(** ** Traversals

    The sizes of the chunks met when walking from the header [h] through
    [next] up to the end sentinel [hend]; [None] when the walk passes
    [hend] or does not end within the fuel. *)
Fixpoint chunk_sizes (fuel : nat) (m : mem) (h hend : Z)
  : option (list Z) :=
  match fuel with
  | O => None
  | S fuel' =>
      if h =? hend then Some []
      else if hend <? h then None
      else option_map (cons (size m h)) (chunk_sizes fuel' m (next m h) hend)
  end.

(** The sizes of the chunks met when walking the free list from the
    pointer [p] through [nextFree] up to the null pointer. *)
Fixpoint free_sizes (fuel : nat) (m : mem) (p : Z) : option (list Z) :=
  match fuel with
  | O => None
  | S fuel' =>
      if p =? 0 then Some []
      else option_map (cons (size m p))
                      (free_sizes fuel' m (load m (nextFree_at p)))
  end.

Definition sum_sizes (l : list Z) : Z := fold_right Z.add 0 l.

(** Fuel for every loop over a region: more than the number of chunks the
    interior can hold, and at least two. *)
Definition enough_fuel (begin end_ : Z) (fuel : nat) : Prop :=
  Z.max 1 ((align_end end_ - align_begin begin) / sizeof_Header)
  < Z.of_nat fuel.


Definition demo_after16 : mem :=
  match allocate 5 demo_this demo_fresh 16 with
  | Some (_, m) => m
  | None => zero_mem
  end.

Definition demo_after16_16 : mem :=
  match allocate 5 demo_this demo_after16 16 with
  | Some (_, m) => m
  | None => zero_mem
  end.

(** ** A region of one chunk, word by word

    [h0] is the only header of a region of [T] interior bytes. *)
Definition one_chunk_region (this h0 T : Z) : Prop :=
  0 < h0 /\ h0 + T + 16 <= modulus /\ sizeof_Header <= T /\
  T mod max_alignment = 0 /\
  (0 <= this /\ this + sizeof_size_type <= h0 \/
   h0 + T + 16 <= this /\ this < modulus).

(** The chunk is free and alone in the free list. *)
Definition one_free (this h0 T : Z) (m : mem) : Prop :=
  load m this = h0 /\ load m h0 = InUse /\ load m (h0 + 8) = T /\
  load m (h0 + 16) = 0 /\ load m (h0 + 24) = this /\
  load m (h0 + T) = T /\ load m (h0 + T + 8) = InUse.

(** The chunk is free and linked in front of itself. *)
Definition self_linked (this h0 T : Z) (m : mem) : Prop :=
  load m this = h0 /\ load m h0 = InUse /\ load m (h0 + 8) = T /\
  load m (h0 + 16) = h0 /\ load m (h0 + 24) = h0 + 16 /\
  load m (h0 + T) = T /\ load m (h0 + T + 8) = InUse.

(** A used chunk of 16 bytes in front of a free chunk with the rest. *)
Definition front16 (this h0 T : Z) (m : mem) : Prop :=
  load m this = h0 + 16 /\ load m h0 = InUse /\ load m (h0 + 8) = 17 /\
  load m (h0 + 24) = T - 16 /\ load m (h0 + 32) = 0 /\
  load m (h0 + 40) = this /\
  load m (h0 + T) = T - 16 /\ load m (h0 + T + 8) = InUse.

(** The chunk is used and the free list is empty. *)
Definition all_used (this h0 T : Z) (m : mem) : Prop :=
  load m this = 0 /\ load m h0 = InUse /\ load m (h0 + 8) = T + 1 /\
  load m (h0 + T) = T + 1 /\ load m (h0 + T + 8) = InUse.

(** ** A region of 16 interior bytes

    The region [[4096, 4144)]: the aligned interior is [[4112, 4128)], the
    first header is at 4096 and the end sentinel at 4112.  The sentinel's
    list fields would lie at 4128 and 4136; the constructor never writes
    them.  [stale_mem] has the words 4128 and [demo_this] there. *)
Definition tiny_begin : Z := 4096.
Definition tiny_end : Z := 4144.

Definition stale_mem : mem := store (store zero_mem 4128 4128) 4136 demo_this.

(** The pointers a sequence of calls returns on a new allocator. *)
Definition returns (fuel : nat) (this : Z) (m : mem) (begin end_ : Z)
    (ops : list op) : option (list Z) :=
  match DlAllocator fuel this m begin end_ with
  | Some m0 => option_map fst (run fuel this m0 ops)
  | None => None
  end.

(** ** The words the allocator works on

    While the heap is [cs] the allocator may write its own pointer
    [this], the first word of every header (the one of the end sentinel
    at [hend] included) and the inside of the free chunks.  Everything
    else, the payload and the size field of every used chunk and all
    memory around the heap, is [kept]. *)
Definition scratch (this hend : Z) (cs : list chunk) (y : Z) : Prop :=
  y = this \/ y = hend \/
  exists c, In c cs /\
    (y = addr c \/ used c = false /\ addr c < y < addr c + csize c).

Definition kept (this hend : Z) (cs : list chunk) (y : Z) : Prop :=
  ~ scratch this hend cs y.

(** The demo region after two requests of 16 bytes and the release of the
    second block. *)
Definition demo_after_free : mem :=
  match deallocate 5 demo_this demo_after16_16 4144 with
  | Some m => m
  | None => zero_mem
  end.

(** ** Following a call

    The memory a call leaves behind (the memory it found when it does not
    return). *)
Definition after_allocate (fuel : nat) (this : Z) (m : mem) (N : Z) : mem :=
  match allocate fuel this m N with
  | Some (_, m') => m'
  | None => m
  end.

Definition after_deallocate (fuel : nat) (this : Z) (m : mem) (p : Z) : mem :=
  match deallocate fuel this m p with
  | Some m' => m'
  | None => m
  end.

(** The demo region after two requests of 16 bytes and the release of the
    first block, and after the release of the second block as well. *)
Definition demo_two_free : mem :=
  after_deallocate 5 demo_this demo_after16_16 4112.

Definition demo_idle : mem := after_deallocate 5 demo_this demo_two_free 4144.

(** ** A wider region

    The region [[4096, 4384)] has 256 interior bytes.  Requests of 16, 16,
    48 and 16 bytes make used chunks of 32, 32, 64 and 32 bytes at 4096,
    4128, 4160 and 4224 and leave a free chunk of 96 bytes at 4256;
    giving back the first and the third block leaves three free chunks,
    of 32, 64 and 96 bytes. *)
Definition wide_begin : Z := 4096.
Definition wide_end : Z := 4384.

Definition wide0 : mem :=
  match DlAllocator 9 demo_this zero_mem wide_begin wide_end with
  | Some m => m
  | None => zero_mem
  end.

Definition wide1 : mem := after_allocate 9 demo_this wide0 16.
Definition wide2 : mem := after_allocate 9 demo_this wide1 16.
Definition wide3 : mem := after_allocate 9 demo_this wide2 48.
Definition wide4 : mem := after_allocate 9 demo_this wide3 16.
Definition wide5 : mem := after_deallocate 9 demo_this wide4 4112.
Definition wide_three : mem := after_deallocate 9 demo_this wide5 4176.

(** The same region after five requests of 16 bytes and the release of
    the first and then of the third block: two free chunks of 32 bytes,
    the one freed last in front, and the free chunk of 96 bytes. *)
Definition ties3 : mem := after_allocate 9 demo_this wide2 16.
Definition ties4 : mem := after_allocate 9 demo_this ties3 16.
Definition ties5 : mem := after_allocate 9 demo_this ties4 16.
Definition ties6 : mem := after_deallocate 9 demo_this ties5 4112.
Definition wide_ties : mem := after_deallocate 9 demo_this ties6 4176.

(** ** A region of 16 interior bytes with other stale words

    As [stale_mem], with the words 4120 and [demo_this] behind the end
    sentinel. *)
Definition stale_mem_odd : mem :=
  store (store zero_mem 4128 4120) 4136 demo_this.

(** * Word arithmetic *)

Lemma modulus_eq : modulus = 18446744073709551616.
Proof. reflexivity. Qed.

Lemma wrap_small (x : Z) : 0 <= x < modulus -> wrap x = x.
Proof. intros H. unfold wrap. now apply Z.mod_small. Qed.

Lemma wrap_range (x : Z) : 0 <= wrap x < modulus.
Proof. unfold wrap. apply Z.mod_pos_bound. reflexivity. Qed.

Lemma wrap_sub_l (x k : Z) : wrap (wrap x - k) = wrap (x - k).
Proof. unfold wrap. apply Zminus_mod_idemp_l. Qed.

Lemma wrap_add_l (x k : Z) : wrap (wrap x + k) = wrap (x + k).
Proof. unfold wrap. apply Zplus_mod_idemp_l. Qed.

(** Masking with [2^64 - 2^k] clears the [k] low bits of a word. *)
Lemma land_clear_low (k x : Z) :
  0 <= k -> 0 <= x < modulus ->
  Z.land x (Z.ldiff (Z.ones 64) (Z.ones k)) = 2 ^ k * (x / 2 ^ k).
Proof.
  intros Hk Hx.
  rewrite Z.ldiff_land, Z.land_assoc, Z.land_ones by lia.
  change (2 ^ 64) with modulus.
  rewrite Z.mod_small by exact Hx.
  rewrite <- Z.ldiff_land, Z.ldiff_ones_r by exact Hk.
  rewrite Z.shiftl_mul_pow2, Z.shiftr_div_pow2 by exact Hk.
  apply Z.mul_comm.
Qed.

Lemma land_not_InUse (x : Z) :
  0 <= x < modulus -> Z.land x not_InUse = 2 * (x / 2).
Proof.
  intros Hx. change not_InUse with (Z.ldiff (Z.ones 64) (Z.ones 1)).
  now rewrite land_clear_low by lia.
Qed.

Lemma land_neg_max_alignment (x : Z) :
  0 <= x < modulus -> Z.land x neg_max_alignment = 16 * (x / 16).
Proof.
  intros Hx. change neg_max_alignment with (Z.ldiff (Z.ones 64) (Z.ones 4)).
  now rewrite land_clear_low by lia.
Qed.

Lemma land_InUse (x : Z) : Z.land x InUse = x mod 2.
Proof. change InUse with (Z.ones 1). now rewrite Z.land_ones by lia. Qed.

(** Setting the flag of an even size adds one. *)
Lemma lor_InUse_even (x : Z) : x mod 2 = 0 -> Z.lor x InUse = x + 1.
Proof.
  intros Hx.
  assert (H0 : Z.land x InUse = 0) by now rewrite land_InUse.
  rewrite <- Z.lxor_lor by exact H0.
  symmetry. now apply Z.add_nocarry_lxor.
Qed.

Lemma tag_value (s : Z) (u : bool) :
  s mod 2 = 0 -> tag s u = if u then s + 1 else s.
Proof. intros H. destruct u; simpl; [now apply lor_InUse_even | reflexivity]. Qed.

Lemma tag_size (s : Z) (u : bool) :
  0 <= s -> s + 1 < modulus -> s mod 2 = 0 -> Z.land (tag s u) not_InUse = s.
Proof.
  intros H0 H1 H2. rewrite tag_value by exact H2.
  destruct u; rewrite land_not_InUse by lia.
  - replace (s + 1) with (1 + (s / 2) * 2).
    + rewrite Z.div_add by lia. change (1 / 2) with 0.
      pose proof (Z.div_mod s 2). lia.
    + pose proof (Z.div_mod s 2). lia.
  - pose proof (Z.div_mod s 2). lia.
Qed.

Lemma tag_flag (s : Z) (u : bool) :
  s mod 2 = 0 -> Z.land (tag s u) InUse = if u then 1 else 0.
Proof.
  intros H. rewrite land_InUse, tag_value by exact H.
  destruct u; [| exact H].
  rewrite Z.add_mod, H by lia. reflexivity.
Qed.

Lemma aligned_even (s : Z) : s mod 16 = 0 -> s mod 2 = 0.
Proof. intros H. Z.div_mod_to_equations. lia. Qed.

(** Requests up to [max_request] do not wrap in [needed]. *)
Lemma needed_nowrap (N : Z) :
  0 <= N <= max_request ->
  let n := needed N in
  N + 2 * sizeof_size_type <= n /\ sizeof_Header <= n /\
  n mod max_alignment = 0 /\ n < modulus.
Proof.
  intros HN. unfold needed, max_request in *. cbv zeta.
  set (c := if N <=? minimum_alloc_size then minimum_alloc_size else N).
  assert (Hc : N <= c /\ 16 <= c /\ c <= modulus - 32).
  { unfold c, minimum_alloc_size, sizeof_size_type.
    destruct (Z.leb_spec N (2 * 8)); rewrite modulus_eq in *; lia. }
  clearbody c.
  unfold sizeof_Header, sizeof_size_type, max_alignment.
  rewrite modulus_eq in *.
  rewrite (wrap_small (c + 2 * 8)) by (rewrite modulus_eq; lia).
  rewrite wrap_sub_l.
  rewrite (wrap_small (c + 2 * 8 + 16 - 1)) by (rewrite modulus_eq; lia).
  rewrite land_neg_max_alignment by (rewrite modulus_eq; lia).
  pose proof (Z.div_mod (c + 2 * 8 + 16 - 1) 16).
  pose proof (Z.mod_pos_bound (c + 2 * 8 + 16 - 1) 16).
  repeat split; try lia.
  rewrite Z.mul_comm. apply Z.mod_mul. lia.
Qed.

(** * Memory *)

Lemma load_store_same (m : mem) (a v : Z) : load (store m a v) a = v.
Proof. unfold load, store. now rewrite Z.eqb_refl. Qed.

Lemma load_store_other (m : mem) (a b v : Z) :
  b <> a -> load (store m a v) b = load m b.
Proof.
  intros H. unfold load, store.
  destruct (Z.eqb_spec b a); [contradiction | reflexivity].
Qed.

(** * Exhaustion *)

Lemma find_chunk_none (m : mem) (n : Z) (l : list Z) :
  forall (fuel : nat) (p : Z),
    free_chain m p l ->
    Forall (fun h => size m h < n) l ->
    (length l < fuel)%nat ->
    find_chunk fuel m n p = Some 0.
Proof.
  induction l as [| h t IH]; intros fuel p Hc Hs Hf.
  - simpl in Hc. subst p. destruct fuel; [simpl in Hf; lia | reflexivity].
  - destruct Hc as (-> & Hh & Hc). inversion Hs as [| ? ? Hlt Hs']; subst.
    destruct fuel as [| fuel]; [simpl in Hf; lia |].
    simpl. destruct (Z.eqb_spec h 0); [contradiction |].
    destruct (Z.leb_spec n (size m h)); [lia |].
    apply IH; [exact Hc | exact Hs' | simpl in Hf; lia].
Qed.

Lemma allocate_none_fits (fuel : nat) (this : Z) (m : mem) (N : Z)
    (l : list Z) :
  free_chain m (load m this) l ->
  Forall (fun h => size m h < needed N) l ->
  (length l < fuel)%nat ->
  allocate fuel this m N = Some (0, m).
Proof.
  intros Hc Hs Hf. unfold allocate. cbv zeta.
  now rewrite (find_chunk_none m (needed N) l fuel (load m this) Hc Hs Hf).
Qed.

(** * The degenerate region *)

Lemma allocate_empty (fuel : nat) (this : Z) (m : mem) (N : Z) :
  load m this = 0 -> allocate (S fuel) this m N = Some (0, m).
Proof.
  intros H. apply (allocate_none_fits (S fuel) this m N []).
  - exact H.
  - constructor.
  - simpl. lia.
Qed.

Lemma run_allocate_empty (fuel : nat) (this : Z) (m : mem) (ops : list op) :
  load m this = 0 ->
  Forall is_Allocate ops ->
  run (S fuel) this m ops = Some (map (fun _ => 0) ops, m).
Proof.
  intros H Hops. induction Hops as [| o ops Ho _ IH]; [reflexivity |].
  destruct o as [N | p]; [| contradiction].
  cbn [run map]. rewrite (allocate_empty fuel this m N H). now rewrite IH.
Qed.

Lemma constructor_degenerate (fuel fuel' : nat) (this : Z) (m : mem)
    (begin end_ : Z) (ops : list op) :
  align_end end_ <= align_begin begin ->
  Forall is_Allocate ops ->
  exists m0,
    DlAllocator fuel this m begin end_ = Some m0 /\
    load m0 this = 0 /\
    run (S fuel') this m0 ops = Some (map (fun _ => 0) ops, m0).
Proof.
  intros Hdeg Hops. exists (store m this 0).
  assert (H0 : load (store m this 0) this = 0) by apply load_store_same.
  repeat split.
  - unfold DlAllocator. cbv zeta.
    destruct (Z.leb_spec (align_end end_) (align_begin begin)); [reflexivity | lia].
  - exact H0.
  - now apply run_allocate_empty.
Qed.

(** * Geometry of the chunk sequence *)

Lemma tiles_total (cs : list chunk) :
  forall h hend, tiles h cs hend -> hend = h + total_size cs.
Proof.
  induction cs as [| c cs IH]; intros h hend H; simpl in *.
  - lia.
  - destruct H as (_ & _ & _ & H). apply IH in H. lia.
Qed.

Lemma total_size_app (a b : list chunk) :
  total_size (a ++ b) = total_size a + total_size b.
Proof. induction a as [| c a IH]; simpl; lia. Qed.

Lemma tiles_size_nonneg (cs : list chunk) :
  forall h hend, tiles h cs hend -> 0 <= total_size cs.
Proof.
  induction cs as [| c cs IH]; intros h hend H; simpl in *; [lia |].
  destruct H as (_ & Hs & _ & H). apply IH in H.
  unfold sizeof_Header, sizeof_size_type in Hs. lia.
Qed.

Lemma tiles_app (a b : list chunk) :
  forall h hend,
    tiles h (a ++ b) hend <->
    tiles h a (h + total_size a) /\ tiles (h + total_size a) b hend.
Proof.
  induction a as [| c a IH]; intros h hend; simpl.
  - rewrite Z.add_0_r. tauto.
  - rewrite IH. rewrite !Z.add_assoc. tauto.
Qed.

Lemma tiles_le (cs : list chunk) :
  forall h hend, tiles h cs hend -> h <= hend.
Proof.
  intros h hend H. pose proof (tiles_total _ _ _ H).
  pose proof (tiles_size_nonneg _ _ _ H). lia.
Qed.

(** Every chunk of the sequence lies inside [[h, hend)]. *)
Lemma tiles_In (cs : list chunk) :
  forall h hend c,
    tiles h cs hend -> In c cs ->
    h <= addr c /\ addr c + csize c <= hend /\
    sizeof_Header <= csize c /\ csize c mod max_alignment = 0.
Proof.
  induction cs as [| x cs IH]; intros h hend c H Hin; [contradiction |].
  simpl in H. destruct H as (Ha & Hs & Hm & H).
  pose proof (tiles_le _ _ _ H) as Hle.
  unfold sizeof_Header, sizeof_size_type in *.
  destruct Hin as [-> | Hin].
  - repeat split; try assumption; lia.
  - destruct (IH _ _ _ H Hin) as (? & ? & ? & ?).
    repeat split; try assumption; lia.
Qed.

(** Two chunks of the sequence are the same chunk or do not overlap. *)
Lemma tiles_disjoint (cs : list chunk) :
  forall h hend c c',
    tiles h cs hend -> In c cs -> In c' cs ->
    c = c' \/ addr c + csize c <= addr c' \/ addr c' + csize c' <= addr c.
Proof.
  induction cs as [| x cs IH]; intros h hend c c' H Hin Hin'; [contradiction |].
  simpl in H. destruct H as (Ha & Hs & Hm & H).
  destruct Hin as [-> | Hin], Hin' as [-> | Hin'].
  - now left.
  - right. left. destruct (tiles_In _ _ _ _ H Hin'). lia.
  - right. right. destruct (tiles_In _ _ _ _ H Hin). lia.
  - eapply IH; eassumption.
Qed.

Lemma tiles_addr_inj (cs : list chunk) (h hend : Z) (c c' : chunk) :
  tiles h cs hend -> In c cs -> In c' cs -> addr c = addr c' -> c = c'.
Proof.
  intros H Hin Hin' He.
  destruct (tiles_disjoint _ _ _ _ _ H Hin Hin') as [? | Hd]; [assumption |].
  destruct (tiles_In _ _ _ _ H Hin) as (_ & _ & Hs & _).
  destruct (tiles_In _ _ _ _ H Hin') as (_ & _ & Hs' & _).
  unfold sizeof_Header, sizeof_size_type in *. lia.
Qed.

(** The chunk in the middle of a decomposition starts where the part
    before it ends. *)
Lemma tiles_middle (a b : list chunk) (c : chunk) (h hend : Z) :
  tiles h (a ++ c :: b) hend ->
  addr c = h + total_size a /\
  tiles h a (addr c) /\ tiles (addr c + csize c) b hend.
Proof.
  intros H. apply tiles_app in H. destruct H as (Ha & Hb).
  simpl in Hb. destruct Hb as (Hc & _ & _ & Hb).
  rewrite Hc. repeat split; assumption.
Qed.

(** The chunk before a position ends exactly there. *)
Lemma tiles_snoc (a : list chunk) (c : chunk) (h hend : Z) :
  tiles h (a ++ [c]) hend -> addr c + csize c = hend.
Proof.
  intros H. apply tiles_middle in H. destruct H as (_ & _ & H).
  simpl in H. exact H.
Qed.

Lemma tiles_all_aligned (cs : list chunk) :
  forall h hend c,
    h mod max_alignment = 0 -> tiles h cs hend -> In c cs ->
    addr c mod max_alignment = 0.
Proof.
  induction cs as [| x cs IH]; intros h hend c Hh H Hin; [contradiction |].
  simpl in H. destruct H as (Ha & Hs & Hm & H).
  destruct Hin as [-> | Hin]; [congruence |].
  apply (IH (h + csize x) hend c); try assumption.
  unfold max_alignment in *. rewrite Z.add_mod, Hh, Hm by lia. reflexivity.
Qed.

(** * Free-list cells *)

Ltac consts :=
  unfold sizeof_Header, minimum_alloc_size, sizeof_size_type,
    max_alignment in *.

Ltac addr_lia := consts; lia.

Lemma thisSize_at_eq (h : Z) :
  0 <= h -> h + 32 <= modulus -> thisSize_at h = h + 8.
Proof.
  unfold thisSize_at, sizeof_size_type. intros. apply wrap_small. lia.
Qed.

Lemma nextFree_at_eq (h : Z) :
  0 <= h -> h + 32 <= modulus -> nextFree_at h = h + 16.
Proof.
  unfold nextFree_at, sizeof_size_type. intros. apply wrap_small. lia.
Qed.

Lemma prevFree_at_eq (h : Z) :
  0 <= h -> h + 32 <= modulus -> prevFree_at h = h + 24.
Proof.
  unfold prevFree_at, sizeof_size_type. intros. apply wrap_small. lia.
Qed.

Ltac unwrap_at h :=
  repeat first
    [ rewrite (thisSize_at_eq h) in * by addr_lia
    | rewrite (nextFree_at_eq h) in * by addr_lia
    | rewrite (prevFree_at_eq h) in * by addr_lia ].

Lemma spaced_nil (slot : Z) : spaced slot [].
Proof. split; try (intros; contradiction). constructor. Qed.

Lemma spaced_tail (slot : Z) (c : chunk) (t : list chunk) :
  spaced slot (c :: t) -> spaced slot t /\ spaced (nextFree_at (addr c)) t.
Proof.
  intros [Hr Hs Hf Hn]. inversion Hn as [| ? ? Hnot Hn']; subst.
  destruct (Hr c (or_introl eq_refl)) as (Hc0 & Hc1).
  rewrite nextFree_at_eq by addr_lia.
  split; split; intros; try (apply Hr; now right); try (apply Hs; now right);
    try (apply Hf; now right); try assumption.
  assert (Hin : In c0 (c :: t)) by now right.
  destruct (Hf c c0 (or_introl eq_refl) Hin) as [He | Hfar].
  - exfalso. apply Hnot. rewrite He. now apply in_map.
  - unfold far, sizeof_Header, sizeof_size_type in *. lia.
Qed.

Lemma spaced_head (slot : Z) (c : chunk) (t : list chunk) :
  spaced slot (c :: t) ->
  0 < addr c /\ addr c + sizeof_Header <= modulus /\
  (slot + sizeof_size_type <= addr c \/ addr c + sizeof_Header <= slot).
Proof.
  intros [Hr Hs _ _]. specialize (Hr c (or_introl eq_refl)).
  specialize (Hs c (or_introl eq_refl)). tauto.
Qed.

Lemma spaced_remove (slot : Z) (a b : list chunk) (c : chunk) :
  spaced slot (a ++ c :: b) -> spaced slot (a ++ b).
Proof.
  intros [Hr Hs Hf Hn].
  assert (Hsub : forall x, In x (a ++ b) -> In x (a ++ c :: b)).
  { intros x Hx. apply in_app_or in Hx. apply in_or_app. simpl. tauto. }
  split; intros; auto.
  rewrite map_app in *. simpl in Hn. now apply NoDup_remove_1 in Hn.
Qed.

(** A list survives any change of memory that leaves its words alone. *)
Lemma flist_frame (m m' : mem) (l : list chunk) :
  forall slot,
    flist m slot l ->
    (forall x, touches slot l x -> load m' x = load m x) ->
    flist m' slot l.
Proof.
  induction l as [| c t IH]; intros slot H Hfr; simpl in *.
  - rewrite Hfr; [exact H | now left].
  - destruct H as (H1 & H2 & H3). repeat split.
    + rewrite Hfr; [exact H1 | now left].
    + rewrite Hfr; [exact H2 |]. right. exists c. split; [now left | now right].
    + apply IH; [exact H3 |]. intros x Hx. apply Hfr.
      destruct Hx as [-> | (c' & Hin & Hx)].
      * right. exists c. split; [now left | now left].
      * right. exists c'. split; [now right | exact Hx].
Qed.

(** What a word outside the list cannot be. *)
Lemma touches_spaced (slot : Z) (l : list chunk) (x : Z) :
  spaced slot l -> touches slot l x ->
  x = slot \/ exists c, In c l /\ (x = addr c + 16 \/ x = addr c + 24).
Proof.
  intros Hsp [-> | (c & Hin & Hx)]; [now left |]. right. exists c.
  destruct (sp_range _ _ Hsp c Hin).
  rewrite nextFree_at_eq, prevFree_at_eq in Hx by addr_lia. tauto.
Qed.

(** ** [unlink] removes one cell *)

Lemma not_touches_tail (slot : Z) (c : chunk) (t : list chunk) (x : Z) :
  ~ touches slot (c :: t) x -> ~ touches (nextFree_at (addr c)) t x.
Proof.
  intros H [-> | (c' & Hin & Hx)]; apply H; right.
  - exists c. split; [now left | now left].
  - exists c'. split; [now right | exact Hx].
Qed.

(** A word of the tail of a spaced list is neither the head slot nor a
    link field of the first cell. *)
Lemma touches_tail_apart (slot : Z) (c : chunk) (t : list chunk) (x : Z) :
  spaced slot (c :: t) ->
  touches (nextFree_at (addr c)) t x ->
  x <> slot /\ x <> addr c + 24.
Proof.
  intros Hsp Hx.
  destruct (spaced_head _ _ _ Hsp) as (Hc0 & Hc1 & Hcs).
  destruct (spaced_tail _ _ _ Hsp) as (Hsp1 & Hsp2).
  apply (touches_spaced _ _ _ Hsp2) in Hx.
  rewrite nextFree_at_eq in Hx by addr_lia.
  consts.
  destruct Hx as [-> | (c' & Hin & Hx)]; [lia |].
  pose proof (sp_slot _ _ Hsp1 c' Hin) as Hs1.
  pose proof (sp_slot _ _ Hsp2 c' Hin) as Hs2.
  rewrite nextFree_at_eq in Hs2 by addr_lia.
  addr_lia.
Qed.

Lemma unlink_head (m : mem) (n : chunk) (slot : Z) (f2 : list chunk) :
  spaced slot (n :: f2) ->
  flist m slot (n :: f2) ->
  flist (unlink m (addr n)) slot f2 /\
  (forall x, ~ touches slot f2 x -> load (unlink m (addr n)) x = load m x).
Proof.
  intros Hsp (H1 & H2 & H3).
  destruct (spaced_head _ _ _ Hsp) as (Hn0 & Hn1 & Hns).
  destruct (spaced_tail _ _ _ Hsp) as (Hsp1 & Hsp2).
  unfold unlink. unwrap_at (addr n). rewrite H2.
  rewrite (load_store_other _ slot (addr n + 16)) by addr_lia.
  rewrite (load_store_other _ slot (addr n + 24)) by addr_lia.
  destruct f2 as [| c2 t].
  - simpl in H3. rewrite H3. simpl. split.
    + apply load_store_same.
    + intros x Hx. apply load_store_other. intros ->. apply Hx. now left.
  - destruct H3 as (H4 & H5 & H6). rewrite H4, H2.
    destruct (spaced_head _ _ _ Hsp1) as (Hc0 & Hc1 & Hcs).
    destruct (spaced_head _ _ _ Hsp2) as (_ & _ & Hcn).
    consts.
    destruct (Z.eqb_spec (addr c2) 0); [lia |].
    rewrite prevFree_at_eq in * by addr_lia.
    split.
    + simpl. repeat split.
      * rewrite load_store_other by addr_lia. apply load_store_same.
      * rewrite prevFree_at_eq
          by addr_lia.
        apply load_store_same.
      * apply (flist_frame m); [exact H6 |]. intros x Hx.
        destruct (touches_tail_apart _ _ _ _ Hsp1 Hx) as (Hx1 & Hx2).
        rewrite !load_store_other by assumption. reflexivity.
    + intros x Hx.
      rewrite !load_store_other; [reflexivity | |].
      * intros ->. apply Hx. now left.
      * intros ->. apply Hx. right. exists c2. split; [now left |]. right.
        now unwrap_at (addr c2).
Qed.

Lemma unlink_spec (m : mem) (n : chunk) (f2 : list chunk) :
  forall (f1 : list chunk) (slot : Z),
    spaced slot (f1 ++ n :: f2) ->
    flist m slot (f1 ++ n :: f2) ->
    flist (unlink m (addr n)) slot (f1 ++ f2) /\
    (forall x, ~ touches slot (f1 ++ f2) x ->
               load (unlink m (addr n)) x = load m x).
Proof.
  induction f1 as [| c f1 IH]; intros slot Hsp H.
  - now apply unlink_head.
  - simpl in *. destruct H as (H1 & H2 & H3).
    destruct (spaced_head _ _ _ Hsp) as (Hc0 & Hc1 & Hcs).
    destruct (spaced_tail _ _ _ Hsp) as (Hsp1 & Hsp2).
    destruct (IH _ Hsp2 H3) as (IH1 & IH2).
    pose proof (spaced_remove _ (c :: f1) f2 n Hsp) as Hsp'.
    assert (Hfr : forall x, x = slot \/ x = addr c + 24 ->
                            ~ touches (nextFree_at (addr c)) (f1 ++ f2) x).
    { intros x Hx Ht.
      destruct (touches_tail_apart _ _ _ _ Hsp' Ht). destruct Hx; contradiction. }
    split.
    + repeat split.
      * rewrite IH2; [exact H1 | apply Hfr; now left].
      * rewrite IH2; [exact H2 |]. rewrite prevFree_at_eq by addr_lia.
        apply Hfr. now right.
      * exact IH1.
    + intros x Hx. apply IH2. now apply (not_touches_tail slot).
Qed.

(** ** [link] inserts one cell *)

Lemma link_splice (fuel : nat) (m : mem) (h first : Z) :
  link fuel m h first =
  option_map (splice m h) (link_scan fuel m (size m h) first).
Proof. unfold link, splice. now destruct link_scan. Qed.

Lemma spaced_skip (slot : Z) (x c : chunk) (t : list chunk) :
  spaced slot (x :: c :: t) -> spaced (nextFree_at (addr c)) (x :: t).
Proof.
  intros Hsp.
  destruct (spaced_tail _ _ _ Hsp) as (Hsp1 & _).
  destruct (spaced_tail _ _ _ Hsp1) as (_ & Hsp2).
  destruct (spaced_head _ _ _ Hsp1) as (Hc0 & Hc1 & _).
  destruct Hsp as [Hr Hs Hf Hn].
  assert (Hsub : forall y, In y (x :: t) -> In y (x :: c :: t)).
  { simpl. tauto. }
  split; intros; auto.
  - destruct H as [<- | Hin]; [| now apply (sp_slot _ _ Hsp2)].
    unwrap_at (addr c).
    destruct (Hf x c) as [He | Hfar]; [now left | right; now left | |].
    + exfalso. inversion Hn as [| ? ? Hnot _]; subst. apply Hnot.
      simpl. now left.
    + unfold far in Hfar. addr_lia.
  - inversion Hn as [| ? ? Hnot Hn']; subst.
    inversion Hn' as [| ? ? _ Hn'']; subst.
    simpl. constructor; [| exact Hn'']. intros Hin. apply Hnot. now right.
Qed.

Lemma splice_spec (m : mem) (x : chunk) (slot : Z) (b : list chunk) :
  spaced slot (x :: b) ->
  flist m slot b ->
  flist (splice m (addr x) slot) slot (x :: b) /\
  (forall y, ~ touches slot (x :: b) y ->
             load (splice m (addr x) slot) y = load m y).
Proof.
  intros Hsp H.
  destruct (spaced_head _ _ _ Hsp) as (Hx0 & Hx1 & Hxs).
  destruct (spaced_tail _ _ _ Hsp) as (Hsp1 & Hsp2).
  assert (Hnt : forall y, ~ touches slot (x :: b) y ->
                          y <> slot /\ y <> addr x + 16 /\ y <> addr x + 24).
  { intros y Hy. repeat split; intros ->; apply Hy.
    - now left.
    - right. exists x. split; [now left |]. left. now unwrap_at (addr x).
    - right. exists x. split; [now left |]. right. now unwrap_at (addr x). }
  unfold splice. unwrap_at (addr x). consts.
  rewrite (load_store_other _ (addr x + 24) slot) by lia.
  rewrite (load_store_other _ slot (addr x + 16)) by lia.
  rewrite load_store_same.
  destruct b as [| c t].
  - simpl in H. rewrite H. simpl. unwrap_at (addr x). split.
    + repeat split.
      * apply load_store_same.
      * rewrite !load_store_other by lia. apply load_store_same.
      * rewrite load_store_other by lia. apply load_store_same.
    + intros y Hy. destruct (Hnt y Hy) as (? & ? & ?).
      now rewrite !load_store_other by assumption.
  - destruct H as (H1 & H2 & H3). rewrite H1.
    destruct (spaced_head _ _ _ Hsp1) as (Hc0 & Hc1 & Hcs).
    destruct (spaced_head _ _ _ Hsp2) as (_ & _ & Hcx).
    unwrap_at (addr c). consts.
    destruct (Z.eqb_spec (addr c) 0); [lia |].
    split.
    + simpl. unwrap_at (addr x). unwrap_at (addr c). repeat split.
      * rewrite load_store_other by lia. apply load_store_same.
      * rewrite !load_store_other by lia. apply load_store_same.
      * rewrite !load_store_other by lia. apply load_store_same.
      * apply load_store_same.
      * apply (flist_frame m); [exact H3 |]. intros y Hy.
        destruct (spaced_tail _ _ _ Hsp1) as (_ & Hspc).
        destruct (spaced_tail _ _ _ Hsp2) as (Hspx & _).
        unwrap_at (addr c).
        assert (Hyc : touches (nextFree_at (addr c)) t y)
          by now unwrap_at (addr c).
        destruct (touches_tail_apart _ _ _ _ Hsp1 Hyc) as (Hy1 & Hy2).
        apply (touches_spaced _ _ _ Hspc) in Hy.
        assert (y <> addr x + 16 /\ y <> addr x + 24).
        { destruct Hy as [-> | (c' & Hin & Hy)]; [lia |].
          pose proof (sp_slot _ _ Hspx c' Hin) as Hs2. consts. lia. }
        rewrite !load_store_other by tauto. reflexivity.
    + intros y Hy. destruct (Hnt y Hy) as (? & ? & ?).
      rewrite !load_store_other; try assumption; [reflexivity |].
      intros ->. apply Hy. right. exists c. split; [right; now left |].
      right. now unwrap_at (addr c).
Qed.

Lemma link_scan_spec (m : mem) (x : chunk) (l : list chunk) :
  forall (slot : Z) (fuel : nat),
    spaced slot (x :: l) ->
    flist m slot l ->
    (forall c, In c l -> size m (addr c) = csize c) ->
    (length l < fuel)%nat ->
    exists iter,
      link_scan fuel m (csize x) slot = Some iter /\
      flist (splice m (addr x) iter) slot (insert x l) /\
      (forall y, ~ touches slot (x :: l) y ->
                 load (splice m (addr x) iter) y = load m y).
Proof.
  induction l as [| c t IH]; intros slot fuel Hsp H Hsz Hf.
  - destruct fuel as [| fuel]; [simpl in Hf; lia |].
    exists slot. split; [simpl in *; now rewrite H |].
    now apply (splice_spec m x slot []).
  - destruct fuel as [| fuel]; [simpl in Hf; lia |].
    destruct (spaced_tail _ _ _ Hsp) as (Hsp1 & _).
    destruct (spaced_head _ _ _ Hsp1) as (Hc0 & Hc1 & Hcs).
    pose proof H as (H1 & H2 & H3).
    simpl link_scan. rewrite H1.
    destruct (Z.eqb_spec (addr c) 0); [lia |].
    rewrite (Hsz c (or_introl eq_refl)). simpl insert.
    destruct (Z.ltb_spec (csize c) (csize x)).
    + pose proof (spaced_skip _ _ _ _ Hsp) as Hsk.
      destruct (IH (nextFree_at (addr c)) fuel Hsk H3) as (iter & E & Hl & Hfr).
      { intros c' Hin. apply Hsz. now right. }
      { simpl in Hf. lia. }
      exists iter. split; [exact E |].
      assert (Hout : forall y, y = slot \/ y = addr c + 24 ->
                ~ touches (nextFree_at (addr c)) (x :: t) y).
      { intros y Hy Ht.
        apply (touches_spaced _ _ _ Hsk) in Ht. unwrap_at (addr c).
        destruct (spaced_head _ _ _ Hsp) as (Hx0 & Hx1 & Hxs).
        destruct (spaced_head _ _ _ Hsk) as (_ & _ & Hxc).
        unwrap_at (addr c).
        destruct Ht as [-> | (c' & [<- | Hin] & Ht)].
        - consts. lia.
        - consts. lia.
        - pose proof (sp_slot _ _ Hsk c' (or_intror Hin)) as Hs1.
          pose proof (sp_slot _ _ Hsp c' (or_intror (or_intror Hin))) as Hs2.
          unwrap_at (addr c). consts. lia. }
      split.
      * simpl. repeat split.
        -- rewrite Hfr; [exact H1 | apply Hout; now left].
        -- rewrite Hfr; [exact H2 |]. unwrap_at (addr c). apply Hout. now right.
        -- exact Hl.
      * intros y Hy. apply Hfr. intros [-> | (c' & Hin & Hc')]; apply Hy.
        -- right. exists c. split; [right; now left | now left].
        -- right. exists c'. split; [| exact Hc'].
           destruct Hin as [<- | Hin]; [now left | right; now right].
    + exists slot. split; [reflexivity |].
      now apply (splice_spec m x slot (c :: t)).
Qed.

Lemma link_spec (m : mem) (x : chunk) (l : list chunk) (slot : Z)
    (fuel : nat) :
  spaced slot (x :: l) ->
  flist m slot l ->
  (forall c, In c l -> size m (addr c) = csize c) ->
  size m (addr x) = csize x ->
  (length l < fuel)%nat ->
  exists m',
    link fuel m (addr x) slot = Some m' /\
    flist m' slot (insert x l) /\
    (forall y, ~ touches slot (x :: l) y -> load m' y = load m y).
Proof.
  intros Hsp H Hsz Hx Hf.
  destruct (link_scan_spec m x l slot fuel Hsp H Hsz Hf) as (iter & E & Hl & Hfr).
  exists (splice m (addr x) iter). rewrite link_splice, Hx, E.
  repeat split; assumption.
Qed.

(** ** Sorted insertion and removal *)

Lemma insert_In (x c : chunk) (l : list chunk) :
  In c (insert x l) <-> c = x \/ In c l.
Proof.
  induction l as [| d t IH]; simpl.
  - intuition congruence.
  - destruct (csize d <? csize x); simpl; rewrite ?IH; intuition congruence.
Qed.

Lemma insert_sorted (x : chunk) (l : list chunk) :
  StronglySorted by_size l -> StronglySorted by_size (insert x l).
Proof.
  induction 1 as [| d t Hs IH Hd]; simpl.
  - repeat constructor.
  - destruct (Z.ltb_spec (csize d) (csize x)).
    + constructor; [exact IH |]. apply Forall_forall. intros c Hc.
      apply insert_In in Hc. destruct Hc as [-> | Hc].
      * unfold by_size. lia.
      * rewrite Forall_forall in Hd. now apply Hd.
    + constructor; [now constructor |].
      constructor; [exact H |].
      apply Forall_forall. intros c Hc. rewrite Forall_forall in Hd.
      specialize (Hd c Hc). unfold by_size in *. lia.
Qed.

Lemma remove_sorted (a b : list chunk) (c : chunk) :
  StronglySorted by_size (a ++ c :: b) -> StronglySorted by_size (a ++ b).
Proof.
  induction a as [| d a IH]; simpl; intros H.
  - now inversion H.
  - inversion H as [| ? ? Hs Hd]; subst. constructor; [now apply IH |].
    rewrite Forall_forall in *. intros y Hy. apply Hd.
    apply in_app_or in Hy. apply in_or_app. simpl. tauto.
Qed.

Lemma insert_length (x : chunk) (l : list chunk) :
  length (insert x l) = S (length l).
Proof.
  induction l as [| d t IH]; simpl; [reflexivity |].
  destruct (csize d <? csize x); simpl; [now rewrite IH | reflexivity].
Qed.

Lemma insert_nodup (x : chunk) (l : list chunk) :
  ~ In (addr x) (map addr l) -> NoDup (map addr l) ->
  NoDup (map addr (insert x l)).
Proof.
  induction l as [| d t IH]; simpl; intros Hx Hn.
  - constructor; [tauto | constructor].
  - inversion Hn as [| ? ? Hd Hn']; subst.
    destruct (csize d <? csize x); simpl.
    + constructor; [| apply IH; tauto].
      rewrite in_map_iff. intros (c & Hc & Hin).
      apply insert_In in Hin. destruct Hin as [-> | Hin].
      * apply Hx. now left.
      * apply Hd. rewrite <- Hc. now apply in_map.
    + constructor; [simpl; tauto | now constructor].
Qed.

(** * The invariant with a hole *)

Section Hole.

Variables (this h0 hend : Z).

Lemma pwf_of_wf (m : mem) (a b fl : list chunk) :
  wf this h0 hend m (a ++ b) fl ->
  pwf this h0 hend m a (h0 + total_size a) (h0 + total_size a) b fl.
Proof.
  intros [H1 H2 H3 H4 H5 H6 H7 H8 H9 H10 H11 H12].
  apply tiles_app in H5. destruct H5 as (Ha & Hb).
  split; try assumption. lia.
Qed.

Lemma wf_of_pwf (m : mem) (a b fl : list chunk) (lo : Z) :
  pwf this h0 hend m a lo lo b fl -> wf this h0 hend m (a ++ b) fl.
Proof.
  intros [H1 H2 H3 H4 H5 H6 H7 H8 H9 H10 H11 H12 H13 H14].
  split; try assumption.
  apply tiles_app. pose proof (tiles_total _ _ _ H5) as E.
  rewrite <- E. split; assumption.
Qed.

(** Numeric facts about the chunks around the hole. *)
Lemma pwf_In (m : mem) (a b fl : list chunk) (lo hi : Z) (c : chunk) :
  pwf this h0 hend m a lo hi b fl ->
  In c (a ++ b) ->
  0 < h0 <= addr c /\ addr c + csize c <= hend /\ hend + 16 <= modulus /\
  32 <= csize c /\ (addr c + csize c <= lo \/ hi <= addr c).
Proof.
  intros H Hin. pose proof (pw_h0 _ _ _ _ _ _ _ _ _ H).
  pose proof (pw_hend _ _ _ _ _ _ _ _ _ H).
  pose proof (pw_hole _ _ _ _ _ _ _ _ _ H).
  pose proof (tiles_le _ _ _ (pw_left _ _ _ _ _ _ _ _ _ H)).
  pose proof (tiles_le _ _ _ (pw_right _ _ _ _ _ _ _ _ _ H)).
  apply in_app_or in Hin. destruct Hin as [Hin | Hin].
  - destruct (tiles_In _ _ _ _ (pw_left _ _ _ _ _ _ _ _ _ H) Hin)
      as (? & ? & ? & ?). consts. lia.
  - destruct (tiles_In _ _ _ _ (pw_right _ _ _ _ _ _ _ _ _ H) Hin)
      as (? & ? & ? & ?). consts. lia.
Qed.

(** Two chunks around the hole do not overlap. *)
Lemma pwf_disjoint (m : mem) (a b fl : list chunk) (lo hi : Z) (c c' : chunk) :
  pwf this h0 hend m a lo hi b fl ->
  In c (a ++ b) -> In c' (a ++ b) ->
  c = c' \/ addr c + csize c <= addr c' \/ addr c' + csize c' <= addr c.
Proof.
  intros H Hin Hin'.
  pose proof (pw_hole _ _ _ _ _ _ _ _ _ H).
  pose proof (pw_left _ _ _ _ _ _ _ _ _ H) as Hl.
  pose proof (pw_right _ _ _ _ _ _ _ _ _ H) as Hr.
  apply in_app_or in Hin. apply in_app_or in Hin'.
  destruct Hin as [Hin | Hin], Hin' as [Hin' | Hin'].
  - apply (tiles_disjoint a h0 lo); assumption.
  - destruct (tiles_In _ _ _ _ Hl Hin) as (? & ? & ? & ?).
    destruct (tiles_In _ _ _ _ Hr Hin') as (? & ? & ? & ?). lia.
  - destruct (tiles_In _ _ _ _ Hr Hin) as (? & ? & ? & ?).
    destruct (tiles_In _ _ _ _ Hl Hin') as (? & ? & ? & ?). lia.
  - apply (tiles_disjoint b hi hend); assumption.
Qed.

Lemma pwf_spaced (m : mem) (a b fl : list chunk) (lo hi : Z) :
  pwf this h0 hend m a lo hi b fl -> spaced this fl.
Proof.
  intros H. pose proof (pw_this _ _ _ _ _ _ _ _ _ H) as Ht.
  assert (Hin : forall c, In c fl -> In c (a ++ b)).
  { intros c Hc. now apply (pw_free _ _ _ _ _ _ _ _ _ H) in Hc. }
  split.
  - intros c Hc. destruct (pwf_In _ _ _ _ _ _ _ H (Hin c Hc)) as (? & ? & ? & ? & _).
    consts. lia.
  - intros c Hc. destruct (pwf_In _ _ _ _ _ _ _ H (Hin c Hc)) as (? & ? & ? & ? & _).
    consts. lia.
  - intros c c' Hc Hc'.
    destruct (pwf_In _ _ _ _ _ _ _ H (Hin c Hc)) as (? & ? & ? & ? & _).
    destruct (pwf_In _ _ _ _ _ _ _ H (Hin c' Hc')) as (? & ? & ? & ? & _).
    destruct (pwf_disjoint _ _ _ _ _ _ _ _ H (Hin c Hc) (Hin c' Hc'))
      as [-> | Hd]; [now left |].
    right. unfold far. consts. lia.
  - exact (pw_nodup _ _ _ _ _ _ _ _ _ H).
Qed.

Lemma pwf_size (m : mem) (a b fl : list chunk) (lo hi : Z) (c : chunk) :
  pwf this h0 hend m a lo hi b fl ->
  In c (a ++ b) -> size m (addr c) = csize c.
Proof.
  intros H Hin.
  destruct (pwf_In _ _ _ _ _ _ _ H Hin) as (? & ? & ? & ? & _).
  destruct (pw_tags _ _ _ _ _ _ _ _ _ H c Hin) as (Ht & _).
  assert (Hm : csize c mod 16 = 0).
  { apply in_app_or in Hin. destruct Hin as [Hin | Hin].
    - now destruct (tiles_In _ _ _ _ (pw_left _ _ _ _ _ _ _ _ _ H) Hin)
        as (_ & _ & _ & ?).
    - now destruct (tiles_In _ _ _ _ (pw_right _ _ _ _ _ _ _ _ _ H) Hin)
        as (_ & _ & _ & ?). }
  unfold size. unwrap_at (addr c). consts. rewrite Ht.
  apply tag_size; try lia. now apply aligned_even.
Qed.

Lemma untouched_intro (l : list chunk) (y : Z) :
  spaced this l ->
  y <> this ->
  (forall c, In c l -> y <> addr c + 16 /\ y <> addr c + 24) ->
  ~ touches this l y.
Proof.
  intros Hsp Hy Hl Ht. apply (touches_spaced _ _ _ Hsp) in Ht.
  destruct Ht as [-> | (c & Hin & Ht)]; [now apply Hy |].
  destruct (Hl c Hin). lia.
Qed.

(** The words of the free list lie outside the hole and are no size
    fields. *)
Lemma pwf_touches (m : mem) (a b fl : list chunk) (lo hi : Z) (y : Z) :
  pwf this h0 hend m a lo hi b fl ->
  touches this fl y ->
  (y + 8 <= h0 \/ hend + 16 <= y \/
   exists c, In c (a ++ b) /\ used c = false /\
             (y = addr c + 16 \/ y = addr c + 24)).
Proof.
  intros H Ht. apply (touches_spaced _ _ _ (pwf_spaced _ _ _ _ _ _ H)) in Ht.
  pose proof (pw_this _ _ _ _ _ _ _ _ _ H) as Hthis. consts.
  destruct Ht as [-> | (c & Hin & Ht)]; [lia |].
  right. right. exists c. apply (pw_free _ _ _ _ _ _ _ _ _ H) in Hin. tauto.
Qed.

(** Writes into the hole preserve the invariant around it. *)
Lemma pwf_frame (m m' : mem) (a b fl : list chunk) (lo hi : Z) :
  pwf this h0 hend m a lo hi b fl ->
  (forall y, y < lo + 8 \/ hi < y -> load m' y = load m y) ->
  pwf this h0 hend m' a lo hi b fl.
Proof.
  intros H Hfr.
  pose proof (tiles_le _ _ _ (pw_left _ _ _ _ _ _ _ _ _ H)) as Hl.
  pose proof (tiles_le _ _ _ (pw_right _ _ _ _ _ _ _ _ _ H)) as Hr.
  pose proof (pw_hole _ _ _ _ _ _ _ _ _ H) as Hh.
  pose proof H as p.
  destruct H as [H1 H2 H3 H4 H5 H6 H7 H8 H9 H10 H11 H12 H13 H14].
  split; try assumption.
  - rewrite Hfr; [assumption | lia].
  - rewrite Hfr; [assumption | consts; lia].
  - intros c Hc. destruct (pwf_In _ _ _ _ _ _ _ p Hc) as (? & ? & ? & ? & ?).
    destruct (H10 c Hc) as (T1 & T2). consts.
    rewrite !Hfr by lia. tauto.
  - apply (flist_frame m); [assumption |]. intros y Hy. apply Hfr.
    destruct (pwf_touches _ _ _ _ _ _ _ p Hy) as [? | [? | (c & Hc & _ & Hy')]].
    + lia.
    + lia.
    + destruct (pwf_In _ _ _ _ _ _ _ p Hc) as (? & ? & ? & ? & ?). lia.
Qed.

(** Size fields and link fields never coincide. *)
Lemma pwf_tag_not_link (m : mem) (a b fl : list chunk) (lo hi : Z)
    (c c' : chunk) :
  pwf this h0 hend m a lo hi b fl ->
  In c (a ++ b) -> In c' (a ++ b) ->
  forall y, y = addr c + 8 \/ y = addr c + csize c \/ y = h0 \/ y = hend + 8 ->
            y <> this /\ y <> addr c' + 16 /\ y <> addr c' + 24.
Proof.
  intros H Hc Hc' y Hy.
  pose proof (pw_this _ _ _ _ _ _ _ _ _ H) as Hthis. consts.
  destruct (pwf_In _ _ _ _ _ _ _ H Hc) as (? & ? & ? & ? & _).
  destruct (pwf_In _ _ _ _ _ _ _ H Hc') as (? & ? & ? & ? & _).
  destruct (pwf_disjoint _ _ _ _ _ _ _ _ H Hc Hc') as [-> | Hd]; lia.
Qed.

(** Unlinking a free chunk; the caller says how the chunk sequence is cut
    afterwards. *)
Lemma pwf_remove (m : mem) (a b fl : list chunk) (lo hi : Z) (n : chunk)
    (a' b' : list chunk) (lo' hi' : Z) :
  pwf this h0 hend m a lo hi b fl ->
  In n (a ++ b) -> used n = false ->
  tiles h0 a' lo' -> tiles hi' b' hend -> lo' <= hi' ->
  (forall c, In c (a' ++ b') <-> In c (a ++ b) /\ c <> n) ->
  exists pre post,
    fl = pre ++ n :: post /\
    pwf this h0 hend (unlink m (addr n)) a' lo' hi' b' (pre ++ post) /\
    (forall y, not_link this a b y -> load (unlink m (addr n)) y = load m y).
Proof.
  intros H Hn Hfree Ha' Hb' Hle Hiff.
  assert (Hnfl : In n fl) by (apply (pw_free _ _ _ _ _ _ _ _ _ H); tauto).
  destruct (in_split _ _ Hnfl) as (pre & post & ->).
  exists pre, post. split; [reflexivity |].
  pose proof (pwf_spaced _ _ _ _ _ _ H) as Hsp.
  destruct (unlink_spec m n post pre this Hsp (pw_flist _ _ _ _ _ _ _ _ _ H))
    as (Hfl & Hfr).
  pose proof (spaced_remove _ _ _ _ Hsp) as Hsp'.
  assert (Hsub : forall c, In c (pre ++ post) -> In c (pre ++ n :: post)).
  { intros c Hc. apply in_app_or in Hc. apply in_or_app. simpl. tauto. }
  assert (Hframe : forall y, not_link this a b y ->
            load (unlink m (addr n)) y = load m y).
  { intros y (Hy1 & Hy2). apply Hfr. apply untouched_intro; try assumption.
    intros c Hc. apply Hsub in Hc.
    apply (pw_free _ _ _ _ _ _ _ _ _ H) in Hc. now apply Hy2. }
  assert (Htag : forall c y, In c (a ++ b) ->
            y = addr c + 8 \/ y = addr c + csize c \/ y = h0 \/ y = hend + 8 ->
            load (unlink m (addr n)) y = load m y).
  { intros c y Hc Hy. apply Hframe. split.
    - now destruct (pwf_tag_not_link _ _ _ _ _ _ c c H Hc Hc y Hy).
    - intros c' Hc' _.
      now destruct (pwf_tag_not_link _ _ _ _ _ _ c c' H Hc Hc' y Hy). }
  pose proof (pw_nodup _ _ _ _ _ _ _ _ _ H) as Hnd.
  rewrite map_app in Hnd. simpl in Hnd.
  split; [| exact Hframe].
  destruct H as [H1 H2 H3 H4 H5 H6 H7 H8 H9 H10 H11 H12 H13 H14].
  split; try assumption.
  - rewrite (Htag n) by tauto. assumption.
  - rewrite (Htag n) by (consts; tauto). assumption.
  - intros c Hc. apply Hiff in Hc. destruct Hc as (Hc & _).
    consts. rewrite !(Htag c) by tauto. now apply H10.
  - intros c. rewrite Hiff. split.
    + intros Hc. pose proof (Hsub c Hc) as Hc'. apply H12 in Hc'.
      repeat split; try tauto. intros ->.
      apply NoDup_remove_2 in Hnd. apply Hnd. rewrite <- map_app.
      now apply in_map.
    + intros ((Hc & Hne) & Hf). assert (Hc' : In c (pre ++ n :: post))
        by (apply H12; tauto).
      apply in_app_or in Hc'. apply in_or_app.
      simpl in Hc'. intuition congruence.
  - rewrite map_app. now apply NoDup_remove_1 in Hnd.
  - now apply remove_sorted in H14.
Qed.

End Hole.

(** * Writing size fields into the hole *)

Lemma tag_range (s : Z) (u : bool) :
  0 <= s -> s mod 16 = 0 -> tag s u = s \/ tag s u = s + 1.
Proof.
  intros H0 Hm. rewrite tag_value by now apply aligned_even.
  destruct u; tauto.
Qed.

Lemma size_of_tag (m : mem) (h s : Z) (u : bool) :
  0 <= h -> h + 32 <= modulus -> 0 <= s -> s + 1 < modulus ->
  s mod 16 = 0 ->
  load m (h + 8) = tag s u -> size m h = s.
Proof.
  intros H0 H1 H2 H3 H4 H5. unfold size. unwrap_at h. rewrite H5.
  apply tag_size; try assumption. now apply aligned_even.
Qed.

Lemma setSize_used_eq (m : mem) (h s : Z) :
  0 < h -> 0 <= s -> h + 32 <= modulus -> h + s < modulus ->
  s mod 16 = 0 ->
  setSize_used m h s =
  store (store m (h + 8) (tag s true)) (h + s) (tag s true).
Proof.
  intros H0 H1 H2 H2' H3. unfold setSize_used, next, prevSize_at. cbv zeta.
  unwrap_at h. change (Z.lor s InUse) with (tag s true).
  rewrite (size_of_tag _ h s true); try lia.
  - now rewrite wrap_small by lia.
  - apply load_store_same.
Qed.

Lemma setSize_free_eq (m : mem) (h s : Z) :
  0 < h -> 0 <= s -> h + 32 <= modulus -> h + s < modulus ->
  s mod 16 = 0 ->
  setSize_free m h s = store (store m (h + 8) s) (h + s) s.
Proof.
  intros H0 H1 H2 H2' H3. unfold setSize_free, next, prevSize_at. cbv zeta.
  unwrap_at h.
  rewrite (size_of_tag _ h s false); try lia.
  - now rewrite wrap_small by lia.
  - apply load_store_same.
Qed.

Section Fill.

Variables (this h0 hend : Z).

(** A used chunk takes the front of the hole. *)
Lemma fill_used (m : mem) (a b fl : list chunk) (lo mid hi : Z) :
  pwf this h0 hend m a lo hi b fl ->
  lo + 32 <= mid -> mid <= hi -> (mid - lo) mod 16 = 0 ->
  pwf this h0 hend (setSize_used m lo (mid - lo))
      (a ++ [Chunk lo (mid - lo) true]) mid hi b fl.
Proof.
  intros H Hlo Hhi Hal.
  pose proof (tiles_le _ _ _ (pw_left _ _ _ _ _ _ _ _ _ H)) as Hl.
  pose proof (tiles_le _ _ _ (pw_right _ _ _ _ _ _ _ _ _ H)) as Hr.
  pose proof (pw_h0 _ _ _ _ _ _ _ _ _ H) as Hh0.
  pose proof (pw_hend _ _ _ _ _ _ _ _ _ H) as Hhend. consts.
  rewrite setSize_used_eq by lia.
  replace (lo + (mid - lo)) with mid by lia.
  set (s := mid - lo) in *.
  set (m' := store (store m (lo + 8) (tag s true)) mid (tag s true)).
  assert (Hfr : forall y, y < lo + 8 \/ hi < y -> load m' y = load m y).
  { intros y Hy. unfold m'. rewrite !load_store_other by lia. reflexivity. }
  pose proof (pwf_frame _ _ _ _ _ _ _ _ _ _ H Hfr) as H'.
  destruct H' as [H1 H2 H3 H4 H5 H6 H7 H8 H9 H10 H11 H12 H13 H14].
  split; try assumption.
  - apply tiles_app. pose proof (tiles_total _ _ _ H5) as E. rewrite <- E.
    split; [assumption |]. simpl. consts. repeat split; first [exact Hal | unfold s; lia].
  - intros c Hc. rewrite <- app_assoc in Hc. apply in_app_or in Hc.
    destruct Hc as [Hc | [<- | Hc]].
    + apply H10. apply in_or_app. now left.
    + simpl. consts. unfold m'. split.
      * rewrite load_store_other by lia. apply load_store_same.
      * replace (lo + s) with mid by (unfold s; lia). apply load_store_same.
    + apply H10. apply in_or_app. now right.
  - intros c. rewrite H12, <- app_assoc, !in_app_iff. simpl.
    split; [tauto |]. intros ([? | [[<- | []] | ?]] & Hu); try tauto.
    discriminate.
Qed.

(** A free chunk whose size fields are written takes the whole hole and
    enters the free list. *)
Lemma link_fill (m : mem) (a b fl : list chunk) (lo hi : Z) (fuel : nat) :
  pwf this h0 hend m a lo hi b fl ->
  lo + 32 <= hi -> (hi - lo) mod 16 = 0 ->
  load m (lo + 8) = hi - lo -> load m hi = hi - lo ->
  (length fl < fuel)%nat ->
  exists m',
    link fuel m lo this = Some m' /\
    pwf this h0 hend m' (a ++ [Chunk lo (hi - lo) false]) hi hi b
        (insert (Chunk lo (hi - lo) false) fl).
Proof.
  intros H Hlo Hal Ht1 Ht2 Hfuel.
  set (R := Chunk lo (hi - lo) false).
  pose proof (tiles_le _ _ _ (pw_left _ _ _ _ _ _ _ _ _ H)) as Hl.
  pose proof (tiles_le _ _ _ (pw_right _ _ _ _ _ _ _ _ _ H)) as Hr.
  pose proof (pw_h0 _ _ _ _ _ _ _ _ _ H) as Hh0.
  pose proof (pw_hend _ _ _ _ _ _ _ _ _ H) as Hhend.
  pose proof (pw_this _ _ _ _ _ _ _ _ _ H) as Hthis. consts.
  pose proof (pwf_spaced _ _ _ _ _ _ _ _ _ H) as Hsp.
  assert (Hfl : forall c, In c fl ->
            In c (a ++ b) /\ (addr c + csize c <= lo \/ hi <= addr c) /\
            32 <= csize c /\ 0 < addr c).
  { intros c Hc. apply (pw_free _ _ _ _ _ _ _ _ _ H) in Hc.
    destruct Hc as (Hc & _).
    destruct (pwf_In _ _ _ _ _ _ _ _ _ _ H Hc) as (? & ? & ? & ? & ?).
    repeat split; try assumption; lia. }
  assert (HspR : spaced this (R :: fl)).
  { split.
    - intros c [<- | Hc]; [simpl; consts; lia | now apply (sp_range _ _ Hsp)].
    - intros c [<- | Hc]; [simpl; consts; lia | now apply (sp_slot _ _ Hsp)].
    - intros c c' [<- | Hc] [<- | Hc'].
      + now left.
      + right. destruct (Hfl c' Hc') as (_ & ? & ? & _).
        unfold far. simpl. consts. lia.
      + right. destruct (Hfl c Hc) as (_ & ? & ? & _).
        unfold far. simpl. consts. lia.
      + now apply (sp_far _ _ Hsp).
    - simpl. constructor; [| exact (sp_nodup _ _ Hsp)].
      rewrite in_map_iff. intros (c & Hc & Hin).
      destruct (Hfl c Hin) as (_ & ? & ? & _). lia. }
  destruct (link_spec m R fl this fuel HspR (pw_flist _ _ _ _ _ _ _ _ _ H))
    as (m' & E & Hlist & Hfr).
  { intros c Hc. apply (pwf_size _ _ _ _ _ _ _ _ _ _ H).
    now apply (Hfl c Hc). }
  { simpl. apply (size_of_tag m lo (hi - lo) false); try lia. exact Ht1. }
  { exact Hfuel. }
  exists m'. split; [exact E |].
  assert (Hkeep : forall y,
            y <> this -> y <> lo + 16 -> y <> lo + 24 ->
            (forall c, In c fl -> y <> addr c + 16 /\ y <> addr c + 24) ->
            load m' y = load m y).
  { intros y Y1 Y2 Y3 Y4. apply Hfr. apply untouched_intro; try assumption.
    intros c [<- | Hc]; [simpl; lia | now apply Y4]. }
  assert (Htag : forall c y, In c (a ++ b) ->
            y = addr c + 8 \/ y = addr c + csize c \/ y = h0 \/ y = hend + 8 ->
            load m' y = load m y).
  { intros c y Hc Hy.
    destruct (pwf_In _ _ _ _ _ _ _ _ _ _ H Hc) as (? & ? & ? & ? & ?).
    apply Hkeep; try lia.
    intros c' Hc'. destruct (Hfl c' Hc') as (Hc'' & _).
    now destruct (pwf_tag_not_link _ _ _ _ _ _ _ _ _ c c' H Hc Hc'' y Hy). }
  assert (Hends : load m' h0 = load m h0 /\ load m' (hend + 8) = load m (hend + 8)).
  { split; apply Hkeep; try lia; intros c Hc;
      destruct (Hfl c Hc) as (? & ? & ? & ?);
      destruct (pwf_In _ _ _ _ _ _ _ _ _ _ H H0) as (? & ? & ? & ? & ?); lia. }
  destruct H as [H1 H2 H3 H4 H5 H6 H7 H8 H9 H10 H11 H12 H13 H14].
  split; try assumption; consts.
  - apply tiles_app. pose proof (tiles_total _ _ _ H5) as E5. rewrite <- E5.
    split; [assumption |]. simpl. consts. repeat split; first [exact Hal | lia].
  - lia.
  - now rewrite (proj1 Hends).
  - now rewrite (proj2 Hends).
  - intros c Hc. rewrite <- app_assoc in Hc. apply in_app_or in Hc.
    assert (Hold : In c (a ++ b) ->
              load m' (addr c + 8) = tag (csize c) (used c) /\
              load m' (addr c + csize c) = tag (csize c) (used c)).
    { intros Hc'. rewrite !(Htag c) by tauto. now apply H10. }
    destruct Hc as [Hc | [<- | Hc]].
    + apply Hold. apply in_or_app. now left.
    + simpl. replace (lo + (hi - lo)) with hi by lia.
      rewrite !Hkeep; try lia; try tauto;
        intros c Hc; destruct (Hfl c Hc) as (? & ? & ? & ?); lia.
    + apply Hold. apply in_or_app. now right.
  - intros c. rewrite insert_In, H12, <- app_assoc, !in_app_iff. simpl.
    split.
    + intros [-> | ?]; [simpl |]; tauto.
    + intros ([? | [[<- | []] | ?]] & Hu); tauto.
  - apply insert_nodup; [| assumption].
    rewrite in_map_iff. intros (c & Hc & Hin).
    destruct (Hfl c Hin) as (_ & ? & ? & _). simpl in Hc. lia.
  - now apply insert_sorted.
Qed.

Lemma fill_free (m : mem) (a b fl : list chunk) (lo hi : Z) (fuel : nat) :
  pwf this h0 hend m a lo hi b fl ->
  lo + 32 <= hi -> (hi - lo) mod 16 = 0 ->
  (length fl < fuel)%nat ->
  exists m',
    link fuel (setSize_free m lo (hi - lo)) lo this = Some m' /\
    pwf this h0 hend m' (a ++ [Chunk lo (hi - lo) false]) hi hi b
        (insert (Chunk lo (hi - lo) false) fl).
Proof.
  intros H Hlo Hal Hfuel.
  pose proof (tiles_le _ _ _ (pw_left _ _ _ _ _ _ _ _ _ H)) as Hl.
  pose proof (tiles_le _ _ _ (pw_right _ _ _ _ _ _ _ _ _ H)) as Hr.
  pose proof (pw_h0 _ _ _ _ _ _ _ _ _ H) as Hh0.
  pose proof (pw_hend _ _ _ _ _ _ _ _ _ H) as Hhend. consts.
  rewrite setSize_free_eq by lia.
  replace (lo + (hi - lo)) with hi by lia.
  apply link_fill; try assumption.
  - apply (pwf_frame _ _ _ m); [assumption |]. intros y Hy.
    rewrite !load_store_other by lia. reflexivity.
  - rewrite load_store_other by lia. apply load_store_same.
  - apply load_store_same.
Qed.

End Fill.

(** * Searching and removing in the free list *)

Lemma without_notin (h : Z) (l : list chunk) :
  ~ In h (map addr l) -> without h l = l.
Proof.
  induction l as [| c t IH]; simpl; intros Hn; [reflexivity |].
  destruct (Z.eqb_spec (addr c) h); simpl; [tauto |].
  rewrite IH; tauto.
Qed.

Lemma without_split (pre post : list chunk) (n : chunk) :
  NoDup (map addr (pre ++ n :: post)) ->
  without (addr n) (pre ++ n :: post) = pre ++ post.
Proof.
  intros Hnd. rewrite map_app in Hnd. simpl in Hnd.
  pose proof (NoDup_remove_2 _ _ _ Hnd) as Hn.
  unfold without. rewrite filter_app. simpl. rewrite Z.eqb_refl. simpl.
  fold (without (addr n) pre). fold (without (addr n) post).
  rewrite !without_notin; [reflexivity | |];
    intros Hin; apply Hn; apply in_or_app; tauto.
Qed.

Lemma first_fit_spec (n : Z) (l : list chunk) :
  match first_fit n l with
  | Some (pre, x, post) =>
      l = pre ++ x :: post /\ n <= csize x /\
      Forall (fun c => csize c < n) pre
  | None => Forall (fun c => csize c < n) l
  end.
Proof.
  induction l as [| c t IH]; simpl; [constructor |].
  destruct (Z.leb_spec n (csize c)).
  - repeat split; [assumption | constructor].
  - destruct (first_fit n t) as [[[pre x] post] |].
    + destruct IH as (-> & Hx & Hpre). repeat split; [assumption |].
      now constructor.
    + now constructor.
Qed.

Lemma find_chunk_spec (m : mem) (n : Z) (l : list chunk) :
  forall (slot : Z) (fuel : nat),
    spaced slot l ->
    flist m slot l ->
    (forall c, In c l -> size m (addr c) = csize c) ->
    (length l < fuel)%nat ->
    find_chunk fuel m n (load m slot) =
    Some (match first_fit n l with
          | Some (_, x, _) => addr x
          | None => 0
          end).
Proof.
  induction l as [| c t IH]; intros slot fuel Hsp H Hsz Hf.
  - destruct fuel as [| fuel]; [simpl in Hf; lia |].
    simpl in *. now rewrite H.
  - destruct fuel as [| fuel]; [simpl in Hf; lia |].
    destruct H as (H1 & H2 & H3).
    destruct (spaced_head _ _ _ Hsp) as (Hc0 & Hc1 & _).
    destruct (spaced_tail _ _ _ Hsp) as (_ & Hsp').
    simpl. rewrite H1. destruct (Z.eqb_spec (addr c) 0); [lia |].
    rewrite (Hsz c (or_introl eq_refl)).
    destruct (Z.leb_spec n (csize c)); [reflexivity |].
    rewrite (IH _ fuel Hsp' H3).
    + now destruct (first_fit n t) as [[[pre x] post] |].
    + intros c' Hc'. apply Hsz. now right.
    + simpl in Hf. lia.
Qed.

Lemma free_last_spec (a : list chunk) :
  match free_last a with
  | Some (a', p) => a = a' ++ [p] /\ used p = false
  | None => a = [] \/ exists a' p, a = a' ++ [p] /\ used p = true
  end.
Proof.
  unfold free_last. pose proof (rev_involutive a) as E.
  destruct (rev a) as [| p ra]; simpl in E; subst a; [now left |].
  destruct (used p) eqn:Eu.
  - right. now exists (rev ra), p.
  - now split.
Qed.

(** * [allocate] on a well-formed heap *)

Lemma needed_aligned (N : Z) :
  needed N mod 16 = 0 /\ 0 <= needed N < modulus.
Proof.
  unfold needed. cbv zeta.
  set (v := wrap (wrap (_ + max_alignment) - 1)).
  pose proof (wrap_range (wrap (wrap ((if N <=? minimum_alloc_size
    then minimum_alloc_size else N) + 2 * sizeof_size_type) + max_alignment) - 1))
    as Hv. fold v in Hv.
  rewrite land_neg_max_alignment by exact Hv. split.
  - rewrite Z.mul_comm. apply Z.mod_mul. lia.
  - Z.div_mod_to_equations. lia.
Qed.

Section Allocate.

Variables (this h0 hend : Z).

Lemma allocate_spec (fuel : nat) (m : mem) (cs fl : list chunk) (N : Z) :
  wf this h0 hend m cs fl ->
  sizeof_Header <= needed N ->
  (length fl < fuel)%nat ->
  match first_fit (needed N) fl with
  | None => allocate fuel this m N = Some (0, m)
  | Some (pre, x, post) =>
      exists a b m',
        cs = a ++ x :: b /\ used x = false /\
        allocate fuel this m N = Some (addr x + 16, m') /\
        wf this h0 hend m' (a ++ carve (needed N) x ++ b)
           (relink (needed N) x (pre ++ post))
  end.
Proof.
  intros Hwf Hn Hfuel.
  destruct (needed_aligned N) as (Hal & Hn0 & Hn1).
  set (n := needed N) in *.
  pose proof (pwf_of_wf this h0 hend m [] cs fl Hwf) as H0'.
  pose proof (pwf_spaced _ _ _ _ _ _ _ _ _ H0') as Hsp.
  assert (Hfind := find_chunk_spec m n fl this fuel Hsp (wf_flist _ _ _ _ _ _ Hwf)).
  unfold allocate. cbv zeta. fold n. rewrite Hfind; clear Hfind.
  2:{ intros c Hc. apply (pwf_size _ _ _ _ _ _ _ _ _ _ H0').
      now apply (wf_free _ _ _ _ _ _ Hwf) in Hc. }
  2:{ exact Hfuel. }
  pose proof (first_fit_spec n fl) as Hff.
  destruct (first_fit n fl) as [[[pre x] post] |]; [| reflexivity].
  destruct Hff as (Efl & Hxn & _).
  assert (Hxfl : In x fl) by (rewrite Efl; apply in_or_app; simpl; tauto).
  apply (wf_free _ _ _ _ _ _ Hwf) in Hxfl. destruct Hxfl as (Hxcs & Hfree).
  destruct (in_split _ _ Hxcs) as (a & b & ->).
  exists a, b.
  pose proof (pwf_of_wf this h0 hend m a (x :: b) fl Hwf) as Hp.
  destruct (tiles_middle _ _ _ _ _ (wf_tiles _ _ _ _ _ _ Hwf)) as (Hax & Hta & Htb).
  rewrite <- Hax in Hp.
  destruct (pwf_In _ _ _ _ _ _ _ _ _ _ Hp (in_elt x a b))
    as ((Hh0 & Hx0) & Hx1 & Hend & Hx2 & _).
  assert (Hxal : csize x mod 16 = 0).
  { now destruct (tiles_In _ _ _ _ (wf_tiles _ _ _ _ _ _ Hwf) Hxcs)
      as (_ & _ & _ & ?). }
  destruct (Z.eqb_spec (addr x) 0); [lia |].
  (* unlink *)
  destruct (pwf_remove _ _ _ m a (x :: b) fl (addr x) (addr x) x a b
              (addr x) (addr x + csize x) Hp) as (pre' & post' & Efl' & Hp1 & Hfr1);
    try assumption; try lia.
  { intros c. rewrite !in_app_iff. simpl.
    split; [| intros ([? | [? | ?]] & ?); [tauto | congruence | tauto]].
    intros Hc. split; [tauto |]. intros ->.
    destruct Hc as [Hc | Hc].
    - destruct (tiles_In _ _ _ _ Hta Hc) as (_ & ? & _). lia.
    - destruct (tiles_In _ _ _ _ Htb Hc) as (? & _). lia. }
  assert (Epp : pre' ++ post' = pre ++ post).
  { rewrite <- (without_split pre' post' x), <- (without_split pre post x).
    - now rewrite <- Efl, <- Efl'.
    - rewrite <- Efl. exact (wf_nodup _ _ _ _ _ _ Hwf).
    - rewrite <- Efl'. exact (wf_nodup _ _ _ _ _ _ Hwf). }
  rewrite Epp in Hp1. clear Efl' Epp pre' post'.
  set (m1 := unlink m (addr x)) in *.
  assert (Hsz1 : size m1 (addr x) = csize x).
  { apply (size_of_tag m1 (addr x) (csize x) false); try lia.
    rewrite Hfr1.
    - destruct (wf_tags _ _ _ _ _ _ Hwf x Hxcs) as (T & _).
      rewrite Hfree in T. exact T.
    - split.
      + now destruct (pwf_tag_not_link _ _ _ _ _ _ _ _ _ x x Hp
          (in_elt x a b)
          (in_elt x a b)
          (addr x + 8) (or_introl eq_refl)).
      + intros c Hc _.
        now destruct (pwf_tag_not_link _ _ _ _ _ _ _ _ _ x c Hp
          (in_elt x a b) Hc
          (addr x + 8) (or_introl eq_refl)). }
  rewrite Hsz1. rewrite (wrap_small (csize x - n)) by lia.
  unfold toPayload. consts. rewrite (wrap_small (addr x + 2 * 8)) by lia.
  unfold carve, relink. consts.
  destruct (Z.leb_spec (4 * 8) (csize x - n)) as [Hrem | Hrem].
  - (* split *)
    assert (Hmod : (addr x + n - addr x) mod 16 = 0)
      by (replace (addr x + n - addr x) with n by lia; exact Hal).
    pose proof (fill_used this h0 hend m1 a b (pre ++ post) (addr x)
                  (addr x + n) (addr x + csize x) Hp1
                  ltac:(lia) ltac:(lia) Hmod) as Hp2.
    replace (addr x + n - addr x) with n in Hp2 by lia.
    set (m2 := setSize_used m1 (addr x) n) in *.
    assert (Hnx : next m2 (addr x) = addr x + n).
    { unfold next.
      pose proof (pwf_size _ _ _ _ _ _ _ _ _ (Chunk (addr x) n true) Hp2)
        as Hs2. simpl in Hs2. rewrite Hs2.
      - apply wrap_small. lia.
      - rewrite <- app_assoc. apply in_or_app. simpl. tauto. }
    rewrite Hnx.
    assert (Hmod2 : (addr x + csize x - (addr x + n)) mod 16 = 0).
    { replace (addr x + csize x - (addr x + n)) with (csize x - n) by lia.
      rewrite Zminus_mod, Hxal, Hal. reflexivity. }
    destruct (fill_free this h0 hend m2 _ b (pre ++ post) (addr x + n)
                (addr x + csize x) fuel Hp2 ltac:(lia) Hmod2) as (m4 & E4 & Hp4).
    { rewrite Efl in Hfuel. rewrite !length_app in *. simpl in Hfuel. lia. }
    replace (addr x + csize x - (addr x + n)) with (csize x - n) in * by lia.
    rewrite E4. exists m4.
    split; [reflexivity | split; [assumption | split; [reflexivity |]]].
    apply wf_of_pwf in Hp4. rewrite <- !app_assoc in Hp4. exact Hp4.
  - (* no split *)
    assert (Hmod : (addr x + csize x - addr x) mod 16 = 0)
      by (replace (addr x + csize x - addr x) with (csize x) by lia; exact Hxal).
    pose proof (fill_used this h0 hend m1 a b (pre ++ post) (addr x)
                  (addr x + csize x) (addr x + csize x) Hp1
                  ltac:(lia) ltac:(lia) Hmod) as Hp2.
    replace (addr x + csize x - addr x) with (csize x) in Hp2 by lia.
    eexists.
    split; [reflexivity | split; [assumption | split; [reflexivity |]]].
    apply wf_of_pwf in Hp2. rewrite <- !app_assoc in Hp2. exact Hp2.
Qed.

End Allocate.

(** * The constructor *)

Lemma align_begin_eq (begin : Z) :
  0 <= begin -> begin + 32 <= modulus ->
  align_begin begin = 16 * ((begin + 31) / 16).
Proof.
  intros H0 H1. unfold align_begin. consts.
  rewrite (wrap_small (begin + 2 * 8)) by lia.
  rewrite wrap_sub_l.
  rewrite (wrap_small (begin + 2 * 8 + 16 - 1)) by lia.
  rewrite land_neg_max_alignment by lia. f_equal. f_equal. lia.
Qed.

Lemma align_end_eq (end_ : Z) :
  16 <= end_ < modulus -> align_end end_ = 16 * ((end_ - 16) / 16).
Proof.
  intros H. unfold align_end. consts.
  rewrite (wrap_small (end_ - 2 * 8)) by lia.
  rewrite land_neg_max_alignment by lia. reflexivity.
Qed.

Lemma region_aligned (this begin end_ : Z) :
  region_ok this begin end_ ->
  let b := align_begin begin in
  let e := align_end end_ in
  begin + 16 <= b <= begin + 31 /\ end_ - 31 <= e /\ e + 16 <= end_ /\
  b mod 16 = 0 /\ e mod 16 = 0.
Proof.
  intros (H0 & H1 & H2 & _). consts. cbv zeta.
  rewrite align_begin_eq, align_end_eq by lia.
  repeat split; try (rewrite Z.mul_comm; apply Z.mod_mul; lia);
    Z.div_mod_to_equations; lia.
Qed.

Section Constructor.

Variables (this : Z).

Lemma constructor_spec (fuel : nat) (m : mem) (begin end_ : Z) :
  region_ok this begin end_ ->
  let b := align_begin begin in
  let e := align_end end_ in
  sizeof_Header <= e - b ->
  exists m',
    DlAllocator (S fuel) this m begin end_ = Some m' /\
    wf this (b - 16) (e - 16) m'
       [Chunk (b - 16) (e - b) false] [Chunk (b - 16) (e - b) false].
Proof.
  intros Hok b e HT.
  destruct (region_aligned _ _ _ Hok) as ((Hb & _) & _ & He & Hbm & Hem).
  fold b e in Hb, He, Hbm, Hem.
  destruct Hok as (H0 & H1 & H2 & Hthis). consts.
  assert (HTm : (e - b) mod 16 = 0).
  { rewrite Zminus_mod, Hbm, Hem. reflexivity. }
  unfold DlAllocator. cbv zeta. fold b e.
  destruct (Z.leb_spec e b); [lia |].
  unfold payloadToHeader. consts.
  rewrite (wrap_small (b - 2 * 8)) by lia.
  rewrite (wrap_small (e - b)) by lia.
  replace (b - 2 * 8) with (b - 16) by lia.
  set (h := b - 16) in *.
  rewrite setSize_free_eq by lia.
  unfold prevSize_at. replace (h + (e - b)) with (e - 16) by (unfold h; lia).
  set (m1 := store (store (store m this 0) (h + 8) (e - b)) (e - 16) (e - b)).
  set (m2 := store m1 h InUse).
  assert (Hnx : next m2 h = e - 16).
  { unfold next. rewrite (size_of_tag m2 h (e - b) false); try lia.
    - replace (h + (e - b)) with (e - 16) by (unfold h; lia).
      apply wrap_small. lia.
    - unfold m2, m1. rewrite !load_store_other by lia. apply load_store_same. }
  rewrite Hnx. unfold thisSize_at. consts.
  rewrite (wrap_small (e - 16 + 8)) by lia.
  set (m3 := store m2 (e - 16 + 8) InUse).
  assert (Hp : pwf this h (e - 16) m3 [] h (e - 16) [] []).
  { split; consts; simpl; try lia; try tauto.
    - unfold h. rewrite Zminus_mod, Hbm. reflexivity.
    - unfold m3, m2. rewrite load_store_other by lia. apply load_store_same.
    - unfold m3. apply load_store_same.
    - unfold m3, m2, m1. rewrite !load_store_other by lia. apply load_store_same.
    - constructor.
    - constructor. }
  destruct (link_fill this h (e - 16) m3 [] [] [] h (e - 16) (S fuel) Hp)
    as (m' & E & Hp'); try (unfold h; lia).
  - replace (e - 16 - h) with (e - b) by (unfold h; lia). exact HTm.
  - replace (e - 16 - h) with (e - b) by (unfold h; lia).
    unfold m3, m2, m1. rewrite !load_store_other by lia.
    apply load_store_same.
  - replace (e - 16 - h) with (e - b) by (unfold h; lia).
    unfold m3, m2, m1. rewrite !load_store_other by lia. apply load_store_same.
  - simpl. lia.
  - exists m'. split; [exact E |].
    replace (e - 16 - h) with (e - b) in Hp' by (unfold h; lia).
    apply wf_of_pwf in Hp'. exact Hp'.
Qed.

End Constructor.

(** * [deallocate] on a well-formed heap *)

Section Deallocate.

Variables (this h0 hend : Z).

(** Forward coalescing: the first half of [deallocate], for the hole left
    by the chunk being freed. *)
Lemma absorb_next (m : mem) (a b fl : list chunk) (lo hi : Z) :
  pwf this h0 hend m a lo hi b fl ->
  lo + 32 <= hi ->
  size m lo = hi - lo ->
  exists m1 b1 hi1 fl1,
    (if nextIfFree m lo =? 0 then (m, hi - lo)
     else (unlink m (nextIfFree m lo),
           wrap (hi - lo + size (unlink m (nextIfFree m lo)) (nextIfFree m lo))))
    = (m1, hi1 - lo) /\
    pwf this h0 hend m1 a lo hi1 b1 fl1 /\
    hi <= hi1 /\ (hi1 - hi) mod 16 = 0 /\
    (b1, hi1, fl1) =
    match free_head b with
    | Some (n, b') => (b', hi + csize n, without (addr n) fl)
    | None => (b, hi, fl)
    end.
Proof.
  intros H Hlo Hsz.
  pose proof (tiles_le _ _ _ (pw_left _ _ _ _ _ _ _ _ _ H)) as Hl.
  pose proof (tiles_le _ _ _ (pw_right _ _ _ _ _ _ _ _ _ H)) as Hr.
  pose proof (pw_h0 _ _ _ _ _ _ _ _ _ H) as Hh0.
  pose proof (pw_hend _ _ _ _ _ _ _ _ _ H) as Hhend.
  pose proof (pw_last _ _ _ _ _ _ _ _ _ H) as Hlast. consts.
  unfold nextIfFree, next. cbv zeta. rewrite Hsz.
  replace (lo + (hi - lo)) with hi by lia.
  rewrite (wrap_small hi) by lia.
  unfold thisSize_at. consts. rewrite (wrap_small (hi + 8)) by lia.
  destruct b as [| n b'].
  - pose proof (pw_right _ _ _ _ _ _ _ _ _ H) as Hb. simpl in Hb. subst hi.
    rewrite Hlast. simpl.
    exists m, [], hend, fl.
    split; [reflexivity | split; [exact H | split; [lia | split]]];
      [now rewrite Z.sub_diag | reflexivity].
  - pose proof (pw_right _ _ _ _ _ _ _ _ _ H) as Hb. simpl in Hb.
    destruct Hb as (Hn & Hns & Hnm & Hb').
    assert (Hin : In n (a ++ n :: b')) by apply in_elt.
    destruct (pw_tags _ _ _ _ _ _ _ _ _ H n Hin) as (Ht & _).
    rewrite Hn in Ht. consts. rewrite Ht.
    rewrite tag_flag by now apply aligned_even. simpl free_head.
    destruct (used n) eqn:Eu.
    + simpl. exists m, (n :: b'), hi, fl.
      split; [reflexivity | split; [exact H | split; [lia | split]]];
        [now rewrite Z.sub_diag | reflexivity].
    + simpl. destruct (Z.eqb_spec hi 0); [lia |].
      rewrite <- Hn in *.
      pose proof (tiles_le _ _ _ Hb') as Hle.
      destruct (pwf_remove _ _ _ m a (n :: b') fl lo (addr n) n a b'
                  lo (addr n + csize n) H Hin Eu)
        as (pre & post & Efl & Hp1 & Hfr); try assumption; try lia.
      { exact (pw_left _ _ _ _ _ _ _ _ _ H). }
      { intros c. rewrite !in_app_iff. simpl.
        split; [| intros ([? | [? | ?]] & ?); [tauto | congruence | tauto]].
        intros Hc. split; [tauto |]. intros ->.
        destruct Hc as [Hc | Hc].
        - destruct (tiles_In _ _ _ _ (pw_left _ _ _ _ _ _ _ _ _ H) Hc)
            as (_ & ? & _). lia.
        - destruct (tiles_In _ _ _ _ Hb' Hc) as (? & _). lia. }
      assert (Hszn : size (unlink m (addr n)) (addr n) = csize n).
      { apply (size_of_tag _ (addr n) (csize n) false); try lia.
        rewrite Hfr; [exact Ht |]. split.
        - now destruct (pwf_tag_not_link _ _ _ _ _ _ _ _ _ n n H Hin Hin
            (addr n + 8) (or_introl eq_refl)).
        - intros c Hc _.
          now destruct (pwf_tag_not_link _ _ _ _ _ _ _ _ _ n c H Hin Hc
            (addr n + 8) (or_introl eq_refl)). }
      rewrite Hszn.
      rewrite (wrap_small (addr n - lo + csize n)) by lia.
      exists (unlink m (addr n)), b', (addr n + csize n), (pre ++ post).
      split; [| split; [exact Hp1 | split; [lia | split]]].
      * f_equal. lia.
      * replace (addr n + csize n - addr n) with (csize n) by lia.
        exact Hnm.
      * rewrite Efl, without_split; [reflexivity |].
        rewrite <- Efl. exact (pw_nodup _ _ _ _ _ _ _ _ _ H).
Qed.

(** Backward coalescing: the second half. *)
Lemma absorb_prev (m : mem) (a b fl : list chunk) (lo hi : Z) :
  pwf this h0 hend m a lo hi b fl ->
  exists m2 a2 lo2 fl2,
    (if prevIfFree m lo =? 0 then (m, hi - lo, lo)
     else (unlink m (prevIfFree m lo),
           wrap (hi - lo + size (unlink m (prevIfFree m lo)) (prevIfFree m lo)),
           prevIfFree m lo))
    = (m2, hi - lo2, lo2) /\
    pwf this h0 hend m2 a2 lo2 hi b fl2 /\
    lo2 <= lo /\ (lo - lo2) mod 16 = 0 /\
    (a2, lo2, fl2) =
    match free_last a with
    | Some (a', p) => (a', addr p, without (addr p) fl)
    | None => (a, lo, fl)
    end.
Proof.
  intros H.
  pose proof (tiles_le _ _ _ (pw_left _ _ _ _ _ _ _ _ _ H)) as Hl.
  pose proof (tiles_le _ _ _ (pw_right _ _ _ _ _ _ _ _ _ H)) as Hr.
  pose proof (pw_h0 _ _ _ _ _ _ _ _ _ H) as Hh0.
  pose proof (pw_hend _ _ _ _ _ _ _ _ _ H) as Hhend.
  pose proof (pw_hole _ _ _ _ _ _ _ _ _ H) as Hhole.
  pose proof (pw_first _ _ _ _ _ _ _ _ _ H) as Hfirst. consts.
  unfold prevIfFree, previousSize, prevSize_at.
  assert (Hstay : forall u s, s mod 16 = 0 -> load m lo = tag s u ->
            u = true -> free_last a = None ->
            exists m2 a2 lo2 fl2,
              (if (if Z.land (load m lo) InUse =? 0
                   then wrap (lo - Z.land (load m lo) not_InUse) else 0) =? 0
               then (m, hi - lo, lo)
               else (unlink m (if Z.land (load m lo) InUse =? 0
                       then wrap (lo - Z.land (load m lo) not_InUse) else 0),
                     wrap (hi - lo + size (unlink m (if Z.land (load m lo) InUse =? 0
                       then wrap (lo - Z.land (load m lo) not_InUse) else 0))
                       (if Z.land (load m lo) InUse =? 0
                       then wrap (lo - Z.land (load m lo) not_InUse) else 0)),
                     if Z.land (load m lo) InUse =? 0
                       then wrap (lo - Z.land (load m lo) not_InUse) else 0))
              = (m2, hi - lo2, lo2) /\
              pwf this h0 hend m2 a2 lo2 hi b fl2 /\
              lo2 <= lo /\ (lo - lo2) mod 16 = 0 /\
              (a2, lo2, fl2) =
              match free_last a with
              | Some (a', p) => (a', addr p, without (addr p) fl)
              | None => (a, lo, fl)
              end).
  { intros u s Hs Ht -> Hnone. rewrite Hnone, Ht.
    rewrite tag_flag by now apply aligned_even. simpl.
    exists m, a, lo, fl.
    split; [reflexivity | split; [exact H | split; [lia | split]]];
      [now rewrite Z.sub_diag | reflexivity]. }
  pose proof (free_last_spec a) as Hfl.
  destruct (free_last a) as [[a' p] |] eqn:Efl.
  - destruct Hfl as (-> & Eu).
    pose proof (pw_left _ _ _ _ _ _ _ _ _ H) as Ha.
    pose proof (tiles_snoc _ _ _ _ Ha) as Hp.
    destruct (tiles_middle _ _ _ _ _ Ha) as (_ & Ha' & _).
    assert (Hin : In p ((a' ++ [p]) ++ b)).
    { apply in_or_app. left. apply in_elt. }
    destruct (pwf_In _ _ _ _ _ _ _ _ _ _ H Hin) as ((_ & Hp0) & _ & _ & Hps & _).
    assert (Hpm : csize p mod 16 = 0).
    { now destruct (tiles_In _ _ _ _ Ha (in_elt p a' [])) as (_ & _ & _ & ?). }
    destruct (pw_tags _ _ _ _ _ _ _ _ _ H p Hin) as (Ht1 & Ht2).
    rewrite Hp in Ht2. rewrite Ht2.
    rewrite tag_flag by now apply aligned_even.
    rewrite tag_size; try lia; [| now apply aligned_even].
    rewrite Eu. simpl.
    replace (lo - csize p) with (addr p) by lia.
    rewrite (wrap_small (addr p)) by lia.
    destruct (Z.eqb_spec (addr p) 0); [lia |].
    destruct (pwf_remove _ _ _ m (a' ++ [p]) b fl lo hi p a' b
                (addr p) hi H Hin Eu)
      as (pre & post & Efl' & Hp1 & Hfr); try assumption; try lia.
    { exact (pw_right _ _ _ _ _ _ _ _ _ H). }
    { intros c. rewrite !in_app_iff. simpl.
      split; [| intros ([[? | [? | []]] | ?] & ?); [tauto | congruence | tauto]].
      intros Hc. split; [tauto |]. intros ->.
      destruct Hc as [Hc | Hc].
      - destruct (tiles_In _ _ _ _ Ha' Hc) as (_ & ? & _). lia.
      - destruct (tiles_In _ _ _ _ (pw_right _ _ _ _ _ _ _ _ _ H) Hc)
          as (? & _). lia. }
    assert (Hszp : size (unlink m (addr p)) (addr p) = csize p).
    { apply (size_of_tag _ (addr p) (csize p) false); try lia.
      rewrite Hfr; [now rewrite Eu in Ht1 |]. split.
      - now destruct (pwf_tag_not_link _ _ _ _ _ _ _ _ _ p p H Hin Hin
          (addr p + 8) (or_introl eq_refl)).
      - intros c Hc _.
        now destruct (pwf_tag_not_link _ _ _ _ _ _ _ _ _ p c H Hin Hc
          (addr p + 8) (or_introl eq_refl)). }
    rewrite Hszp. rewrite (wrap_small (hi - lo + csize p)) by lia.
    exists (unlink m (addr p)), a', (addr p), (pre ++ post).
    split; [| split; [exact Hp1 | split; [lia | split]]].
    + f_equal. f_equal. lia.
    + replace (lo - addr p) with (csize p) by lia. exact Hpm.
    + rewrite Efl', without_split; [reflexivity |].
      rewrite <- Efl'. exact (pw_nodup _ _ _ _ _ _ _ _ _ H).
  - destruct Hfl as [-> | (a' & p & -> & Eu)].
    + pose proof (pw_left _ _ _ _ _ _ _ _ _ H) as Ha. simpl in Ha. subst lo.
      apply (Hstay true 0); try reflexivity. exact Hfirst.
    + pose proof (pw_left _ _ _ _ _ _ _ _ _ H) as Ha.
      pose proof (tiles_snoc _ _ _ _ Ha) as Hp.
      assert (Hin : In p ((a' ++ [p]) ++ b)).
      { apply in_or_app. left. apply in_elt. }
      destruct (pw_tags _ _ _ _ _ _ _ _ _ H p Hin) as (_ & Ht2).
      rewrite Hp in Ht2.
      apply (Hstay (used p) (csize p)); try assumption; try reflexivity.
      now destruct (tiles_In _ _ _ _ Ha (in_elt p a' [])) as (_ & _ & _ & ?).
Qed.

Lemma without_length (h : Z) (l : list chunk) :
  (length (without h l) <= length l)%nat.
Proof.
  induction l as [| c t IH]; simpl; [lia |].
  destruct (negb (addr c =? h)); simpl; lia.
Qed.

Lemma open_used (m : mem) (a b fl : list chunk) (x : chunk) :
  wf this h0 hend m (a ++ x :: b) fl ->
  used x = true ->
  pwf this h0 hend m a (addr x) (addr x + csize x) b fl.
Proof.
  intros Hwf Hu.
  destruct (tiles_middle _ _ _ _ _ (wf_tiles _ _ _ _ _ _ Hwf)) as (Hax & Hta & Htb).
  destruct (tiles_In _ _ _ _ (wf_tiles _ _ _ _ _ _ Hwf) (in_elt x a b))
    as (_ & _ & Hs & _).
  destruct Hwf as [H1 H2 H3 H4 H5 H6 H7 H8 H9 H10 H11 H12].
  split; try assumption.
  - consts. lia.
  - intros c Hc. apply H8. apply in_app_or in Hc. apply in_or_app.
    simpl. tauto.
  - intros c. rewrite H10, !in_app_iff. simpl. split; [| tauto].
    intros ([? | [<- | ?]] & Hf); try tauto. congruence.
Qed.

Lemma deallocate_spec (fuel : nat) (m : mem) (a b fl : list chunk)
    (x : chunk) :
  wf this h0 hend m (a ++ x :: b) fl ->
  used x = true ->
  (length fl < fuel)%nat ->
  exists m',
    deallocate fuel this m (addr x + 16) = Some m' /\
    let '(a1, M, b1) := coalesce a x b in
    wf this h0 hend m' (a1 ++ M :: b1) (insert M (unlinked a b fl)).
Proof.
  intros Hwf Hu Hfuel.
  pose proof (open_used m a b fl x Hwf Hu) as Hp.
  pose proof (pwf_of_wf this h0 hend m a (x :: b) fl Hwf) as Hp0.
  pose proof (pwf_size _ _ _ _ _ _ _ _ _ x Hp0 (in_elt x a b)) as Hsz.
  destruct (pwf_In _ _ _ _ _ _ _ _ _ _ Hp0 (in_elt x a b))
    as ((Hh0 & Hx0) & Hx1 & Hend & Hx2 & _).
  assert (Hxal : csize x mod 16 = 0).
  { now destruct (tiles_In _ _ _ _ (wf_tiles _ _ _ _ _ _ Hwf) (in_elt x a b))
      as (_ & _ & _ & ?). }
  set (lo := addr x) in *. set (hi := lo + csize x) in *.
  assert (Hsz' : size m lo = hi - lo) by (unfold hi; lia).
  unfold deallocate, payloadToHeader. consts.
  replace (lo + 16 - 2 * 8) with lo by lia.
  rewrite (wrap_small lo) by lia. cbv zeta. rewrite Hsz'.
  destruct (absorb_next m a b fl lo hi Hp ltac:(unfold hi; lia) Hsz')
    as (m1 & b1 & hi1 & fl1 & E1 & Hp1 & Hhi & Hhim & Eb).
  rewrite E1.
  destruct (absorb_prev m1 a b1 fl1 lo hi1 Hp1)
    as (m2 & a2 & lo2 & fl2 & E2 & Hp2 & Hlo & Hlom & Ea).
  rewrite E2.
  assert (Hmod : (hi1 - lo2) mod 16 = 0).
  { replace (hi1 - lo2) with ((hi1 - hi) + (csize x + (lo - lo2)))
      by (unfold hi; lia).
    rewrite Z.add_mod, Hhim by lia.
    rewrite (Z.add_mod (csize x)), Hxal, Hlom by lia. reflexivity. }
  assert (Hlen : (length fl2 <= length fl)%nat).
  { assert (Hlen1 : (length fl1 <= length fl)%nat).
    { destruct (free_head b) as [[n b'] |]; inversion Eb; subst;
        [apply without_length | lia]. }
    destruct (free_last a) as [[a' p] |]; inversion Ea; subst;
      [pose proof (without_length (addr p) fl1) |]; lia. }
  destruct (fill_free this h0 hend m2 a2 b1 fl2 lo2 hi1 fuel Hp2)
    as (m' & E & Hp'); try assumption; try (unfold hi in *; lia).
  exists m'. split; [exact E |].
  apply wf_of_pwf in Hp'. rewrite <- app_assoc in Hp'. simpl in Hp'.
  unfold coalesce, unlinked. fold lo. fold hi.
  destruct (free_head b) as [[n b'] |]; destruct (free_last a) as [[a' p] |];
    inversion Eb; inversion Ea; subst; exact Hp'.
Qed.

End Deallocate.

(** * More fuel changes no result *)

Lemma link_scan_mono (m : mem) (sz : Z) :
  forall (fuel fuel' : nat) (iter r : Z),
    (fuel <= fuel')%nat ->
    link_scan fuel m sz iter = Some r -> link_scan fuel' m sz iter = Some r.
Proof.
  induction fuel as [| fuel IH]; intros fuel' iter r Hle H; [discriminate |].
  destruct fuel' as [| fuel']; [lia |]. simpl in *.
  destruct (load m iter =? 0); [exact H |].
  destruct (size m (load m iter) <? sz); [| exact H].
  apply IH; [lia | exact H].
Qed.

Lemma find_chunk_mono (m : mem) (n : Z) :
  forall (fuel fuel' : nat) (iter r : Z),
    (fuel <= fuel')%nat ->
    find_chunk fuel m n iter = Some r -> find_chunk fuel' m n iter = Some r.
Proof.
  induction fuel as [| fuel IH]; intros fuel' iter r Hle H; [discriminate |].
  destruct fuel' as [| fuel']; [lia |]. simpl in *.
  destruct (iter =? 0); [exact H |].
  destruct (n <=? size m iter); [exact H |].
  apply IH; [lia | exact H].
Qed.

Lemma link_mono (fuel fuel' : nat) (m m' : mem) (h first : Z) :
  (fuel <= fuel')%nat ->
  link fuel m h first = Some m' -> link fuel' m h first = Some m'.
Proof.
  intros Hle H. rewrite link_splice in *.
  destruct (link_scan fuel m (size m h) first) as [iter |] eqn:E;
    [| discriminate].
  now rewrite (link_scan_mono _ _ _ _ _ _ Hle E).
Qed.

Lemma allocate_mono (fuel fuel' : nat) (this : Z) (m : mem) (N : Z)
    (r : Z * mem) :
  (fuel <= fuel')%nat ->
  allocate fuel this m N = Some r -> allocate fuel' this m N = Some r.
Proof.
  intros Hle H. unfold allocate in *. cbv zeta in *.
  destruct (find_chunk fuel m (needed N) (load m this)) as [iter |] eqn:E;
    [| discriminate].
  rewrite (find_chunk_mono _ _ _ _ _ _ Hle E).
  destruct (iter =? 0); [exact H |].
  destruct (sizeof_Header <=? _); [| exact H].
  destruct (link fuel _ _ this) as [m4 |] eqn:El; [| discriminate].
  now rewrite (link_mono _ _ _ _ _ _ Hle El).
Qed.

Lemma deallocate_mono (fuel fuel' : nat) (this : Z) (m m' : mem) (p : Z) :
  (fuel <= fuel')%nat ->
  deallocate fuel this m p = Some m' -> deallocate fuel' this m p = Some m'.
Proof.
  intros Hle H. unfold deallocate in *. cbv zeta in *.
  destruct (if nextIfFree m (payloadToHeader p) =? 0 then _ else _)
    as [m1 c1].
  destruct (if prevIfFree m1 (payloadToHeader p) =? 0 then _ else _)
    as [[m2 c2] s2].
  now apply (link_mono fuel fuel').
Qed.

Lemma DlAllocator_mono (fuel fuel' : nat) (this : Z) (m m' : mem)
    (begin end_ : Z) :
  (fuel <= fuel')%nat ->
  DlAllocator fuel this m begin end_ = Some m' ->
  DlAllocator fuel' this m begin end_ = Some m'.
Proof.
  intros Hle H. unfold DlAllocator in *. cbv zeta in *.
  destruct (align_end end_ <=? align_begin begin); [exact H |].
  now apply (link_mono fuel fuel').
Qed.

(** * Regions too small for any chunk *)

Lemma allocate_tiny (this h0 : Z) (m : mem) (fuel : nat) (N : Z) :
  tiny_heap this h0 m ->
  sizeof_Header <= needed N ->
  allocate (S (S fuel)) this m N = Some (0, m).
Proof.
  intros (H0 & H1 & H2 & H3 & H4 & H5) Hn. consts.
  unfold allocate. cbv zeta. simpl find_chunk. rewrite H3.
  destruct (Z.eqb_spec h0 0); [lia |].
  rewrite H4. destruct (Z.leb_spec (needed N) 16); [lia |].
  now rewrite H5.
Qed.

Lemma allocate_tiny_ptr (this h0 : Z) (m m' : mem) (fuel : nat) (N p : Z) :
  tiny_heap this h0 m ->
  allocate fuel this m N = Some (p, m') ->
  p = 0 \/ p = h0 + 16.
Proof.
  intros (H0 & H1 & H2 & H3 & H4 & H5) H. consts.
  unfold allocate in H. cbv zeta in H.
  assert (Hf : forall r, find_chunk fuel m (needed N) (load m this) = Some r ->
                         r = 0 \/ r = h0).
  { intros r. destruct fuel as [| fuel]; [discriminate |]. simpl. rewrite H3.
    destruct (Z.eqb_spec h0 0); [lia |].
    destruct (needed N <=? size m h0); [intros [= <-]; now right |].
    rewrite H5. destruct fuel as [| fuel]; [discriminate |]. simpl.
    intros [= <-]. now left. }
  destruct (find_chunk fuel m (needed N) (load m this)) as [iter |];
    [| discriminate].
  destruct (Hf iter eq_refl) as [-> | ->].
  - simpl in H. injection H as <- _. now left.
  - destruct (Z.eqb_spec h0 0); [lia |]. right.
    assert (Hp : toPayload h0 = h0 + 16).
    { unfold toPayload. consts. apply wrap_small. lia. }
    destruct (sizeof_Header <=? _).
    + destruct (link fuel _ _ this); [| discriminate].
      injection H as <- _. exact Hp.
    + injection H as <- _. exact Hp.
Qed.

Lemma DlAllocator_tiny_spec (this : Z) (fuel : nat) (m : mem)
    (begin end_ : Z) :
  region_ok this begin end_ ->
  align_end end_ - align_begin begin = 16 ->
  exists m',
    DlAllocator (S fuel) this m begin end_ = Some m' /\
    tiny_heap this (align_begin begin - 16) m'.
Proof.
  intros Hok HT.
  destruct (region_aligned _ _ _ Hok) as ((Hb & _) & _ & He & Hbm & Hem).
  destruct Hok as (H0 & H1 & H2 & Hthis).
  unfold DlAllocator. cbv zeta.
  set (b := align_begin begin) in *. set (e := align_end end_) in *. consts.
  destruct (Z.leb_spec e b); [lia |].
  unfold payloadToHeader. consts.
  rewrite (wrap_small (b - 2 * 8)) by lia.
  rewrite (wrap_small (e - b)) by lia. rewrite HT.
  replace (b - 2 * 8) with (b - 16) by lia.
  set (h := b - 16) in *.
  rewrite setSize_free_eq by (try reflexivity; lia).
  unfold prevSize_at.
  set (m1 := store (store (store m this 0) (h + 8) 16) (h + 16) 16).
  set (m2 := store m1 h InUse).
  assert (Hnx : next m2 h = h + 16).
  { unfold next. rewrite (size_of_tag m2 h 16 false); try lia; try reflexivity.
    - apply wrap_small. lia.
    - unfold m2, m1. rewrite !load_store_other by lia. apply load_store_same. }
  rewrite Hnx. unfold thisSize_at. consts.
  rewrite (wrap_small (h + 16 + 8)) by lia.
  set (m3 := store m2 (h + 16 + 8) InUse).
  assert (Hthis0 : load m3 this = 0).
  { unfold m3, m2, m1. rewrite !load_store_other by lia. apply load_store_same. }
  rewrite link_splice. simpl link_scan. rewrite Hthis0. simpl.
  eexists. split; [reflexivity |].
  unfold splice. unwrap_at h.
  rewrite (load_store_other _ (h + 24) this) by lia. rewrite Hthis0.
  rewrite (load_store_other _ this (h + 16)) by lia.
  rewrite load_store_same. simpl.
  unfold tiny_heap. consts. unwrap_at h.
  repeat split; try lia.
  - unfold h. rewrite Zminus_mod, Hbm. reflexivity.
  - apply load_store_same.
  - apply (size_of_tag _ h 16 false); try lia; try reflexivity.
    unfold m3, m2, m1. rewrite !load_store_other by lia. apply load_store_same.
  - rewrite load_store_other by lia. apply load_store_same.
Qed.

Lemma DlAllocator_tiny (this : Z) (fuel : nat) (m m' : mem) (begin end_ : Z) :
  region_ok this begin end_ ->
  align_end end_ - align_begin begin = 16 ->
  DlAllocator fuel this m begin end_ = Some m' ->
  tiny_heap this (align_begin begin - 16) m'.
Proof.
  intros Hok HT H.
  destruct (DlAllocator_tiny_spec this fuel m begin end_ Hok HT)
    as (m'' & E & Ht).
  apply (DlAllocator_mono fuel (S fuel)) in H; [| lia].
  rewrite E in H. now injection H as <-.
Qed.

(** * Live pointers *)

Lemma live_ptrs_app (a b : list chunk) :
  live_ptrs (a ++ b) = live_ptrs a ++ live_ptrs b.
Proof. unfold live_ptrs. now rewrite filter_app, map_app. Qed.

Lemma live_ptrs_In (cs : list chunk) (q : Z) :
  In q (live_ptrs cs) <->
  exists c, In c cs /\ used c = true /\ q = addr c + 16.
Proof.
  unfold live_ptrs. rewrite in_map_iff. split.
  - intros (c & <- & Hc). apply filter_In in Hc. exists c. tauto.
  - intros (c & Hc & Hu & ->). exists c. split; [reflexivity |].
    apply filter_In. tauto.
Qed.

Lemma live_ptrs_snoc_free (a : list chunk) (p : chunk) :
  used p = false -> live_ptrs (a ++ [p]) = live_ptrs a.
Proof.
  intros Hu. rewrite live_ptrs_app. unfold live_ptrs at 2. simpl.
  rewrite Hu. simpl. apply app_nil_r.
Qed.

Lemma live_ptrs_cons (c : chunk) (b : list chunk) :
  live_ptrs (c :: b) =
  if used c then (addr c + 16) :: live_ptrs b else live_ptrs b.
Proof. unfold live_ptrs. simpl. now destruct (used c). Qed.

Lemma live_ptrs_carve (n : Z) (x : chunk) :
  live_ptrs (carve n x) = [addr x + 16].
Proof. unfold carve. now destruct (sizeof_Header <=? csize x - n). Qed.

(** The live pointers after [allocate] has taken the free chunk [x]. *)
Lemma live_ptrs_allocate (a b : list chunk) (x : chunk) (n q : Z) :
  used x = false ->
  In q (live_ptrs (a ++ carve n x ++ b)) <->
  q = addr x + 16 \/ In q (live_ptrs (a ++ x :: b)).
Proof.
  intros Hu. rewrite !live_ptrs_app, live_ptrs_carve, live_ptrs_cons, Hu.
  rewrite !in_app_iff. simpl. intuition congruence.
Qed.

(** The live pointers after [deallocate] has given back the chunk [x]. *)
Lemma live_ptrs_deallocate (a b : list chunk) (x : chunk) (h hend q : Z) :
  tiles h (a ++ x :: b) hend ->
  used x = true ->
  let '(a1, M, b1) := coalesce a x b in
  In q (live_ptrs (a1 ++ M :: b1)) <->
  In q (live_ptrs (a ++ x :: b)) /\ q <> addr x + 16.
Proof.
  intros Ht Hu.
  assert (Hne : forall c, In c a \/ In c b -> addr c + 16 <> addr x + 16).
  { intros c Hc He.
    assert (Hin : In c (a ++ x :: b)) by (apply in_or_app; simpl; tauto).
    assert (E : c = x).
    { apply (tiles_addr_inj _ _ _ _ _ Ht Hin (in_elt x a b)). lia. }
    subst c. apply tiles_app in Ht. destruct Ht as (Ha & Hb).
    simpl in Hb. destruct Hb as (Hx & Hs & _ & Hb). consts.
    destruct Hc as [Hc | Hc].
    - destruct (tiles_In _ _ _ _ Ha Hc) as (_ & ? & _). lia.
    - destruct (tiles_In _ _ _ _ Hb Hc) as (? & _). lia. }
  assert (Hnot : forall l, (forall c, In c l -> In c a \/ In c b) ->
                           In q (live_ptrs l) -> q <> addr x + 16).
  { intros l Hl Hq. apply live_ptrs_In in Hq.
    destruct Hq as (c & Hc & _ & ->). now apply Hne, Hl. }
  unfold coalesce.
  assert (Eb : live_ptrs (match free_head b with
                          | Some (_, b') => b' | None => b end)
               = live_ptrs b).
  { unfold free_head. destruct b as [| n b']; [reflexivity |].
    destruct (used n) eqn:E; [reflexivity |].
    now rewrite live_ptrs_cons, E. }
  assert (Ea : live_ptrs (match free_last a with
                          | Some (a', _) => a' | None => a end)
               = live_ptrs a).
  { pose proof (free_last_spec a) as Hs.
    destruct (free_last a) as [[a' p] |]; [| reflexivity].
    destruct Hs as (-> & E). now rewrite live_ptrs_snoc_free. }
  destruct (free_head b) as [[n b'] |]; destruct (free_last a) as [[a' p] |];
    rewrite !live_ptrs_app, !live_ptrs_cons, Hu; simpl used; cbv iota;
    rewrite ?Ea, ?Eb, !in_app_iff; simpl;
    (split; [intros [Hq | Hq]; (split; [tauto |]);
             [apply (Hnot a) | apply (Hnot b)]; tauto
            | intros ([? | [? | ?]] & ?); [tauto | congruence | tauto]]).
Qed.

Lemma find_chunk_member (m : mem) (n : Z) (l : list chunk) :
  forall (slot : Z) (fuel : nat) (r : Z),
    spaced slot l ->
    flist m slot l ->
    find_chunk fuel m n (load m slot) = Some r ->
    r = 0 \/ exists c, In c l /\ r = addr c.
Proof.
  induction l as [| c t IH]; intros slot fuel r Hsp H Hf.
  - simpl in H. rewrite H in Hf. destruct fuel; [discriminate |].
    simpl in Hf. injection Hf as <-. now left.
  - destruct H as (H1 & H2 & H3). rewrite H1 in Hf.
    destruct (spaced_tail _ _ _ Hsp) as (_ & Hsp').
    destruct fuel as [| fuel]; [discriminate |]. simpl in Hf.
    destruct (addr c =? 0); [injection Hf as <-; now left |].
    destruct (n <=? size m (addr c)).
    + injection Hf as <-. right. exists c. split; [now left | reflexivity].
    + destruct (IH _ _ _ Hsp' H3 Hf) as [-> | (c' & Hc' & ->)]; [now left |].
      right. exists c'. split; [now right | reflexivity].
Qed.

(** On a well-formed heap every pointer [allocate] returns, for whatever
    request, is the payload address of a chunk of the free list. *)
Lemma allocate_wf_ptr (this h0 hend : Z) (m m' : mem) (cs fl : list chunk)
    (fuel : nat) (N p : Z) :
  wf this h0 hend m cs fl ->
  allocate fuel this m N = Some (p, m') ->
  p = 0 \/ exists c, In c fl /\ p = addr c + 16.
Proof.
  intros Hwf H.
  pose proof (pwf_of_wf this h0 hend m [] cs fl Hwf) as Hp.
  pose proof (pwf_spaced _ _ _ _ _ _ _ _ _ Hp) as Hsp.
  unfold allocate in H. cbv zeta in H.
  destruct (find_chunk fuel m (needed N) (load m this)) as [iter |] eqn:E;
    [| discriminate].
  destruct (find_chunk_member _ _ _ _ _ _ Hsp (wf_flist _ _ _ _ _ _ Hwf) E)
    as [-> | (c & Hc & ->)].
  - simpl in H. injection H as <- _. now left.
  - right. exists c. split; [exact Hc |].
    destruct (sp_range _ _ Hsp c Hc) as (Hc0 & Hc1). consts.
    assert (Hpay : toPayload (addr c) = addr c + 16).
    { unfold toPayload. consts. apply wrap_small. lia. }
    destruct (Z.eqb_spec (addr c) 0); [lia |].
    match type of H with
    | (if ?c then _ else _) = _ => destruct c
    end.
    + destruct (link fuel _ _ this); [| discriminate].
      injection H as <- _. exact Hpay.
    + injection H as <- _. exact Hpay.
Qed.

(** * Neighbouring free chunks *)

Lemma no_adj_snoc_cons (p n : chunk) (b : list chunk) :
  forall a,
    no_adj (a ++ p :: n :: b) <->
    no_adj (a ++ [p]) /\ (used p = true \/ used n = true) /\ no_adj (n :: b).
Proof.
  induction a as [| c a IH].
  - simpl. tauto.
  - change ((c :: a) ++ p :: n :: b) with (c :: (a ++ p :: n :: b)).
    change ((c :: a) ++ [p]) with (c :: (a ++ [p])).
    cbn [no_adj]. rewrite IH.
    destruct a as [| d a]; simpl; tauto.
Qed.

Lemma no_adj_snoc (p : chunk) :
  forall a, no_adj (a ++ [p]) ->
            no_adj a /\ (used p = false -> free_last a = None).
Proof.
  intros a. pose proof (free_last_spec a) as Hs.
  destruct (free_last a) as [[a' q] |].
  - destruct Hs as (-> & Hq). rewrite <- app_assoc. simpl.
    rewrite (no_adj_snoc_cons q p [] a'). simpl.
    intros (H1 & H2 & _). split.
    + exact H1.
    + intros Hp. destruct H2; congruence.
  - destruct Hs as [-> | (a' & q & -> & Hq)]; [simpl; tauto |].
    rewrite <- app_assoc. simpl.
    rewrite (no_adj_snoc_cons q p [] a'). tauto.
Qed.

Lemma no_adj_snoc_intro (p : chunk) (a : list chunk) :
  no_adj a -> (used p = true \/ free_last a = None) -> no_adj (a ++ [p]).
Proof.
  intros Ha Hp. pose proof (free_last_spec a) as Hs.
  destruct (free_last a) as [[a' q] |].
  - destruct Hs as (-> & Hq). rewrite <- app_assoc. simpl.
    apply (no_adj_snoc_cons q p [] a'). simpl.
    destruct Hp as [Hp | Hp]; [tauto | discriminate].
  - destruct Hs as [-> | (a' & q & -> & Hq)]; [simpl; tauto |].
    rewrite <- app_assoc. simpl.
    apply (no_adj_snoc_cons q p [] a'). simpl. tauto.
Qed.

Lemma no_adj_cons (x : chunk) (b : list chunk) :
  no_adj (x :: b) <->
  no_adj b /\ (used x = true \/ free_head b = None).
Proof.
  destruct b as [| n b]; simpl; [tauto |].
  destruct (used n); intuition congruence.
Qed.

(** A chunk in the middle of the sequence. *)
Lemma no_adj_middle (a b : list chunk) (x : chunk) :
  no_adj (a ++ x :: b) <->
  no_adj a /\ no_adj b /\
  (used x = true \/ (free_last a = None /\ free_head b = None)).
Proof.
  split.
  - intros H.
    assert (H1 : no_adj (a ++ [x]) /\ no_adj (x :: b)).
    { destruct b as [| n b].
      - split; [exact H | simpl; tauto].
      - apply no_adj_snoc_cons in H. split; [tauto |].
        change (no_adj (x :: n :: b))
          with ((used x = true \/ used n = true) /\ no_adj (n :: b)).
        tauto. }
    destruct H1 as (H1 & H2).
    destruct (no_adj_snoc x a H1) as (Ha & Hl).
    apply no_adj_cons in H2. destruct H2 as (Hb & Hh).
    repeat split; try assumption.
    destruct (used x) eqn:E; [now left | right].
    split; [now apply Hl | destruct Hh; [discriminate | assumption]].
  - intros (Ha & Hb & Hx).
    assert (H1 : no_adj (a ++ [x])) by (apply no_adj_snoc_intro; tauto).
    assert (H2 : no_adj (x :: b)) by (apply no_adj_cons; tauto).
    destruct b as [| n b]; [exact H1 |].
    apply no_adj_snoc_cons. split; [exact H1 |].
    change (no_adj (x :: n :: b))
      with ((used x = true \/ used n = true) /\ no_adj (n :: b)) in H2.
    tauto.
Qed.

Lemma no_adj_allocate (a b : list chunk) (x : chunk) (n : Z) :
  used x = false ->
  no_adj (a ++ x :: b) -> no_adj (a ++ carve n x ++ b).
Proof.
  intros Hu H. apply no_adj_middle in H.
  destruct H as (Ha & Hb & [Hx | (Hl & Hh)]); [congruence |].
  unfold carve. destruct (sizeof_Header <=? csize x - n).
  - apply (no_adj_middle a (Chunk (addr x + n) (csize x - n) false :: b)
             (Chunk (addr x) n true)).
    split; [exact Ha | split; [apply no_adj_cons; tauto | left; reflexivity]].
  - apply (no_adj_middle a b (Chunk (addr x) (csize x) true)).
    split; [exact Ha | split; [exact Hb | left; reflexivity]].
Qed.

Lemma no_adj_deallocate (a b : list chunk) (x : chunk) :
  no_adj (a ++ x :: b) ->
  let '(a1, M, b1) := coalesce a x b in no_adj (a1 ++ M :: b1).
Proof.
  intros H. apply no_adj_middle in H. destruct H as (Ha & Hb & _).
  unfold coalesce.
  assert (Hb1 : forall b1, b1 = match free_head b with
                                | Some (_, b') => b' | None => b end ->
                           no_adj b1 /\ free_head b1 = None).
  { intros b1 ->. destruct b as [| n b']; [simpl; tauto |].
    simpl. destruct (used n) eqn:E.
    - split; [exact Hb | simpl; now rewrite E].
    - apply no_adj_cons in Hb. destruct Hb as (Hb & [? | ?]);
        [congruence | tauto]. }
  assert (Ha1 : forall a1, a1 = match free_last a with
                                | Some (a', _) => a' | None => a end ->
                           no_adj a1 /\ free_last a1 = None).
  { intros a1 ->. pose proof (free_last_spec a) as Hs.
    destruct (free_last a) as [[a' p] |] eqn:E; [| tauto].
    destruct Hs as (-> & Hp). apply no_adj_snoc in Ha. tauto. }
  destruct (free_head b) as [[n b'] |]; destruct (free_last a) as [[a' p] |];
    apply no_adj_middle; simpl;
    specialize (Hb1 _ eq_refl); specialize (Ha1 _ eq_refl); tauto.
Qed.

(** When nothing is in use, the region is one chunk. *)
Lemma no_adj_all_free (cs : list chunk) :
  no_adj cs -> live_ptrs cs = [] -> (length cs <= 1)%nat.
Proof.
  destruct cs as [| c [| d t]]; simpl; try lia.
  intros ([Hc | Hd] & _); rewrite !live_ptrs_cons; rewrite ?Hc.
  - discriminate.
  - destruct (used c); [discriminate |]. rewrite Hd. discriminate.
Qed.

(** * The invariant holds in every reachable state *)

Lemma nodup_remove (p : Z) (l : list Z) :
  NoDup l -> NoDup (remove Z.eq_dec p l).
Proof.
  induction 1 as [| x l Hx Hl IH]; simpl; [constructor |].
  destruct (Z.eq_dec p x); [exact IH |].
  constructor; [| exact IH]. intros Hin. apply in_remove in Hin. tauto.
Qed.

Section Reachable.

Variables (this begin end_ : Z).
Hypothesis Hregion : region_ok this begin end_.

Lemma heap_inv_new (fuel : nat) (m m' : mem) :
  DlAllocator fuel this m begin end_ = Some m' ->
  heap_inv this begin end_ m' [].
Proof.
  intros H.
  destruct (region_aligned _ _ _ Hregion) as (_ & _ & _ & Hbm & Hem).
  set (b := align_begin begin) in *. set (e := align_end end_) in *.
  destruct (Z.le_gt_cases e b) as [Hdeg | Hnd].
  - right. split; [consts; lia |]. split; [reflexivity |]. left.
    unfold DlAllocator in H. cbv zeta in H. fold b e in H.
    destruct (Z.leb_spec e b); [| lia].
    injection H as <-. apply load_store_same.
  - assert (HT : e - b = 16 \/ 32 <= e - b)
      by (Z.div_mod_to_equations; lia).
    destruct HT as [HT | HT].
    + right. split; [consts; lia |]. split; [reflexivity |]. right.
      now apply (DlAllocator_tiny this fuel m m' begin end_).
    + left. split; [consts; lia |].
      destruct (constructor_spec this fuel m begin end_ Hregion HT)
        as (m'' & E & Hwf).
      apply (DlAllocator_mono fuel (S fuel)) in H; [| lia].
      rewrite E in H. injection H as <-.
      eexists. eexists. split; [exact Hwf |]. split; [simpl; tauto |].
      split; [constructor |].
      intros p. unfold live_ptrs. simpl. tauto.
Qed.

Lemma heap_inv_allocate (fuel : nat) (m m' : mem) (live : list Z) (N p : Z) :
  heap_inv this begin end_ m live ->
  0 <= N <= max_request ->
  allocate fuel this m N = Some (p, m') ->
  heap_inv this begin end_ m' (if p =? 0 then live else p :: live).
Proof.
  intros Hinv HN H.
  destruct (needed_nowrap N HN) as (_ & Hn & _).
  destruct Hinv as [(HT & cs & fl & Hwf & Hadj & Hnd & Hlive) | (HT & -> & Hsmall)].
  - left. split; [exact HT |].
    set (F := Nat.max fuel (S (length fl))).
    apply (allocate_mono fuel F) in H; [| unfold F; lia].
    pose proof (allocate_spec _ _ _ F m cs fl N Hwf Hn ltac:(unfold F; lia))
      as Hspec.
    destruct (first_fit (needed N) fl) as [[[pre x] post] |].
    + destruct Hspec as (a & b & m'' & -> & Hu & E & Hwf').
      rewrite E in H. injection H as <- <-.
      assert (Hx : 0 < addr x).
      { destruct (tiles_In _ _ _ _ (wf_tiles _ _ _ _ _ _ Hwf) (in_elt x a b))
          as (? & _). pose proof (wf_h0 _ _ _ _ _ _ Hwf). lia. }
      destruct (Z.eqb_spec (addr x + 16) 0); [lia |].
      exists (a ++ carve (needed N) x ++ b). eexists.
      split; [exact Hwf' |]. split; [now apply no_adj_allocate |].
      split.
      { constructor; [| exact Hnd]. intros Hin.
        apply Hlive, live_ptrs_In in Hin. destruct Hin as (c & Hc & Huc & Ec).
        assert (c = x).
        { apply (tiles_addr_inj _ _ _ _ _ (wf_tiles _ _ _ _ _ _ Hwf) Hc
                   (in_elt x a b)). lia. }
        congruence. }
      intros q.
      rewrite live_ptrs_allocate by exact Hu. simpl. rewrite Hlive.
      intuition congruence.
    + rewrite Hspec in H. injection H as <- <-. simpl.
      exists cs, fl. tauto.
  - right. split; [exact HT |].
    assert (E : allocate (S (S fuel)) this m N = Some (0, m)).
    { destruct Hsmall as [H0 | Ht].
      - now apply allocate_empty.
      - now apply (allocate_tiny this _ m fuel N Ht). }
    apply (allocate_mono fuel (S (S fuel))) in H; [| lia].
    rewrite E in H. injection H as <- <-. simpl. tauto.
Qed.

Lemma heap_inv_deallocate (fuel : nat) (m m' : mem) (live : list Z) (p : Z) :
  heap_inv this begin end_ m live ->
  In p live ->
  deallocate fuel this m p = Some m' ->
  heap_inv this begin end_ m' (remove Z.eq_dec p live).
Proof.
  intros Hinv Hp H.
  destruct Hinv as [(HT & cs & fl & Hwf & Hadj & Hnd & Hlive) | (_ & -> & _)];
    [| contradiction].
  left. split; [exact HT |]. apply Hlive, live_ptrs_In in Hp.
  destruct Hp as (x & Hx & Hu & ->).
  destruct (in_split _ _ Hx) as (a & b & ->).
  set (F := Nat.max fuel (S (length fl))).
  apply (deallocate_mono fuel F) in H; [| unfold F; lia].
  destruct (deallocate_spec _ _ _ F m a b fl x Hwf Hu ltac:(unfold F; lia))
    as (m'' & E & Hwf').
  rewrite E in H. injection H as <-.
  pose proof (no_adj_deallocate a b x Hadj) as Hadj'.
  assert (Hl : forall q,
            let '(a1, M, b1) := coalesce a x b in
            In q (live_ptrs (a1 ++ M :: b1)) <->
            In q (live_ptrs (a ++ x :: b)) /\ q <> addr x + 16).
  { intros q. exact (live_ptrs_deallocate a b x _ _ q
                       (wf_tiles _ _ _ _ _ _ Hwf) Hu). }
  destruct (coalesce a x b) as [[a1 M] b1].
  exists (a1 ++ M :: b1). eexists. split; [exact Hwf' |].
  split; [exact Hadj' |]. split; [now apply nodup_remove |]. intros q. rewrite (Hl q), <- Hlive. split.
  - intros Hq. apply in_remove in Hq. tauto.
  - intros (Hq & Hne). now apply in_in_remove.
Qed.

Lemma reachable_inv (m : mem) (live : list Z) :
  reachable this begin end_ m live -> heap_inv this begin end_ m live.
Proof.
  induction 1.
  - eapply heap_inv_new; eassumption.
  - eapply heap_inv_allocate; eassumption.
  - eapply heap_inv_deallocate; eassumption.
Qed.

End Reachable.

(** * Enough fuel *)

Lemma tiles_length (cs : list chunk) :
  forall h hend, tiles h cs hend -> 32 * Z.of_nat (length cs) <= hend - h.
Proof.
  induction cs as [| c cs IH]; intros h hend H; simpl length.
  - simpl in H. lia.
  - simpl in H. destruct H as (_ & Hs & _ & H). apply IH in H. consts. lia.
Qed.

Lemma wf_lengths (this h0 hend : Z) (m : mem) (cs fl : list chunk) :
  wf this h0 hend m cs fl ->
  (length fl <= length cs)%nat /\ 32 * Z.of_nat (length cs) <= hend - h0.
Proof.
  intros Hwf. split.
  - apply NoDup_incl_length.
    + exact (NoDup_map_inv _ _ (wf_nodup _ _ _ _ _ _ Hwf)).
    + intros c Hc. now apply (wf_free _ _ _ _ _ _ Hwf) in Hc.
  - apply tiles_length. exact (wf_tiles _ _ _ _ _ _ Hwf).
Qed.

Lemma wf_enough (this begin end_ : Z) (m : mem) (cs fl : list chunk)
    (fuel : nat) :
  wf this (align_begin begin - 16) (align_end end_ - 16) m cs fl ->
  enough_fuel begin end_ fuel ->
  (length fl < fuel)%nat /\ (length cs < fuel)%nat.
Proof.
  intros Hwf Hf. destruct (wf_lengths _ _ _ _ _ _ Hwf) as (H1 & H2).
  unfold enough_fuel in Hf. consts.
  set (T := align_end end_ - align_begin begin) in *.
  replace (align_end end_ - 16 - (align_begin begin - 16)) with T in H2
    by (unfold T; lia).
  assert (Z.of_nat (length cs) <= T / (4 * 8))
    by (apply Z.div_le_lower_bound; lia).
  lia.
Qed.

Lemma enough_fuel_two (begin end_ : Z) (fuel : nat) :
  enough_fuel begin end_ fuel -> exists fuel', fuel = S (S fuel').
Proof.
  unfold enough_fuel. intros H.
  destruct fuel as [| [| fuel']]; [lia | lia | now exists fuel'].
Qed.

Section Total.

Variables (this begin end_ : Z).
Hypothesis Hregion : region_ok this begin end_.

Lemma DlAllocator_total (fuel : nat) (m : mem) :
  enough_fuel begin end_ fuel ->
  exists m', DlAllocator fuel this m begin end_ = Some m'.
Proof.
  intros Hf. destruct (enough_fuel_two _ _ _ Hf) as (fuel' & ->).
  destruct (region_aligned _ _ _ Hregion) as (_ & _ & _ & Hbm & Hem).
  destruct (Z.le_gt_cases (align_end end_) (align_begin begin)) as [Hd | Hn].
  - destruct (constructor_degenerate (S (S fuel')) 0 this m begin end_ [] Hd)
      as (m0 & E & _); [constructor |]. now exists m0.
  - assert (HT : align_end end_ - align_begin begin = 16 \/
                 32 <= align_end end_ - align_begin begin)
      by (Z.div_mod_to_equations; lia).
    destruct HT as [HT | HT].
    + destruct (DlAllocator_tiny_spec this (S fuel') m begin end_ Hregion HT)
        as (m' & E & _). now exists m'.
    + destruct (constructor_spec this (S fuel') m begin end_ Hregion HT)
        as (m' & E & _). now exists m'.
Qed.

End Total.

(** * Results exist, and the idle heap *)

Section Idle.

Variables (this begin end_ : Z).
Hypothesis Hregion : region_ok this begin end_.

Lemma allocate_total (fuel : nat) (m : mem) (live : list Z) (N : Z) :
  heap_inv this begin end_ m live ->
  0 <= N <= max_request ->
  enough_fuel begin end_ fuel ->
  exists p m', allocate fuel this m N = Some (p, m').
Proof.
  intros Hinv HN Hf.
  destruct (needed_nowrap N HN) as (_ & Hn & _).
  destruct Hinv as [(HT & cs & fl & Hwf & _) | (HT & _ & Hsmall)].
  - destruct (wf_enough _ _ _ _ _ _ _ Hwf Hf) as (Hfl & _).
    pose proof (allocate_spec _ _ _ fuel m cs fl N Hwf Hn Hfl) as Hspec.
    destruct (first_fit (needed N) fl) as [[[pre x] post] |].
    + destruct Hspec as (a & b & m' & _ & _ & E & _). eauto.
    + eauto.
  - destruct (enough_fuel_two _ _ _ Hf) as (fuel' & ->).
    exists 0, m. destruct Hsmall as [H0 | Ht].
    + now apply allocate_empty.
    + now apply (allocate_tiny this _ m fuel' N Ht).
Qed.

Lemma deallocate_total (fuel : nat) (m : mem) (live : list Z) (p : Z) :
  heap_inv this begin end_ m live ->
  In p live ->
  enough_fuel begin end_ fuel ->
  exists m', deallocate fuel this m p = Some m'.
Proof.
  intros Hinv Hp Hf.
  destruct Hinv as [(HT & cs & fl & Hwf & _ & _ & Hlive) | (_ & -> & _)];
    [| contradiction].
  destruct (wf_enough _ _ _ _ _ _ _ Hwf Hf) as (Hfl & _).
  apply Hlive, live_ptrs_In in Hp. destruct Hp as (x & Hx & Hu & ->).
  destruct (in_split _ _ Hx) as (a & b & ->).
  destruct (deallocate_spec _ _ _ fuel m a b fl x Hwf Hu Hfl) as (m' & E & _).
  now exists m'.
Qed.

(** With no live pointer the heap is again the one free chunk the
    constructor made. *)
Lemma idle_wf (m : mem) :
  heap_inv this begin end_ m [] ->
  sizeof_Header <= align_end end_ - align_begin begin ->
  let R0 := Chunk (align_begin begin - 16)
                  (align_end end_ - align_begin begin) false in
  wf this (align_begin begin - 16) (align_end end_ - 16) m [R0] [R0].
Proof.
  intros Hinv HT R0.
  destruct Hinv as [(_ & cs & fl & Hwf & Hadj & _ & Hlive) | (HT' & _)];
    [| lia].
  assert (Hl : live_ptrs cs = []).
  { destruct (live_ptrs cs) as [| q l]; [reflexivity |].
    exfalso. apply (Hlive q). now left. }
  pose proof (no_adj_all_free cs Hadj Hl) as Hlen.
  pose proof (wf_tiles _ _ _ _ _ _ Hwf) as Ht.
  destruct cs as [| c [| d t]]; [| | simpl in Hlen; lia].
  - simpl in Ht. consts. lia.
  - simpl in Ht. destruct Ht as (Ha & _ & _ & He).
    assert (Ec : c = R0).
    { rewrite live_ptrs_cons in Hl. destruct c as [ca cz cu]. simpl in *.
      unfold R0. destruct cu; [discriminate |]. f_equal; lia. }
    subst c.
    assert (Efl : fl = [R0]).
    { pose proof (wf_nodup _ _ _ _ _ _ Hwf) as Hnd.
      apply NoDup_map_inv in Hnd.
      assert (Hiff : forall x, In x fl <-> x = R0).
      { intros x. rewrite (wf_free _ _ _ _ _ _ Hwf). simpl.
        split; [intros ([<- | []] & _); reflexivity | intros ->; tauto]. }
      destruct fl as [| f1 [| f2 fl']].
      - exfalso. apply (Hiff R0). reflexivity.
      - f_equal. apply Hiff. now left.
      - exfalso. inversion Hnd as [| ? ? Hnot _]; subst. apply Hnot.
        left. rewrite (proj1 (Hiff f1)) by now left.
        apply (proj1 (Hiff f2)). right. now left. }
    now rewrite Efl in Hwf.
Qed.

End Idle.

Lemma allocate_idle (this h0 hend T : Z) (fuel : nat) (m : mem) (N : Z) :
  wf this h0 hend m [Chunk h0 T false] [Chunk h0 T false] ->
  sizeof_Header <= needed N ->
  exists m',
    allocate (S (S fuel)) this m N
    = Some (if needed N <=? T then h0 + 16 else 0, m') /\
    (needed N <= T ->
     wf this h0 hend m' (carve (needed N) (Chunk h0 T false))
        (relink (needed N) (Chunk h0 T false) [])).
Proof.
  intros Hwf Hn.
  pose proof (allocate_spec _ _ _ (S (S fuel)) m _ _ N Hwf Hn
                ltac:(simpl; lia)) as Hspec.
  simpl first_fit in Hspec.
  destruct (Z.leb_spec (needed N) T) as [Hle | Hgt].
  - destruct Hspec as (a & b & m' & Ecs & _ & E & Hwf').
    exists m'. split; [exact E |]. intros _.
    destruct a as [| c a].
    + simpl in Ecs. injection Ecs as <-.
      simpl in Hwf'. rewrite app_nil_r in Hwf'. exact Hwf'.
    + simpl in Ecs. injection Ecs as _ Ecs.
      destruct a; discriminate.
  - exists m. split; [exact Hspec | lia].
Qed.

(** * Traversals of a well-formed heap *)

Lemma free_sizes_flist (m : mem) (l : list chunk) :
  forall (slot : Z) (fuel : nat),
    spaced slot l ->
    flist m slot l ->
    (forall c, In c l -> size m (addr c) = csize c) ->
    (length l < fuel)%nat ->
    free_sizes fuel m (load m slot) = Some (map csize l).
Proof.
  induction l as [| c t IH]; intros slot fuel Hsp H Hsz Hf.
  - destruct fuel as [| fuel]; [simpl in Hf; lia |].
    simpl in *. now rewrite H.
  - destruct fuel as [| fuel]; [simpl in Hf; lia |].
    destruct H as (H1 & H2 & H3).
    destruct (spaced_head _ _ _ Hsp) as (Hc0 & Hc1 & _).
    destruct (spaced_tail _ _ _ Hsp) as (_ & Hsp').
    simpl. rewrite H1. destruct (Z.eqb_spec (addr c) 0); [lia |].
    rewrite (Hsz c (or_introl eq_refl)).
    rewrite (IH _ fuel Hsp' H3); [reflexivity | |].
    + intros c' Hc'. apply Hsz. now right.
    + simpl in Hf. lia.
Qed.

Lemma chunk_sizes_tiles (m : mem) (hend : Z) (cs : list chunk) :
  forall (h : Z) (fuel : nat),
    tiles h cs hend ->
    0 <= h -> hend < modulus ->
    (forall c, In c cs -> size m (addr c) = csize c) ->
    (length cs < fuel)%nat ->
    chunk_sizes fuel m h hend = Some (map csize cs).
Proof.
  induction cs as [| c t IH]; intros h fuel Ht H0 He Hsz Hf.
  - destruct fuel as [| fuel]; [simpl in Hf; lia |].
    simpl in *. subst. now rewrite Z.eqb_refl.
  - destruct fuel as [| fuel]; [simpl in Hf; lia |].
    simpl in Ht. destruct Ht as (Ha & Hs & _ & Ht).
    pose proof (tiles_le _ _ _ Ht) as Hle. consts.
    simpl. destruct (Z.eqb_spec h hend); [lia |].
    destruct (Z.ltb_spec hend h); [lia |].
    unfold next. rewrite <- Ha. rewrite (Hsz c (or_introl eq_refl)).
    rewrite (wrap_small (addr c + csize c)) by lia.
    rewrite Ha at 1.
    rewrite (IH (h + csize c) fuel); [reflexivity | | | | |]; try lia.
    + exact Ht.
    + intros c' Hc'. apply Hsz. now right.
    + simpl in Hf. lia.
Qed.

Section Walks.

Variables (this h0 hend : Z) (m : mem) (cs fl : list chunk).
Hypothesis Hwf : wf this h0 hend m cs fl.

Lemma wf_size (c : chunk) : In c cs -> size m (addr c) = csize c.
Proof.
  intros Hc.
  exact (pwf_size _ _ _ _ _ _ _ _ _ c (pwf_of_wf this h0 hend m [] cs fl Hwf) Hc).
Qed.

Lemma free_sizes_wf (fuel : nat) :
  (length fl < fuel)%nat ->
  free_sizes fuel m (load m this) = Some (map csize fl).
Proof.
  intros Hf. apply free_sizes_flist; try assumption.
  - exact (pwf_spaced _ _ _ _ _ _ _ _ _ (pwf_of_wf this h0 hend m [] cs fl Hwf)).
  - exact (wf_flist _ _ _ _ _ _ Hwf).
  - intros c Hc. apply wf_size. now apply (wf_free _ _ _ _ _ _ Hwf) in Hc.
Qed.

Lemma chunk_sizes_wf (fuel : nat) :
  (length cs < fuel)%nat ->
  chunk_sizes fuel m h0 hend = Some (map csize cs).
Proof.
  intros Hf. apply chunk_sizes_tiles; try assumption.
  - exact (wf_tiles _ _ _ _ _ _ Hwf).
  - pose proof (wf_h0 _ _ _ _ _ _ Hwf). lia.
  - pose proof (wf_hend _ _ _ _ _ _ Hwf). consts. lia.
  - exact wf_size.
Qed.

Lemma sum_sizes_total : sum_sizes (map csize cs) = hend - h0.
Proof.
  pose proof (tiles_total _ _ _ (wf_tiles _ _ _ _ _ _ Hwf)) as E.
  assert (H : forall l, sum_sizes (map csize l) = total_size l).
  { induction l as [| c l IH]; simpl; [reflexivity |].
    unfold sum_sizes in *. simpl. now rewrite IH. }
  rewrite H. lia.
Qed.

End Walks.

Lemma needed_of_chunk (x : Z) :
  x mod 16 = 0 -> 32 <= x -> x + 16 <= modulus -> needed (x - 16) = x.
Proof.
  intros Hm H0 H1. unfold needed. consts. cbv zeta.
  destruct (Z.leb_spec (x - 16) (2 * 8)).
  - assert (x = 32) by lia. subst x. reflexivity.
  - rewrite (wrap_small (x - 16 + 2 * 8)) by lia.
    rewrite wrap_sub_l. rewrite (wrap_small (x - 16 + 2 * 8 + 16 - 1)) by lia.
    rewrite land_neg_max_alignment by lia.
    Z.div_mod_to_equations. lia.
Qed.

(** * The first allocation in a fresh region *)

Section Fresh.

Variables (this begin end_ : Z).
Hypothesis Hregion : region_ok this begin end_.

Lemma idle_allocate (fuel : nat) (m m1 : mem) (N p : Z) :
  reachable this begin end_ m [] ->
  0 <= N <= max_request ->
  enough_fuel begin end_ fuel ->
  allocate fuel this m N = Some (p, m1) ->
  p <> 0 ->
  sizeof_Header <= align_end end_ - align_begin begin /\
  p = align_begin begin - 16 + 16 /\
  needed N <= align_end end_ - align_begin begin /\
  wf this (align_begin begin - 16) (align_end end_ - 16) m1
     (carve (needed N)
        (Chunk (align_begin begin - 16)
               (align_end end_ - align_begin begin) false))
     (relink (needed N)
        (Chunk (align_begin begin - 16)
               (align_end end_ - align_begin begin) false) []) /\
  reachable this begin end_ m1 [p].
Proof.
  intros Hr HN Hf H Hp.
  set (h0 := align_begin begin - 16).
  set (T := align_end end_ - align_begin begin).
  set (R0 := Chunk h0 T false).
  destruct (needed_nowrap N HN) as (_ & Hn & _).
  destruct (enough_fuel_two _ _ _ Hf) as (fuel' & ->).
  pose proof (reachable_inv _ _ _ Hregion _ _ Hr) as Hinv.
  assert (HT : sizeof_Header <= T).
  { destruct Hinv as [(HT & _) | (_ & _ & Hsmall)]; [exact HT |].
    exfalso. apply Hp.
    assert (E : allocate (S (S fuel')) this m N = Some (0, m)).
    { destruct Hsmall as [H0 | Ht].
      - now apply allocate_empty.
      - now apply (allocate_tiny this _ m fuel' N Ht). }
    rewrite E in H. now injection H as <- _. }
  pose proof (idle_wf _ _ _ m Hinv HT) as Hwf. cbv zeta in Hwf.
  fold h0 T R0 in Hwf.
  destruct (allocate_idle _ _ _ _ fuel' m N Hwf Hn) as (m' & E & Hwf').
  rewrite E in H. injection H as Ep <-.
  destruct (Z.leb_spec (needed N) T) as [Hle | Hgt]; [| congruence].
  pose proof (reach_allocate _ _ _ (S (S fuel')) m m' [] N (h0 + 16) Hr HN E)
    as Hr'.
  subst p. destruct (Z.eqb_spec (h0 + 16) 0); [contradiction |].
  split; [exact HT | split; [reflexivity | split; [exact Hle | split]]];
    [now apply Hwf' | exact Hr'].
Qed.

End Fresh.

(** * Two allocations in a fresh region *)

Lemma payloadToHeader_eq (h : Z) :
  0 <= h -> h + 16 < modulus -> payloadToHeader (h + 16) = h.
Proof.
  intros H0 H1. unfold payloadToHeader. consts.
  replace (h + 16 - 2 * 8) with h by lia. apply wrap_small. lia.
Qed.

Section Two.

Variables (this begin end_ : Z).
Hypothesis Hregion : region_ok this begin end_.


End Two.

(** * Wrapped requests on a region of one chunk

    A request above [max_request] needs 0 or 16 bytes.  On a heap that is
    one free chunk the code can be followed word by word. *)

Lemma needed_wrapped (N : Z) :
  max_request < N < modulus -> needed N = 0 \/ needed N = 16.
Proof.
  intros HN. unfold needed, max_request in *. consts. cbv zeta.
  destruct (Z.leb_spec N (2 * 8)); [rewrite modulus_eq in *; lia |].
  rewrite land_neg_max_alignment by apply wrap_range.
  unfold wrap. rewrite modulus_eq in *.
  Z.div_mod_to_equations. lia.
Qed.

Lemma load_store_eq (m : mem) (a b v : Z) :
  b = a -> load (store m a v) b = v.
Proof. intros ->. apply load_store_same. Qed.

Ltac mem :=
  repeat first
    [ rewrite load_store_eq by (consts; lia)
    | rewrite load_store_other by (consts; lia) ].

Lemma size_of_word (m : mem) (h v : Z) :
  0 <= h -> h + 32 <= modulus -> 0 <= v < modulus ->
  load m (h + 8) = v -> size m h = 2 * (v / 2).
Proof.
  intros H0 H1 Hv E. unfold size. unwrap_at h. rewrite E.
  now apply land_not_InUse.
Qed.

Lemma unlink_words (m : mem) (h s n : Z) :
  0 <= h -> h + 32 <= modulus ->
  load m (h + 24) = s -> load m (h + 16) = n -> s <> h + 24 ->
  unlink m h =
  if n =? 0 then store m s n
  else store (store m s n) (prevFree_at n) s.
Proof.
  intros H0 H1 Hs Hn Hne. unfold unlink. unwrap_at h. rewrite Hs, Hn.
  assert (E1 : load (store m s n) (h + 16) = n).
  { destruct (Z.eq_dec s (h + 16)) as [-> | Hd]; mem; [reflexivity | exact Hn]. }
  rewrite E1. destruct (n =? 0); [reflexivity |].
  rewrite load_store_other by lia. now rewrite Hs.
Qed.

Lemma link_empty (m : mem) (h this : Z) (fuel : nat) :
  0 <= h -> h + 32 <= modulus ->
  load m this = 0 -> this <> h + 16 -> this <> h + 24 ->
  link (S fuel) m h this =
  Some (store (store (store m (h + 24) this) (h + 16) 0) this h).
Proof.
  intros H0 H1 Ht N1 N2. rewrite link_splice. simpl link_scan. rewrite Ht.
  simpl. unfold splice. unwrap_at h.
  rewrite (load_store_other _ (h + 24) this) by lia. rewrite Ht.
  rewrite (load_store_other _ this (h + 16)) by lia.
  rewrite load_store_same. reflexivity.
Qed.

Lemma link_self (m : mem) (h this : Z) (fuel : nat) :
  0 < h -> h + 32 <= modulus ->
  load m this = h -> this <> h + 16 -> this <> h + 24 ->
  link (S fuel) m h this =
  Some (store (store (store (store m (h + 24) this) (h + 16) h) this h)
              (h + 24) (h + 16)).
Proof.
  intros H0 H1 Ht N1 N2. rewrite link_splice. simpl link_scan. rewrite Ht.
  destruct (Z.eqb_spec h 0); [lia |]. rewrite Z.ltb_irrefl.
  simpl. unfold splice. unwrap_at h.
  rewrite (load_store_other _ (h + 24) this) by lia. rewrite Ht.
  rewrite (load_store_other _ this (h + 16)) by lia.
  rewrite load_store_same.
  destruct (Z.eqb_spec h 0); [lia |]. unwrap_at h. reflexivity.
Qed.

Section OneChunk.

Variables (this h0 T : Z).
Hypothesis Hgeo : one_chunk_region this h0 T.

Lemma even_half (v : Z) : v mod 16 = 0 -> 2 * (v / 2) = v.
Proof. intros H. Z.div_mod_to_equations. lia. Qed.

Lemma toPayload_eq : toPayload h0 = h0 + 16.
Proof.
  destruct Hgeo as (G0 & G1 & G2 & G3 & G4).
  unfold toPayload. consts. apply wrap_small. lia.
Qed.

(** The search of [allocate] stops at the chunk whenever it is large
    enough; both on the plain and on the self-linked list. *)
Lemma find_first (m : mem) (fuel : nat) (n : Z) :
  load m this = h0 -> load m (h0 + 8) = T -> n <= T ->
  find_chunk (S fuel) m n (load m this) = Some h0.
Proof.
  destruct Hgeo as (G0 & G1 & G2 & G3 & G4). consts.
  intros L1 L3 Hn. simpl. rewrite L1.
  destruct (Z.eqb_spec h0 0); [lia |].
  rewrite (size_of_word m h0 T) by lia. rewrite even_half by exact G3.
  destruct (Z.leb_spec n T); [reflexivity | lia].
Qed.

(** Needed size 0: the chunk is split into nothing and itself, and goes
    back into the free list while its payload address is returned. *)
Lemma allocate_zero (m : mem) (fuel : nat) (N : Z) :
  one_free this h0 T m ->
  needed N = 0 ->
  exists m',
    allocate (S (S fuel)) this m N = Some (h0 + 16, m') /\
    one_free this h0 T m'.
Proof.
  intros (L1 & L2 & L3 & L4 & L5 & L6 & L7) Hn.
  pose proof toPayload_eq as Hpay.
  destruct Hgeo as (G0 & G1 & G2 & G3 & G4). consts.
  unfold allocate. cbv zeta. rewrite Hn.
  rewrite (find_first m (S fuel) 0 L1 L3) by lia.
  destruct (Z.eqb_spec h0 0); [lia |].
  rewrite (unlink_words m h0 this 0) by (try assumption; lia).
  simpl (if 0 =? 0 then _ else _).
  set (m1 := store m this 0).
  assert (Hs1 : size m1 h0 = T).
  { rewrite (size_of_word m1 h0 T) by (unfold m1; mem; lia).
    now apply even_half. }
  rewrite Hs1, Z.sub_0_r, (wrap_small T) by lia. consts.
  destruct (Z.leb_spec (4 * 8) T); [| lia].
  rewrite (setSize_used_eq m1 h0 0) by (try reflexivity; lia).
  change (tag 0 true) with 1. rewrite Z.add_0_r.
  set (m2 := store (store m1 (h0 + 8) 1) h0 1).
  assert (Hn2 : next m2 h0 = h0).
  { unfold next. rewrite (size_of_word m2 h0 1) by (unfold m2; mem; lia).
    change (2 * (1 / 2)) with 0. rewrite Z.add_0_r. apply wrap_small. lia. }
  rewrite Hn2.
  rewrite (setSize_free_eq m2 h0 T) by lia.
  set (m3 := store (store m2 (h0 + 8) T) (h0 + T) T).
  rewrite (link_empty m3 h0 this (S fuel)); try lia.
  - rewrite Hpay. eexists. split; [reflexivity |].
    unfold one_free, m3, m2, m1, InUse. repeat split; mem; try reflexivity;
      assumption.
  - unfold m3, m2, m1. mem. reflexivity.
Qed.

(** Giving back a pointer into the free chunk links the chunk in front of
    itself. *)
Lemma deallocate_free_chunk (m : mem) (fuel : nat) :
  one_free this h0 T m ->
  exists m',
    deallocate (S fuel) this m (h0 + 16) = Some m' /\
    self_linked this h0 T m'.
Proof.
  intros (L1 & L2 & L3 & L4 & L5 & L6 & L7).
  destruct Hgeo as (G0 & G1 & G2 & G3 & G4). consts.
  assert (Hs : size m h0 = T).
  { rewrite (size_of_word m h0 T) by lia. now apply even_half. }
  unfold deallocate. cbv zeta. rewrite payloadToHeader_eq by lia.
  assert (Hnx : nextIfFree m h0 = 0).
  { unfold nextIfFree, next. cbv zeta. rewrite Hs.
    rewrite (wrap_small (h0 + T)) by lia.
    unfold thisSize_at. consts. rewrite (wrap_small (h0 + T + 8)) by lia.
    rewrite L7. reflexivity. }
  rewrite Hnx. simpl (if 0 =? 0 then _ else _). cbv iota beta.
  assert (Hpv : prevIfFree m h0 = 0).
  { unfold prevIfFree, prevSize_at. rewrite L2. reflexivity. }
  rewrite Hpv. simpl (if 0 =? 0 then _ else _). cbv iota beta. rewrite Hs.
  rewrite (setSize_free_eq m h0 T) by lia.
  set (m3 := store (store m (h0 + 8) T) (h0 + T) T).
  rewrite (link_self m3 h0 this fuel); try lia.
  - eexists. split; [reflexivity |].
    unfold self_linked, m3, InUse. repeat split; mem; try reflexivity;
      assumption.
  - unfold m3. mem. exact L1.
Qed.

(** On the self-linked list a request that needs 0 bytes gets the same
    address again. *)
Lemma allocate_zero_self_linked (m : mem) (fuel : nat) (N : Z) :
  self_linked this h0 T m ->
  needed N = 0 ->
  exists m', allocate (S (S fuel)) this m N = Some (h0 + 16, m').
Proof.
  intros (L1 & L2 & L3 & L4 & L5 & L6 & L7) Hn.
  pose proof toPayload_eq as Hpay.
  destruct Hgeo as (G0 & G1 & G2 & G3 & G4). consts.
  unfold allocate. cbv zeta. rewrite Hn.
  rewrite (find_first m (S fuel) 0 L1 L3) by lia.
  destruct (Z.eqb_spec h0 0); [lia |].
  rewrite (unlink_words m h0 (h0 + 16) h0) by (try assumption; lia).
  destruct (Z.eqb_spec h0 0); [lia |]. unwrap_at h0.
  set (m1 := store (store m (h0 + 16) h0) (h0 + 24) (h0 + 16)).
  assert (Hs1 : size m1 h0 = T).
  { rewrite (size_of_word m1 h0 T) by (unfold m1; mem; lia).
    now apply even_half. }
  rewrite Hs1, Z.sub_0_r, (wrap_small T) by lia. consts.
  destruct (Z.leb_spec (4 * 8) T); [| lia].
  rewrite (setSize_used_eq m1 h0 0) by (try reflexivity; lia).
  change (tag 0 true) with 1. rewrite Z.add_0_r.
  set (m2 := store (store m1 (h0 + 8) 1) h0 1).
  assert (Hn2 : next m2 h0 = h0).
  { unfold next. rewrite (size_of_word m2 h0 1) by (unfold m2; mem; lia).
    change (2 * (1 / 2)) with 0. rewrite Z.add_0_r. apply wrap_small. lia. }
  rewrite Hn2.
  rewrite (setSize_free_eq m2 h0 T) by lia.
  set (m3 := store (store m2 (h0 + 8) T) (h0 + T) T).
  rewrite (link_self m3 h0 this (S fuel)); try lia.
  - rewrite Hpay. eexists. reflexivity.
  - unfold m3, m2, m1. mem. exact L1.
Qed.

(** Needed size 16 in a region of at least 48 bytes: a used chunk of 16
    bytes is split off. *)
Lemma allocate_sixteen (m : mem) (fuel : nat) (N : Z) :
  one_free this h0 T m ->
  needed N = 16 -> 48 <= T ->
  exists m',
    allocate (S (S fuel)) this m N = Some (h0 + 16, m') /\
    front16 this h0 T m'.
Proof.
  intros (L1 & L2 & L3 & L4 & L5 & L6 & L7) Hn HT.
  pose proof toPayload_eq as Hpay.
  destruct Hgeo as (G0 & G1 & G2 & G3 & G4). consts.
  unfold allocate. cbv zeta. rewrite Hn.
  rewrite (find_first m (S fuel) 16 L1 L3) by lia.
  destruct (Z.eqb_spec h0 0); [lia |].
  rewrite (unlink_words m h0 this 0) by (try assumption; lia).
  simpl (if 0 =? 0 then _ else _).
  set (m1 := store m this 0).
  assert (Hs1 : size m1 h0 = T).
  { rewrite (size_of_word m1 h0 T) by (unfold m1; mem; lia).
    now apply even_half. }
  rewrite Hs1, (wrap_small (T - 16)) by lia. consts.
  destruct (Z.leb_spec (4 * 8) (T - 16)); [| lia].
  rewrite (setSize_used_eq m1 h0 16) by (try reflexivity; lia).
  change (tag 16 true) with 17.
  set (m2 := store (store m1 (h0 + 8) 17) (h0 + 16) 17).
  assert (Hn2 : next m2 h0 = h0 + 16).
  { unfold next. rewrite (size_of_word m2 h0 17) by (unfold m2; mem; lia).
    change (2 * (17 / 2)) with 16. apply wrap_small. lia. }
  rewrite Hn2.
  assert (HmT : (T - 16) mod 16 = 0) by (Z.div_mod_to_equations; lia).
  rewrite (setSize_free_eq m2 (h0 + 16) (T - 16)) by lia.
  set (m3 := store (store m2 (h0 + 16 + 8) (T - 16))
                   (h0 + 16 + (T - 16)) (T - 16)).
  rewrite (link_empty m3 (h0 + 16) this (S fuel)); try lia.
  - rewrite Hpay. eexists. split; [reflexivity |].
    unfold front16, m3, m2, m1, InUse. repeat split; mem; try reflexivity;
      assumption.
  - unfold m3, m2, m1. mem. reflexivity.
Qed.

Lemma deallocate_front16 (m : mem) (fuel : nat) :
  front16 this h0 T m ->
  48 <= T ->
  exists m',
    deallocate (S fuel) this m (h0 + 16) = Some m' /\
    one_free this h0 T m'.
Proof.
  intros (L1 & L2 & L3 & L4 & L5 & L6 & L7 & L8) HT.
  destruct Hgeo as (G0 & G1 & G2 & G3 & G4). consts.
  assert (HmT : (T - 16) mod 16 = 0) by (Z.div_mod_to_equations; lia).
  assert (Hs : size m h0 = 16).
  { rewrite (size_of_word m h0 17) by lia. reflexivity. }
  unfold deallocate. cbv zeta. rewrite payloadToHeader_eq by lia.
  assert (Hnx : nextIfFree m h0 = h0 + 16).
  { unfold nextIfFree, next. cbv zeta. rewrite Hs.
    rewrite (wrap_small (h0 + 16)) by lia.
    unfold thisSize_at. consts. rewrite (wrap_small (h0 + 16 + 8)) by lia.
    replace (h0 + 16 + 8) with (h0 + 24) by lia. rewrite L4.
    rewrite land_InUse.
    replace ((T - 16) mod 2) with 0 by (Z.div_mod_to_equations; lia).
    reflexivity. }
  rewrite Hnx. destruct (Z.eqb_spec (h0 + 16) 0); [lia |].
  rewrite (unlink_words m (h0 + 16) this 0); try lia.
  2:{ now replace (h0 + 16 + 24) with (h0 + 40) by lia. }
  2:{ now replace (h0 + 16 + 16) with (h0 + 32) by lia. }
  simpl (if 0 =? 0 then _ else _). cbv iota beta.
  set (m1 := store m this 0).
  assert (Hs1 : size m1 (h0 + 16) = T - 16).
  { rewrite (size_of_word m1 (h0 + 16) (T - 16)); try lia.
    - now apply even_half.
    - unfold m1. mem. replace (h0 + 16 + 8) with (h0 + 24) by lia. exact L4. }
  rewrite Hs, Hs1. replace (16 + (T - 16)) with T by lia.
  rewrite (wrap_small T) by lia.
  assert (Hpv : prevIfFree m1 h0 = 0).
  { unfold prevIfFree, prevSize_at. unfold m1. mem. rewrite L2. reflexivity. }
  rewrite Hpv. simpl (if 0 =? 0 then _ else _). cbv iota beta.
  rewrite (setSize_free_eq m1 h0 T) by lia.
  set (m3 := store (store m1 (h0 + 8) T) (h0 + T) T).
  rewrite (link_empty m3 h0 this fuel); try lia.
  - eexists. split; [reflexivity |].
    unfold one_free, m3, m1, InUse. repeat split; mem; try reflexivity;
      assumption.
  - unfold m3, m1. mem. reflexivity.
Qed.

(** Needed size 16 in a region of 32 bytes: the whole chunk is used. *)
Lemma allocate_sixteen_whole (m : mem) (fuel : nat) (N : Z) :
  one_free this h0 T m ->
  needed N = 16 -> T = 32 ->
  exists m',
    allocate (S (S fuel)) this m N = Some (h0 + 16, m') /\
    all_used this h0 T m'.
Proof.
  intros (L1 & L2 & L3 & L4 & L5 & L6 & L7) Hn HT.
  pose proof toPayload_eq as Hpay.
  destruct Hgeo as (G0 & G1 & G2 & G3 & G4). consts.
  unfold allocate. cbv zeta. rewrite Hn.
  rewrite (find_first m (S fuel) 16 L1 L3) by lia.
  destruct (Z.eqb_spec h0 0); [lia |].
  rewrite (unlink_words m h0 this 0) by (try assumption; lia).
  simpl (if 0 =? 0 then _ else _).
  set (m1 := store m this 0).
  assert (Hs1 : size m1 h0 = T).
  { rewrite (size_of_word m1 h0 T) by (unfold m1; mem; lia).
    now apply even_half. }
  rewrite Hs1, (wrap_small (T - 16)) by lia. consts.
  destruct (Z.leb_spec (4 * 8) (T - 16)); [lia |].
  rewrite (setSize_used_eq m1 h0 T) by lia.
  rewrite tag_value by now apply aligned_even.
  rewrite Hpay. eexists. split; [reflexivity |].
  unfold all_used, m1, InUse. repeat split; mem; try reflexivity; assumption.
Qed.

Lemma deallocate_all_used (m : mem) (fuel : nat) :
  all_used this h0 T m ->
  exists m',
    deallocate (S fuel) this m (h0 + 16) = Some m' /\
    one_free this h0 T m'.
Proof.
  intros (L1 & L2 & L3 & L4 & L5).
  destruct Hgeo as (G0 & G1 & G2 & G3 & G4). consts.
  assert (Hs : size m h0 = T).
  { rewrite (size_of_word m h0 (T + 1)) by lia.
    Z.div_mod_to_equations. lia. }
  unfold deallocate. cbv zeta. rewrite payloadToHeader_eq by lia.
  assert (Hnx : nextIfFree m h0 = 0).
  { unfold nextIfFree, next. cbv zeta. rewrite Hs.
    rewrite (wrap_small (h0 + T)) by lia.
    unfold thisSize_at. consts. rewrite (wrap_small (h0 + T + 8)) by lia.
    rewrite L5. reflexivity. }
  rewrite Hnx. simpl (if 0 =? 0 then _ else _). cbv iota beta.
  assert (Hpv : prevIfFree m h0 = 0).
  { unfold prevIfFree, prevSize_at. rewrite L2. reflexivity. }
  rewrite Hpv. simpl (if 0 =? 0 then _ else _). cbv iota beta. rewrite Hs.
  rewrite (setSize_free_eq m h0 T) by lia.
  set (m3 := store (store m (h0 + 8) T) (h0 + T) T).
  rewrite (link_empty m3 h0 this fuel); try lia.
  - eexists. split; [reflexivity |].
    unfold one_free, m3, InUse. repeat split; mem; try reflexivity;
      assumption.
  - unfold m3. mem. exact L1.
Qed.

(** The round trip of a wrapped request. *)
Lemma round_trip_wrapped (m : mem) (fuel : nat) (N p : Z) (m1 : mem) :
  one_free this h0 T m ->
  max_request < N < modulus ->
  allocate (S (S fuel)) this m N = Some (p, m1) ->
  exists m2 m3,
    deallocate (S (S fuel)) this m1 p = Some m2 /\
    allocate (S (S fuel)) this m2 N = Some (p, m3).
Proof.
  intros Hone HN Ha.
  pose proof Hgeo as (G0 & G1 & G2 & G3 & G4). consts.
  destruct (needed_wrapped N HN) as [Hn | Hn].
  - destruct (allocate_zero m fuel N Hone Hn) as (m1' & E1 & H1).
    rewrite E1 in Ha. injection Ha as <- <-.
    destruct (deallocate_free_chunk m1' (S fuel) H1) as (m2 & E2 & H2).
    destruct (allocate_zero_self_linked m2 fuel N H2 Hn) as (m3 & E3).
    now exists m2, m3.
  - assert (HT : T = 32 \/ 48 <= T) by (Z.div_mod_to_equations; lia).
    destruct HT as [HT | HT].
    + destruct (allocate_sixteen_whole m fuel N Hone Hn HT) as (m1' & E1 & H1).
      rewrite E1 in Ha. injection Ha as <- <-.
      destruct (deallocate_all_used m1' (S fuel) H1) as (m2 & E2 & H2).
      destruct (allocate_sixteen_whole m2 fuel N H2 Hn HT) as (m3 & E3 & _).
      now exists m2, m3.
    + destruct (allocate_sixteen m fuel N Hone Hn HT) as (m1' & E1 & H1).
      rewrite E1 in Ha. injection Ha as <- <-.
      destruct (deallocate_front16 m1' (S fuel) H1 HT) as (m2 & E2 & H2).
      destruct (allocate_sixteen m2 fuel N H2 Hn HT) as (m3 & E3 & _).
      now exists m2, m3.
Qed.

End OneChunk.

Lemma wf_one_free (this h0 hend T : Z) (m : mem) :
  wf this h0 hend m [Chunk h0 T false] [Chunk h0 T false] ->
  one_chunk_region this h0 T /\ one_free this h0 T m.
Proof.
  intros Hwf.
  pose proof (wf_tiles _ _ _ _ _ _ Hwf) as Ht. simpl in Ht.
  destruct Ht as (_ & Hs & Hm & He).
  pose proof (wf_h0 _ _ _ _ _ _ Hwf) as H0.
  pose proof (wf_hend _ _ _ _ _ _ Hwf) as H1.
  pose proof (wf_this _ _ _ _ _ _ Hwf) as H2.
  pose proof (wf_first _ _ _ _ _ _ Hwf) as H3.
  pose proof (wf_last _ _ _ _ _ _ Hwf) as H4.
  destruct (wf_tags _ _ _ _ _ _ Hwf (Chunk h0 T false)) as (H5 & H6);
    [simpl; tauto |].
  pose proof (wf_flist _ _ _ _ _ _ Hwf) as (H7 & H8 & H9).
  simpl in H5, H6, H7, H8, H9.
  consts. subst hend.
  rewrite prevFree_at_eq in H8 by lia.
  rewrite nextFree_at_eq in H9 by lia.
  split.
  - unfold one_chunk_region. consts. repeat split; lia.
  - unfold one_free. repeat split; assumption.
Qed.

(** * The round trip on a fresh allocator

    For requests that do not wrap the heap after [deallocate] is again the
    single free chunk of the constructor.  A wrapped request on an
    interior of at least one header is followed word by word
    ([round_trip_wrapped]).  What is left out is a wrapped request on an
    interior of 16 bytes. *)

Lemma round_trip_regular (this begin end_ : Z) (fuel : nat) (m m0 m1 : mem)
    (S p : Z) :
  region_ok this begin end_ ->
  0 <= S < modulus ->
  S <= max_request \/ sizeof_Header <= align_end end_ - align_begin begin ->
  enough_fuel begin end_ fuel ->
  DlAllocator fuel this m begin end_ = Some m0 ->
  allocate fuel this m0 S = Some (p, m1) ->
  p <> 0 ->
  exists m2 m3,
    deallocate fuel this m1 p = Some m2 /\
    allocate fuel this m2 S = Some (p, m3).
Proof.
  intros Hok HS Hcase Hf Hc Ha Hp.
  destruct (Z.le_gt_cases S max_request) as [Hle | Hgt].
  - assert (HS' : 0 <= S <= max_request) by lia.
    destruct (needed_nowrap S HS') as (_ & Hn & _).
    pose proof (reach_new _ _ _ fuel m m0 Hc) as Hr0.
    destruct (idle_allocate _ _ _ Hok fuel m0 m1 S p Hr0 HS' Hf Ha Hp)
      as (HT & Ep & HnT & _ & Hr1).
    destruct (deallocate_total _ _ _ fuel m1 [p] p
                (reachable_inv _ _ _ Hok _ _ Hr1) (or_introl eq_refl) Hf)
      as (m2 & Ed).
    pose proof (reach_deallocate _ _ _ fuel m1 m2 [p] p Hr1
                  (or_introl eq_refl) Ed) as Hr2.
    simpl in Hr2. destruct (Z.eq_dec p p); [| contradiction].
    pose proof (idle_wf _ _ _ m2 (reachable_inv _ _ _ Hok _ _ Hr2) HT)
      as Hwf2.
    cbv zeta in Hwf2.
    destruct (enough_fuel_two _ _ _ Hf) as (fuel' & ->).
    destruct (allocate_idle _ _ _ _ fuel' m2 S Hwf2 Hn) as (m3 & E3 & _).
    exists m2, m3. split; [exact Ed |]. rewrite E3.
    destruct (Z.leb_spec (needed S)
                (align_end end_ - align_begin begin)); [| lia].
    now rewrite Ep.
  - destruct Hcase as [Hle | HT]; [lia |].
    destruct (enough_fuel_two _ _ _ Hf) as (fuel' & ->).
    destruct (constructor_spec this (Datatypes.S fuel') m begin end_ Hok HT)
      as (m0' & Ec & Hwf).
    rewrite Ec in Hc. injection Hc as ->.
    destruct (wf_one_free _ _ _ _ _ Hwf) as (Hgeo & Hone).
    apply (round_trip_wrapped _ _ _ Hgeo m0 fuel' S p m1 Hone); [lia | exact Ha].
Qed.

(** * What holds as long as no request wraps

    In the states of [reachable] the three properties that a wrapped
    request breaks do hold. *)

Lemma sorted_sizes (l : list chunk) :
  StronglySorted by_size l -> StronglySorted Z.le (map csize l).
Proof.
  induction 1 as [| c l Hs IH Hc]; simpl; constructor; [exact IH |].
  rewrite Forall_forall in *. intros z Hz. apply in_map_iff in Hz.
  destruct Hz as (d & <- & Hd). now apply Hc.
Qed.

Section Positive.

Variables (this begin end_ : Z).
Hypothesis Hregion : region_ok this begin end_.

(** A block is at least as large as the request. *)
Lemma reachable_usable (fuel : nat) (m m' : mem) (live : list Z) (N p : Z) :
  reachable this begin end_ m live ->
  0 <= N <= max_request ->
  allocate fuel this m N = Some (p, m') ->
  p <> 0 ->
  N <= usable m' p.
Proof.
  intros Hr HN H Hp.
  destruct (needed_nowrap N HN) as (HnN & Hn & _).
  destruct (reachable_inv _ _ _ Hregion _ _ Hr)
    as [(_ & cs & fl & Hwf & _) | (_ & _ & Hsmall)].
  - set (F := Nat.max fuel (S (length fl))).
    apply (allocate_mono fuel F) in H; [| unfold F; lia].
    pose proof (allocate_spec _ _ _ F m cs fl N Hwf Hn ltac:(unfold F; lia))
      as Hspec.
    pose proof (first_fit_spec (needed N) fl) as Hff.
    destruct (first_fit (needed N) fl) as [[[pre x] post] |].
    + destruct Hspec as (a & b & m'' & -> & Hu & E & Hwf').
      destruct Hff as (_ & Hxn & _).
      rewrite E in H. injection H as <- <-.
      destruct (tiles_In _ _ _ _ (wf_tiles _ _ _ _ _ _ Hwf) (in_elt x a b))
        as (Hx0 & Hx1 & Hx2 & _).
      pose proof (wf_h0 _ _ _ _ _ _ Hwf) as Hh0.
      pose proof (wf_hend _ _ _ _ _ _ Hwf) as Hhend. consts.
      assert (Hs : exists s, needed N <= s <= csize x /\
                             In (Chunk (addr x) s true) (carve (needed N) x)).
      { unfold carve. destruct (sizeof_Header <=? csize x - needed N).
        - exists (needed N). split; [lia | simpl; tauto].
        - exists (csize x). split; [lia | simpl; tauto]. }
      destruct Hs as (s & Hsr & Hin).
      unfold usable. rewrite payloadToHeader_eq by lia.
      unfold next.
      assert (Hsz : size m'' (addr x) = s).
      { apply (wf_size _ _ _ _ _ _ Hwf' (Chunk (addr x) s true)).
        apply in_or_app. right. apply in_or_app. now left. }
      rewrite Hsz, wrap_small by lia. lia.
    + rewrite Hspec in H. injection H as <- _. contradiction.
  - exfalso. apply Hp.
    assert (E : allocate (S (S fuel)) this m N = Some (0, m)).
    { destruct Hsmall as [H0 | Ht].
      - now apply allocate_empty.
      - now apply (allocate_tiny this _ m fuel N Ht). }
    apply (allocate_mono fuel (S (S fuel))) in H; [| lia].
    rewrite E in H. now injection H as <- _.
Qed.

(** The chunks tile the interior. *)
Lemma reachable_conservation (fuel : nat) (m : mem) (live : list Z) :
  reachable this begin end_ m live ->
  sizeof_Header <= align_end end_ - align_begin begin ->
  enough_fuel begin end_ fuel ->
  exists sizes,
    chunk_sizes fuel m (align_begin begin - 16) (align_end end_ - 16)
      = Some sizes /\
    sum_sizes sizes = align_end end_ - align_begin begin.
Proof.
  intros Hr HT Hf.
  destruct (reachable_inv _ _ _ Hregion _ _ Hr)
    as [(_ & cs & fl & Hwf & _) | (HT' & _)]; [| lia].
  destruct (wf_enough _ _ _ _ _ _ _ Hwf Hf) as (_ & Hcs).
  exists (map csize cs). split.
  - now apply (chunk_sizes_wf _ _ _ _ _ _ Hwf).
  - rewrite (sum_sizes_total _ _ _ _ _ _ Hwf). lia.
Qed.

(** The free list is sorted. *)
Lemma reachable_sorted (fuel : nat) (m : mem) (live : list Z) :
  reachable this begin end_ m live ->
  enough_fuel begin end_ fuel ->
  exists sizes,
    free_sizes fuel m (load m this) = Some sizes /\
    StronglySorted Z.le sizes.
Proof.
  intros Hr Hf.
  destruct (reachable_inv _ _ _ Hregion _ _ Hr)
    as [(_ & cs & fl & Hwf & _) | (_ & _ & [H0 | Ht])].
  - destruct (wf_enough _ _ _ _ _ _ _ Hwf Hf) as (Hfl & _).
    exists (map csize fl). split.
    + now apply (free_sizes_wf _ _ _ _ _ _ Hwf).
    + apply sorted_sizes. exact (wf_sorted _ _ _ _ _ _ Hwf).
  - destruct (enough_fuel_two _ _ _ Hf) as (fuel' & ->).
    exists []. split; [simpl; now rewrite H0 | constructor].
  - destruct (enough_fuel_two _ _ _ Hf) as (fuel' & ->).
    destruct Ht as (H0 & H1 & H2 & H3 & H4 & H5).
    exists [16]. split.
    + simpl. rewrite H3. destruct (Z.eqb_spec (align_begin begin - 16) 0);
        [lia |]. rewrite H4, H5. reflexivity.
    + repeat constructor.
Qed.

End Positive.

(** * The concrete region *)

Lemma demo_region_ok : region_ok demo_this demo_begin demo_end.
Proof. unfold region_ok. vm_compute. repeat split; try congruence. right. split; congruence. Qed.

Lemma demo_fresh_eq :
  DlAllocator 2 demo_this zero_mem demo_begin demo_end = Some demo_fresh.
Proof.
  unfold demo_fresh.
  destruct (constructor_spec demo_this 1 zero_mem demo_begin demo_end
              demo_region_ok) as (m' & E & _).
  - vm_compute. congruence.
  - now rewrite E.
Qed.

Lemma demo_fresh_wf :
  wf demo_this 4096 4224 demo_fresh
     [Chunk 4096 128 false] [Chunk 4096 128 false].
Proof.
  destruct (constructor_spec demo_this 1 zero_mem demo_begin demo_end
              demo_region_ok) as (m' & E & Hwf).
  - vm_compute. congruence.
  - rewrite demo_fresh_eq in E. injection E as <-. exact Hwf.
Qed.

Lemma demo_reachable : reachable demo_this demo_begin demo_end demo_fresh [].
Proof. exact (reach_new _ _ _ 2 zero_mem demo_fresh demo_fresh_eq). Qed.

(** * The header operations on their own *)

(** ** Payload and header addresses *)

Lemma toPayload_payloadToHeader (p : Z) :
  0 <= p < modulus -> toPayload (payloadToHeader p) = p.
Proof.
  intros Hp. unfold toPayload, payloadToHeader.
  rewrite wrap_add_l.
  replace (p - 2 * sizeof_size_type + 2 * sizeof_size_type) with p by lia.
  now apply wrap_small.
Qed.

Lemma payloadToHeader_toPayload (h : Z) :
  0 <= h < modulus -> payloadToHeader (toPayload h) = h.
Proof.
  intros Hh. unfold toPayload, payloadToHeader.
  rewrite wrap_sub_l.
  replace (h + 2 * sizeof_size_type - 2 * sizeof_size_type) with h by lia.
  now apply wrap_small.
Qed.

(** ** Writing and reading a size

    Both overloads of [setSize] store the same word twice, so the size
    field of the chunk reads back whatever the second store hits. *)

Lemma land_not_InUse_tag (s : Z) (u : bool) :
  0 <= s < modulus -> s mod 2 = 0 -> Z.land (tag s u) not_InUse = s.
Proof.
  intros Hs He.
  assert (Hr : 0 <= tag s u < modulus).
  { rewrite tag_value by exact He. unfold modulus in *.
    destruct u; [| lia]. Z.div_mod_to_equations. lia. }
  rewrite land_not_InUse by exact Hr.
  rewrite tag_value by exact He.
  destruct u; Z.div_mod_to_equations; lia.
Qed.

Lemma setSize_word (m : mem) (h v : Z) :
  let m1 := store m (thisSize_at h) v in
  let m' := store m1 (prevSize_at (next m1 h)) v in
  load m' (thisSize_at h) = v /\ load m' (prevSize_at (next m1 h)) = v.
Proof.
  cbv zeta. split; [| apply load_store_same].
  unfold load, store.
  destruct (Z.eqb_spec (thisSize_at h)
              (prevSize_at (next (fun x => if x =? thisSize_at h then v else m x) h)));
    [reflexivity |].
  now rewrite Z.eqb_refl.
Qed.

Lemma setSize_read (m : mem) (h s : Z) (u : bool) :
  0 <= s < modulus -> s mod 2 = 0 ->
  let m' := if u then setSize_used m h s else setSize_free m h s in
  size m' h = s /\
  Z.land (load m' (thisSize_at h)) InUse = (if u then 1 else 0) /\
  previousSize m' (next m' h) = s /\
  Z.land (load m' (prevSize_at (next m' h))) InUse = (if u then 1 else 0).
Proof.
  intros Hs He. cbv zeta.
  assert (Hgen : forall v, v = tag s u ->
    let m1 := store m (thisSize_at h) v in
    let m' := store m1 (prevSize_at (next m1 h)) v in
    size m' h = s /\
    Z.land (load m' (thisSize_at h)) InUse = (if u then 1 else 0) /\
    previousSize m' (next m' h) = s /\
    Z.land (load m' (prevSize_at (next m' h))) InUse = (if u then 1 else 0)).
  { intros v -> m1 m'.
    destruct (setSize_word m h (tag s u)) as (L1 & L2). fold m1 m' in L1, L2.
    assert (S1 : size m1 h = s).
    { unfold size, m1. rewrite load_store_same.
      now apply land_not_InUse_tag. }
    assert (S' : size m' h = s).
    { unfold size. rewrite L1. now apply land_not_InUse_tag. }
    assert (N' : next m' h = next m1 h).
    { unfold next. now rewrite S1, S'. }
    rewrite N'. unfold previousSize. rewrite L1, L2.
    rewrite tag_flag by exact He.
    rewrite land_not_InUse_tag by assumption. tauto. }
  destruct u.
  - exact (Hgen (Z.lor s InUse) eq_refl).
  - exact (Hgen s eq_refl).
Qed.

(** ** The needed size in closed form *)

Lemma needed_closed (N : Z) :
  0 <= N < modulus ->
  needed N =
  if N <=? max_request then 16 * ((Z.max N 16 + 31) / 16)
  else if N <=? modulus - 16 then 0 else 16.
Proof.
  intros HN. unfold needed. cbv zeta.
  replace (if N <=? minimum_alloc_size then minimum_alloc_size else N)
    with (Z.max N 16)
    by (unfold minimum_alloc_size, sizeof_size_type;
        destruct (Z.leb_spec N (2 * 8)); lia).
  rewrite wrap_sub_l.
  rewrite land_neg_max_alignment by apply wrap_range.
  unfold wrap, max_request, max_alignment, sizeof_size_type.
  unfold modulus in *.
  set (c := Z.max N 16).
  assert (Hc : 16 <= c < 2 ^ 64 /\ N <= c /\ (c = N \/ c = 16))
    by (unfold c; lia).
  clearbody c.
  destruct (Z.leb_spec N (2 ^ 64 - 32)).
  - Z.div_mod_to_equations. lia.
  - destruct (Z.leb_spec N (2 ^ 64 - 16)); Z.div_mod_to_equations; lia.
Qed.

(** * Finding the neighbours of a chunk

    On a well-formed heap the boundary tags and the two sentinels make
    [nextIfFree] and [prevIfFree] exact. *)

Section Neighbours.

Variables (this h0 hend : Z).

Lemma nextIfFree_wf (m : mem) (a b fl : list chunk) (x : chunk) :
  wf this h0 hend m (a ++ x :: b) fl ->
  nextIfFree m (addr x) =
  match free_head b with Some (n, _) => addr n | None => 0 end.
Proof.
  intros Hwf.
  pose proof (pwf_of_wf this h0 hend m a (x :: b) fl Hwf) as Hp.
  pose proof (pwf_size _ _ _ _ _ _ _ _ _ x Hp (in_elt x a b)) as Hsz.
  destruct (pwf_In _ _ _ _ _ _ _ _ _ _ Hp (in_elt x a b))
    as ((Hh0 & Hx0) & Hx1 & Hend & Hx2 & _).
  destruct (tiles_middle _ _ _ _ _ (wf_tiles _ _ _ _ _ _ Hwf))
    as (_ & _ & Htb).
  pose proof (wf_last _ _ _ _ _ _ Hwf) as Hlast. consts.
  unfold nextIfFree, next. cbv zeta. rewrite Hsz.
  rewrite (wrap_small (addr x + csize x)) by lia.
  unfold thisSize_at. consts.
  rewrite (wrap_small (addr x + csize x + 8)) by lia.
  destruct b as [| n b'].
  - simpl in Htb. rewrite Htb, Hlast. reflexivity.
  - simpl in Htb. destruct Htb as (Hn & _ & Hnm & _).
    destruct (wf_tags _ _ _ _ _ _ Hwf n) as (Ht & _).
    { apply in_or_app. right. simpl. tauto. }
    consts. rewrite <- Hn, Ht.
    rewrite tag_flag by now apply aligned_even.
    simpl. destruct (used n); reflexivity.
Qed.

Lemma prevIfFree_wf (m : mem) (a b fl : list chunk) (x : chunk) :
  wf this h0 hend m (a ++ x :: b) fl ->
  prevIfFree m (addr x) =
  match free_last a with Some (_, p) => addr p | None => 0 end.
Proof.
  intros Hwf.
  destruct (tiles_middle _ _ _ _ _ (wf_tiles _ _ _ _ _ _ Hwf))
    as (_ & Hta & _).
  pose proof (wf_first _ _ _ _ _ _ Hwf) as Hfirst.
  pose proof (wf_h0 _ _ _ _ _ _ Hwf) as Hh0.
  pose proof (wf_hend _ _ _ _ _ _ Hwf) as Hhend.
  unfold prevIfFree, previousSize, prevSize_at.
  assert (Hlast : forall a' p, a = a' ++ [p] ->
            load m (addr x) = tag (csize p) (used p) /\
            addr p + csize p = addr x /\ csize p mod 16 = 0 /\
            0 < addr p /\ 32 <= csize p /\ addr x < modulus).
  { intros a' p ->.
    pose proof (tiles_snoc _ _ _ _ Hta) as Hp.
    assert (Hin : In p ((a' ++ [p]) ++ x :: b)).
    { apply in_or_app. left. apply in_elt. }
    destruct (wf_tags _ _ _ _ _ _ Hwf p Hin) as (_ & Ht2).
    destruct (tiles_In _ _ _ _ (wf_tiles _ _ _ _ _ _ Hwf) Hin)
      as (? & ? & ? & ?).
    destruct (tiles_In _ _ _ _ (wf_tiles _ _ _ _ _ _ Hwf)
                (in_elt x (a' ++ [p]) b)) as (? & ? & ? & ?).
    consts. rewrite Hp in Ht2. repeat split; try assumption; lia. }
  pose proof (free_last_spec a) as Hfl.
  destruct (free_last a) as [[a' p] |].
  - destruct Hfl as (Ea & Eu).
    destruct (Hlast a' p Ea) as (Ht & Hp & Hm & Hp0 & Hps & Hxm).
    rewrite Ht, Eu.
    rewrite tag_flag by now apply aligned_even.
    rewrite tag_size; try lia; [| now apply aligned_even].
    simpl. replace (addr x - csize p) with (addr p) by lia.
    apply wrap_small. lia.
  - destruct Hfl as [-> | (a' & p & Ea & Eu)].
    + simpl in Hta. rewrite <- Hta, Hfirst. reflexivity.
    + destruct (Hlast a' p Ea) as (Ht & _ & Hm & _).
      rewrite Ht, Eu. rewrite tag_flag by now apply aligned_even.
      reflexivity.
Qed.

End Neighbours.

(** * How [link], [unlink] and the search of [allocate] compose *)

Lemma insert_split (x : chunk) (l : list chunk) :
  exists f1 f2,
    l = f1 ++ f2 /\ insert x l = f1 ++ x :: f2 /\
    Forall (fun c => csize c < csize x) f1.
Proof.
  induction l as [| c t IH]; simpl.
  - exists [], []. repeat split. constructor.
  - destruct (Z.ltb_spec (csize c) (csize x)) as [Hlt | Hge].
    + destruct IH as (f1 & f2 & -> & E & Hf).
      exists (c :: f1), f2. simpl. rewrite E.
      repeat split. now constructor.
    + exists [], (c :: t). repeat split. constructor.
Qed.

Lemma spaced_insert (slot : Z) (x : chunk) (l : list chunk) :
  spaced slot (x :: l) -> spaced slot (insert x l).
Proof.
  intros [H1 H2 H3 H4].
  assert (Hin : forall c, In c (insert x l) -> In c (x :: l)).
  { intros c Hc. apply insert_In in Hc. simpl. intuition congruence. }
  split.
  - intros c Hc. now apply H1, Hin.
  - intros c Hc. now apply H2, Hin.
  - intros c c' Hc Hc'. apply H3; now apply Hin.
  - simpl in H4. inversion H4; subst. now apply insert_nodup.
Qed.

Lemma first_fit_insert (x : chunk) (l : list chunk) :
  exists pre post,
    first_fit (csize x) (insert x l) = Some (pre, x, post) /\
    l = pre ++ post.
Proof.
  induction l as [| c t IH]; simpl.
  - rewrite Z.leb_refl. now exists [], [].
  - destruct (Z.ltb_spec (csize c) (csize x)) as [Hlt | Hge]; simpl.
    + destruct (Z.leb_spec (csize x) (csize c)); [lia |].
      destruct IH as (pre & post & -> & ->).
      now exists (c :: pre), post.
    + rewrite Z.leb_refl. now exists [], (c :: t).
Qed.


Section Compose.

Variables (m : mem) (x : chunk) (l : list chunk) (slot : Z) (fuel : nat).
Hypothesis Hsp : spaced slot (x :: l).
Hypothesis Hfl : flist m slot l.
Hypothesis Hsz : forall c, In c l -> size m (addr c) = csize c.
Hypothesis Hx : size m (addr x) = csize x.
Hypothesis Hfuel : (length l < fuel)%nat.

(** Taking out what was just put in gives the list back. *)
Lemma link_unlink :
  exists m',
    link fuel m (addr x) slot = Some m' /\
    flist (unlink m' (addr x)) slot l.
Proof.
  destruct (link_spec m x l slot fuel Hsp Hfl Hsz Hx Hfuel)
    as (m' & E & Hl & _).
  exists m'. split; [exact E |].
  destruct (insert_split x l) as (f1 & f2 & El & Ei & _).
  pose proof (spaced_insert slot x l Hsp) as Hsp'.
  rewrite Ei in Hl, Hsp'. rewrite El.
  exact (proj1 (unlink_spec m' x f2 f1 slot Hsp' Hl)).
Qed.

(** The size fields are no link fields. *)
Lemma link_keeps_sizes (m' : mem) :
  link fuel m (addr x) slot = Some m' ->
  forall c, In c (x :: l) -> size m' (addr c) = csize c.
Proof.
  intros E c Hc.
  destruct (link_spec m x l slot fuel Hsp Hfl Hsz Hx Hfuel)
    as (m'' & E' & _ & Hfr).
  rewrite E in E'. injection E' as <-.
  assert (Hold : size m (addr c) = csize c).
  { destruct Hc as [<- | Hc]; [exact Hx | now apply Hsz]. }
  rewrite <- Hold. unfold size. f_equal. apply Hfr.
  intros Ht. apply (touches_spaced _ _ _ Hsp) in Ht.
  destruct (sp_range _ _ Hsp c Hc) as (Hc0 & Hc1).
  pose proof (sp_slot _ _ Hsp c Hc) as Hcs.
  unwrap_at (addr c). consts.
  destruct Ht as [Ht | (c' & Hc' & Ht)]; [lia |].
  destruct (sp_far _ _ Hsp c c' Hc Hc') as [He | Hf];
    [| unfold far in Hf; consts]; lia.
Qed.

(** A request for the size of the chunk just linked finds that chunk:
    among chunks of one size the last one freed is the first one
    reused. *)
Lemma link_find :
  exists m',
    link fuel m (addr x) slot = Some m' /\
    find_chunk (S fuel) m' (csize x) (load m' slot) = Some (addr x).
Proof.
  destruct (link_spec m x l slot fuel Hsp Hfl Hsz Hx Hfuel)
    as (m' & E & Hl & _).
  exists m'. split; [exact E |].
  rewrite (find_chunk_spec m' (csize x) (insert x l) slot (S fuel)).
  - destruct (first_fit_insert x l) as (pre & post & -> & _). reflexivity.
  - now apply spaced_insert.
  - exact Hl.
  - intros c Hc. apply (link_keeps_sizes m' E).
    apply insert_In in Hc. simpl. intuition congruence.
  - rewrite insert_length. lia.
Qed.

End Compose.


(** * The blocks a client holds *)

(** The bytes of a block end where the next header begins. *)
Lemma usable_chunk (this h0 hend : Z) (m : mem) (cs fl : list chunk)
    (c : chunk) :
  wf this h0 hend m cs fl -> In c cs ->
  usable m (addr c + 16) = csize c - 16.
Proof.
  intros Hwf Hc.
  destruct (tiles_In _ _ _ _ (wf_tiles _ _ _ _ _ _ Hwf) Hc)
    as (Hc0 & Hc1 & Hc2 & _).
  pose proof (wf_h0 _ _ _ _ _ _ Hwf) as Hh0.
  pose proof (wf_hend _ _ _ _ _ _ Hwf) as Hhend. consts.
  unfold usable. rewrite payloadToHeader_eq by lia.
  unfold next. rewrite (wf_size _ _ _ _ _ _ Hwf c Hc).
  rewrite wrap_small by lia. lia.
Qed.

Section Blocks.

Variables (this begin end_ : Z).
Hypothesis Hregion : region_ok this begin end_.

(** A live pointer is the payload address of a used chunk. *)
Lemma reachable_live_chunk (m : mem) (live : list Z) (p : Z) :
  reachable this begin end_ m live ->
  In p live ->
  exists cs fl c,
    wf this (align_begin begin - 16) (align_end end_ - 16) m cs fl /\
    (forall q, In q live <-> In q (live_ptrs cs)) /\
    In c cs /\ used c = true /\ p = addr c + 16.
Proof.
  intros Hr Hp.
  destruct (reachable_inv _ _ _ Hregion _ _ Hr)
    as [(_ & cs & fl & Hwf & _ & _ & Hlive) | (_ & -> & _)];
    [| contradiction].
  pose proof Hp as Hp'. apply Hlive, live_ptrs_In in Hp'.
  destruct Hp' as (c & Hc & Hu & ->).
  exists cs, fl, c. tauto.
Qed.

(** Every block lies inside the region, is aligned and has at least 16
    bytes. *)
Lemma reachable_block_inside (m : mem) (live : list Z) (p : Z) :
  reachable this begin end_ m live ->
  In p live ->
  begin + 16 <= p /\ 16 <= usable m p /\ p + usable m p + 32 <= end_ /\
  p mod 16 = 0.
Proof.
  intros Hr Hp.
  destruct (reachable_live_chunk m live p Hr Hp)
    as (cs & fl & c & Hwf & _ & Hc & _ & ->).
  rewrite (usable_chunk _ _ _ _ _ _ c Hwf Hc).
  destruct (tiles_In _ _ _ _ (wf_tiles _ _ _ _ _ _ Hwf) Hc)
    as (Hc0 & Hc1 & Hc2 & _).
  pose proof (tiles_all_aligned _ _ _ c (wf_align _ _ _ _ _ _ Hwf)
                (wf_tiles _ _ _ _ _ _ Hwf) Hc) as Hal.
  destruct (region_aligned _ _ _ Hregion) as (Hb & _ & He & _).
  cbv zeta in Hb, He. consts.
  repeat split; try lia.
  rewrite Z.add_mod, Hal by lia. reflexivity.
Qed.


(** [allocate] never hands out a pointer that is still live. *)
Lemma reachable_fresh (fuel : nat) (m m' : mem) (live : list Z) (N p : Z) :
  reachable this begin end_ m live ->
  0 <= N <= max_request ->
  allocate fuel this m N = Some (p, m') ->
  p <> 0 ->
  ~ In p live.
Proof.
  intros Hr HN H Hp.
  pose proof (reach_allocate _ _ _ fuel m m' live N p Hr HN H) as Hr'.
  destruct (Z.eqb_spec p 0); [contradiction |].
  destruct (reachable_inv _ _ _ Hregion _ _ Hr')
    as [(_ & cs & fl & _ & _ & Hnd & _) | (_ & E & _)]; [| discriminate].
  now inversion Hnd.
Qed.

(** A block has room for the request and at most 31 bytes more (for a
    request below the minimum, for 16 bytes). *)
Lemma reachable_block_size (fuel : nat) (m m' : mem) (live : list Z)
    (N p : Z) :
  reachable this begin end_ m live ->
  0 <= N <= max_request ->
  allocate fuel this m N = Some (p, m') ->
  p <> 0 ->
  N <= usable m' p <= Z.max N 16 + 31 /\ usable m' p mod 16 = 0.
Proof.
  intros Hr HN H Hp.
  destruct (needed_nowrap N HN) as (HnN & Hn & _).
  destruct (needed_aligned N) as (Hnal & _).
  assert (Hup : needed N <= Z.max N 16 + 31).
  { rewrite needed_closed by (unfold max_request, modulus in *; lia).
    destruct (Z.leb_spec N max_request); [| lia].
    Z.div_mod_to_equations. lia. }
  destruct (reachable_inv _ _ _ Hregion _ _ Hr)
    as [(_ & cs & fl & Hwf & _) | (_ & _ & Hsmall)].
  - set (F := Nat.max fuel (S (length fl))).
    apply (allocate_mono fuel F) in H; [| unfold F; lia].
    pose proof (allocate_spec _ _ _ F m cs fl N Hwf Hn ltac:(unfold F; lia))
      as Hspec.
    pose proof (first_fit_spec (needed N) fl) as Hff.
    destruct (first_fit (needed N) fl) as [[[pre x] post] |].
    + destruct Hspec as (a & b & m'' & -> & Hu & E & Hwf').
      destruct Hff as (_ & Hxn & _).
      rewrite E in H. injection H as <- <-.
      destruct (tiles_In _ _ _ _ (wf_tiles _ _ _ _ _ _ Hwf) (in_elt x a b))
        as (_ & _ & _ & Hxal).
      assert (Hs : exists s, (s = needed N \/
                              s = csize x /\ csize x - needed N < 32) /\
                             needed N <= s /\
                             In (Chunk (addr x) s true) (carve (needed N) x)).
      { unfold carve. consts.
        destruct (Z.leb_spec (4 * 8) (csize x - needed N)).
        - exists (needed N). split; [tauto | split; [lia | simpl; tauto]].
        - exists (csize x). split; [lia | split; [lia | simpl; tauto]]. }
      destruct Hs as (s & Hcase & Hsn & Hin).
      assert (Hin' : In (Chunk (addr x) s true)
                        (a ++ carve (needed N) x ++ b)).
      { apply in_or_app. right. apply in_or_app. now left. }
      pose proof (usable_chunk _ _ _ _ _ _ _ Hwf' Hin') as Hus.
      simpl in Hus. rewrite Hus. consts.
      assert (Hsal : s mod 16 = 0) by (destruct Hcase as [-> | (-> & _)]; assumption).
      split; [| Z.div_mod_to_equations; lia].
      destruct Hcase as [-> | (-> & Hrem)]; [lia |].
      assert (csize x - needed N <= 16) by (Z.div_mod_to_equations; lia).
      lia.
    + rewrite Hspec in H. injection H as <- _. contradiction.
  - exfalso. apply Hp.
    assert (E : allocate (S (S fuel)) this m N = Some (0, m)).
    { destruct Hsmall as [H0 | Ht].
      - now apply allocate_empty.
      - now apply (allocate_tiny this _ m fuel N Ht). }
    apply (allocate_mono fuel (S (S fuel))) in H; [| lia].
    rewrite E in H. now injection H as <- _.
Qed.

(** Once every block is given back the interior is one free chunk again,
    and the largest request the region can hold succeeds. *)
Lemma reachable_idle (fuel : nat) (m : mem) :
  reachable this begin end_ m [] ->
  sizeof_Header <= align_end end_ - align_begin begin ->
  enough_fuel begin end_ fuel ->
  free_sizes fuel m (load m this)
    = Some [align_end end_ - align_begin begin] /\
  exists m',
    allocate fuel this m (align_end end_ - align_begin begin - 16)
    = Some (align_begin begin, m').
Proof.
  intros Hr HT Hf.
  pose proof (idle_wf _ _ _ m (reachable_inv _ _ _ Hregion _ _ Hr) HT) as Hwf.
  cbv zeta in Hwf.
  destruct (region_aligned _ _ _ Hregion) as (Hb & _ & He & Hbm & Hem).
  cbv zeta in Hb, He, Hbm, Hem.
  destruct Hregion as (R0 & R1 & R2 & _). consts.
  set (T := align_end end_ - align_begin begin) in *.
  assert (HTm : T mod 16 = 0).
  { unfold T. rewrite Zminus_mod, Hbm, Hem. reflexivity. }
  split.
  - destruct (wf_enough _ _ _ _ _ _ _ Hwf Hf) as (Hfl & _).
    now rewrite (free_sizes_wf _ _ _ _ _ _ Hwf fuel Hfl).
  - destruct (enough_fuel_two _ _ _ Hf) as (fuel' & ->).
    assert (En : needed (T - 16) = T) by (apply needed_of_chunk; lia).
    destruct (allocate_idle _ _ _ _ fuel' m (T - 16) Hwf) as (m' & E & _).
    { rewrite En. consts. lia. }
    exists m'. rewrite E, En.
    destruct (Z.leb_spec T T); [| lia]. f_equal. f_equal. lia.
Qed.

End Blocks.

(** * A wrapped request followed by [deallocate]

    A request that needs 0 bytes returns a pointer and leaves the chunk
    in the free list; giving the pointer back links the chunk a second
    time, in front of itself, and the list becomes a cycle. *)

Section Cycle.

Variables (this h0 T : Z).
Hypothesis Hgeo : one_chunk_region this h0 T.

Lemma find_chunk_cycle (m : mem) (n : Z) :
  self_linked this h0 T m -> T < n ->
  forall fuel, find_chunk fuel m n h0 = None.
Proof.
  intros (L1 & L2 & L3 & L4 & L5 & L6 & L7) Hn.
  destruct Hgeo as (G0 & G1 & G2 & G3 & G4). consts.
  induction fuel as [| fuel IH]; [reflexivity |].
  simpl. destruct (Z.eqb_spec h0 0); [lia |].
  rewrite (size_of_word m h0 T) by lia.
  rewrite even_half by exact G3.
  destruct (Z.leb_spec n T); [lia |].
  unwrap_at h0. rewrite L4. exact IH.
Qed.

Lemma allocate_cycle (m : mem) (N : Z) :
  self_linked this h0 T m -> T < needed N ->
  forall fuel, allocate fuel this m N = None.
Proof.
  intros Hs Hn fuel. unfold allocate. cbv zeta.
  destruct Hs as (L1 & Hs'). rewrite L1.
  now rewrite (find_chunk_cycle m (needed N) (conj L1 Hs') Hn fuel).
Qed.

(** What a self-linked list looks like to the code. *)
Lemma cycle_facts (m : mem) :
  self_linked this h0 T m ->
  load m this = h0 /\ load m (nextFree_at h0) = h0 /\ size m h0 = T.
Proof.
  intros (L1 & L2 & L3 & L4 & L5 & L6 & L7).
  destruct Hgeo as (G0 & G1 & G2 & G3 & G4). consts.
  split; [exact L1 |]. split.
  - unwrap_at h0. exact L4.
  - rewrite (size_of_word m h0 T) by lia. now apply even_half.
Qed.

(** What the free chunk looks like to the code. *)
Lemma one_free_facts (m : mem) :
  one_free this h0 T m ->
  load m this = h0 /\ load m (thisSize_at h0) = T /\
  Z.land (load m (thisSize_at h0)) InUse = 0 /\ size m h0 = T.
Proof.
  intros (L1 & L2 & L3 & L4 & L5 & L6 & L7).
  destruct Hgeo as (G0 & G1 & G2 & G3 & G4). consts.
  split; [exact L1 |]. unwrap_at h0. rewrite L3.
  split; [reflexivity |]. split.
  - rewrite land_InUse. Z.div_mod_to_equations. lia.
  - rewrite (size_of_word m h0 T) by lia. now apply even_half.
Qed.

End Cycle.

Section WrappedFresh.

Variables (this begin end_ : Z).
Hypothesis Hregion : region_ok this begin end_.
Hypothesis HT : sizeof_Header <= align_end end_ - align_begin begin.

Lemma fresh_one_free (fuel : nat) (m m0 : mem) :
  DlAllocator fuel this m begin end_ = Some m0 ->
  one_chunk_region this (align_begin begin - 16)
    (align_end end_ - align_begin begin) /\
  one_free this (align_begin begin - 16)
    (align_end end_ - align_begin begin) m0.
Proof.
  intros Hc.
  destruct (constructor_spec this fuel m begin end_ Hregion HT)
    as (m0' & Ec & Hwf).
  apply (DlAllocator_mono fuel (S fuel)) in Hc; [| lia].
  rewrite Ec in Hc. injection Hc as ->.
  exact (wf_one_free _ _ _ _ _ Hwf).
Qed.

(** The same block is handed out twice. *)
Lemma wrapped_twice (fuel fuel' : nat) (m m0 : mem) (N : Z) :
  DlAllocator fuel this m begin end_ = Some m0 ->
  needed N = 0 ->
  exists m1 m2,
    allocate (S (S fuel')) this m0 N = Some (align_begin begin, m1) /\
    allocate (S (S fuel')) this m1 N = Some (align_begin begin, m2).
Proof.
  intros Hc Hn.
  destruct (fresh_one_free fuel m m0 Hc) as (Hgeo & Hone).
  destruct (allocate_zero _ _ _ Hgeo m0 fuel' N Hone Hn) as (m1 & E1 & H1).
  destruct (allocate_zero _ _ _ Hgeo m1 fuel' N H1 Hn) as (m2 & E2 & _).
  exists m1, m2.
  replace (align_begin begin - 16 + 16) with (align_begin begin) in * by lia.
  tauto.
Qed.

(** After the pointer is given back no request larger than the interior
    ever returns. *)
Lemma wrapped_free_cycle (fuel fuel' : nat) (m m0 : mem) (N N' : Z) :
  DlAllocator fuel this m begin end_ = Some m0 ->
  needed N = 0 ->
  align_end end_ - align_begin begin < needed N' ->
  exists m1 m2,
    allocate (S (S fuel')) this m0 N = Some (align_begin begin, m1) /\
    deallocate (S fuel') this m1 (align_begin begin) = Some m2 /\
    forall k, allocate k this m2 N' = None.
Proof.
  intros Hc Hn Hbig.
  destruct (fresh_one_free fuel m m0 Hc) as (Hgeo & Hone).
  destruct (allocate_zero _ _ _ Hgeo m0 fuel' N Hone Hn) as (m1 & E1 & H1).
  destruct (deallocate_free_chunk _ _ _ Hgeo m1 fuel' H1) as (m2 & E2 & H2).
  exists m1, m2.
  replace (align_begin begin - 16 + 16) with (align_begin begin) in * by lia.
  split; [exact E1 | split; [exact E2 |]].
  exact (allocate_cycle _ _ _ Hgeo m2 N' H2 Hbig).
Qed.

(** The states in between, word by word. *)
Lemma wrapped_free_states (fuel fuel' : nat) (m m0 : mem) (N : Z) :
  DlAllocator fuel this m begin end_ = Some m0 ->
  needed N = 0 ->
  one_chunk_region this (align_begin begin - 16)
    (align_end end_ - align_begin begin) /\
  one_free this (align_begin begin - 16)
    (align_end end_ - align_begin begin) m0 /\
  exists m1 m2,
    allocate (S (S fuel')) this m0 N = Some (align_begin begin, m1) /\
    one_free this (align_begin begin - 16)
      (align_end end_ - align_begin begin) m1 /\
    deallocate (S fuel') this m1 (align_begin begin) = Some m2 /\
    self_linked this (align_begin begin - 16)
      (align_end end_ - align_begin begin) m2.
Proof.
  intros Hc Hn.
  destruct (fresh_one_free fuel m m0 Hc) as (Hgeo & Hone).
  destruct (allocate_zero _ _ _ Hgeo m0 fuel' N Hone Hn) as (m1 & E1 & H1).
  destruct (deallocate_free_chunk _ _ _ Hgeo m1 fuel' H1) as (m2 & E2 & H2).
  split; [exact Hgeo |]. split; [exact Hone |]. exists m1, m2.
  replace (align_begin begin - 16 + 16) with (align_begin begin) in * by lia.
  tauto.
Qed.

End WrappedFresh.

(** * What [allocate] and [deallocate] leave alone *)

Section Frame.

Variables (this h0 hend : Z).

(** [unlink] writes link fields only. *)
Lemma unlink_frame (m : mem) (a b fl : list chunk) (lo hi : Z) (n : chunk) :
  pwf this h0 hend m a lo hi b fl ->
  In n fl ->
  forall y, y <> this ->
    (forall c, In c fl -> y <> addr c + 16 /\ y <> addr c + 24) ->
    load (unlink m (addr n)) y = load m y.
Proof.
  intros H Hn y Hy Hl.
  destruct (in_split _ _ Hn) as (pre & post & E).
  pose proof (pwf_spaced _ _ _ _ _ _ _ _ _ H) as Hsp. rewrite E in Hsp.
  pose proof (pw_flist _ _ _ _ _ _ _ _ _ H) as Hf. rewrite E in Hf.
  destruct (unlink_spec m n post pre this Hsp Hf) as (_ & Hfr).
  apply Hfr. apply untouched_intro; try assumption.
  - exact (spaced_remove _ _ _ _ Hsp).
  - intros c Hc. apply Hl. rewrite E.
    apply in_app_or in Hc. apply in_or_app. simpl. tauto.
Qed.

(** Writing the two size fields of a free chunk into the hole and
    linking it touches these fields and link fields only. *)
Lemma fill_free_frame (m m' : mem) (a b fl : list chunk) (lo hi : Z)
    (fuel : nat) :
  pwf this h0 hend m a lo hi b fl ->
  lo + 32 <= hi -> (hi - lo) mod 16 = 0 ->
  (length fl < fuel)%nat ->
  link fuel (setSize_free m lo (hi - lo)) lo this = Some m' ->
  forall y, y <> this -> y <> lo + 8 -> y <> hi ->
    y <> lo + 16 -> y <> lo + 24 ->
    (forall c, In c fl -> y <> addr c + 16 /\ y <> addr c + 24) ->
    load m' y = load m y.
Proof.
  intros H Hlo Hal Hfuel E y Y0 Y1 Y2 Y3 Y4 Y5.
  set (R := Chunk lo (hi - lo) false).
  pose proof (tiles_le _ _ _ (pw_left _ _ _ _ _ _ _ _ _ H)) as Hl.
  pose proof (tiles_le _ _ _ (pw_right _ _ _ _ _ _ _ _ _ H)) as Hr.
  pose proof (pw_h0 _ _ _ _ _ _ _ _ _ H) as Hh0.
  pose proof (pw_hend _ _ _ _ _ _ _ _ _ H) as Hhend.
  pose proof (pw_this _ _ _ _ _ _ _ _ _ H) as Hthis. consts.
  pose proof (pwf_spaced _ _ _ _ _ _ _ _ _ H) as Hsp.
  assert (Hfl : forall c, In c fl ->
            In c (a ++ b) /\ (addr c + csize c <= lo \/ hi <= addr c) /\
            32 <= csize c /\ 0 < addr c).
  { intros c Hc. apply (pw_free _ _ _ _ _ _ _ _ _ H) in Hc.
    destruct Hc as (Hc & _).
    destruct (pwf_In _ _ _ _ _ _ _ _ _ _ H Hc) as (? & ? & ? & ? & ?).
    repeat split; try assumption; lia. }
  assert (HspR : spaced this (R :: fl)).
  { split.
    - intros c [<- | Hc]; [simpl; consts; lia | now apply (sp_range _ _ Hsp)].
    - intros c [<- | Hc]; [simpl; consts; lia | now apply (sp_slot _ _ Hsp)].
    - intros c c' [<- | Hc] [<- | Hc'].
      + now left.
      + right. destruct (Hfl c' Hc') as (_ & ? & ? & _).
        unfold far. simpl. consts. lia.
      + right. destruct (Hfl c Hc) as (_ & ? & ? & _).
        unfold far. simpl. consts. lia.
      + now apply (sp_far _ _ Hsp).
    - simpl. constructor; [| exact (sp_nodup _ _ Hsp)].
      rewrite in_map_iff. intros (c & Hc & Hin).
      destruct (Hfl c Hin) as (_ & ? & ? & _). lia. }
  rewrite setSize_free_eq in E by lia.
  replace (lo + (hi - lo)) with hi in E by lia.
  set (m3 := store (store m (lo + 8) (hi - lo)) hi (hi - lo)) in *.
  assert (Hfr3 : forall z, z < lo + 8 \/ hi < z -> load m3 z = load m z).
  { intros z Hz. unfold m3. rewrite !load_store_other by lia. reflexivity. }
  pose proof (pwf_frame _ _ _ _ _ _ _ _ _ _ H Hfr3) as H3.
  destruct (link_spec m3 R fl this fuel HspR (pw_flist _ _ _ _ _ _ _ _ _ H3))
    as (m'' & E' & _ & Hfr).
  { intros c Hc. apply (pwf_size _ _ _ _ _ _ _ _ _ _ H3).
    now apply (Hfl c Hc). }
  { simpl. apply (size_of_tag m3 lo (hi - lo) false); try lia.
    unfold m3. rewrite load_store_other by lia. apply load_store_same. }
  { exact Hfuel. }
  simpl in E'. rewrite E in E'. injection E' as <-.
  rewrite Hfr.
  - unfold m3. rewrite !load_store_other by lia. reflexivity.
  - apply untouched_intro; try assumption.
    intros c [<- | Hc]; [simpl; lia | now apply Y5].
Qed.

(** A kept word is no word of the free list. *)
Lemma kept_not_link (m : mem) (cs fl : list chunk) (y : Z) :
  wf this h0 hend m cs fl ->
  kept this hend cs y ->
  y <> this /\
  forall c, In c fl -> y <> addr c + 16 /\ y <> addr c + 24.
Proof.
  intros Hwf Hk. split.
  - intros ->. apply Hk. now left.
  - intros c Hc. apply (wf_free _ _ _ _ _ _ Hwf) in Hc.
    destruct Hc as (Hc & Hu).
    destruct (tiles_In _ _ _ _ (wf_tiles _ _ _ _ _ _ Hwf) Hc)
      as (_ & _ & Hs & _). consts.
    split; intros ->; apply Hk; right; right; exists c;
      (split; [exact Hc | right; split; [exact Hu | lia]]).
Qed.

(** The end of a chunk is the end sentinel or the next header. *)
Lemma chunk_end_scratch (m : mem) (a b fl : list chunk) (x : chunk) :
  wf this h0 hend m (a ++ x :: b) fl ->
  scratch this hend (a ++ x :: b) (addr x + csize x).
Proof.
  intros Hwf.
  destruct (tiles_middle _ _ _ _ _ (wf_tiles _ _ _ _ _ _ Hwf))
    as (_ & _ & Htb).
  destruct b as [| n b']; simpl in Htb.
  - right. now left.
  - right. right. exists n. destruct Htb as (Hn & _).
    split; [apply in_or_app; simpl; tauto | now left].
Qed.

End Frame.

Section FrameAllocate.

Variables (this h0 hend : Z).

Lemma allocate_frame (fuel : nat) (m m' : mem) (cs fl : list chunk)
    (N p : Z) :
  wf this h0 hend m cs fl ->
  sizeof_Header <= needed N ->
  (length fl < fuel)%nat ->
  allocate fuel this m N = Some (p, m') ->
  forall y, kept this hend cs y -> load m' y = load m y.
Proof.
  intros Hwf Hn Hfuel Ha y Hk.
  destruct (kept_not_link this h0 hend m cs fl y Hwf Hk) as (Hy0 & Hyl).
  destruct (needed_aligned N) as (Hal & Hn0 & Hn1).
  set (n := needed N) in *.
  pose proof (pwf_of_wf this h0 hend m [] cs fl Hwf) as H0'.
  pose proof (pwf_spaced _ _ _ _ _ _ _ _ _ H0') as Hsp.
  assert (Hfind := find_chunk_spec m n fl this fuel Hsp (wf_flist _ _ _ _ _ _ Hwf)).
  unfold allocate in Ha. cbv zeta in Ha. fold n in Ha.
  rewrite Hfind in Ha; clear Hfind.
  2:{ intros c Hc. apply (pwf_size _ _ _ _ _ _ _ _ _ _ H0').
      now apply (wf_free _ _ _ _ _ _ Hwf) in Hc. }
  2:{ exact Hfuel. }
  pose proof (first_fit_spec n fl) as Hff.
  destruct (first_fit n fl) as [[[pre x] post] |].
  2:{ simpl in Ha. injection Ha as _ <-. reflexivity. }
  destruct Hff as (Efl & Hxn & _).
  assert (Hxfl : In x fl) by (rewrite Efl; apply in_or_app; simpl; tauto).
  apply (wf_free _ _ _ _ _ _ Hwf) in Hxfl. destruct Hxfl as (Hxcs & Hfree).
  destruct (in_split _ _ Hxcs) as (a & b & Ecs). subst cs.
  pose proof (pwf_of_wf this h0 hend m a (x :: b) fl Hwf) as Hp.
  destruct (tiles_middle _ _ _ _ _ (wf_tiles _ _ _ _ _ _ Hwf)) as (Hax & Hta & Htb).
  rewrite <- Hax in Hp.
  destruct (pwf_In _ _ _ _ _ _ _ _ _ _ Hp (in_elt x a b))
    as ((Hh0 & Hx0) & Hx1 & Hend & Hx2 & _).
  assert (Hxal : csize x mod 16 = 0).
  { now destruct (tiles_In _ _ _ _ (wf_tiles _ _ _ _ _ _ Hwf) Hxcs)
      as (_ & _ & _ & ?). }
  assert (Hyx : ~ addr x < y < addr x + csize x).
  { intros Hin. apply Hk. right. right. exists x. tauto. }
  assert (Hye : y <> addr x + csize x).
  { intros ->. apply Hk. exact (chunk_end_scratch _ _ _ _ _ _ _ _ Hwf). }
  destruct (Z.eqb_spec (addr x) 0); [lia |].
  destruct (pwf_remove _ _ _ m a (x :: b) fl (addr x) (addr x) x a b
              (addr x) (addr x + csize x) Hp) as (pre' & post' & Efl' & Hp1 & Hfr1);
    try assumption; try lia.
  { intros c. rewrite !in_app_iff. simpl.
    split; [| intros ([? | [? | ?]] & ?); [tauto | congruence | tauto]].
    intros Hc. split; [tauto |]. intros ->.
    destruct Hc as [Hc | Hc].
    - destruct (tiles_In _ _ _ _ Hta Hc) as (_ & ? & _). lia.
    - destruct (tiles_In _ _ _ _ Htb Hc) as (? & _). lia. }
  assert (Epp : pre' ++ post' = pre ++ post).
  { rewrite <- (without_split pre' post' x), <- (without_split pre post x).
    - now rewrite <- Efl, <- Efl'.
    - rewrite <- Efl. exact (wf_nodup _ _ _ _ _ _ Hwf).
    - rewrite <- Efl'. exact (wf_nodup _ _ _ _ _ _ Hwf). }
  rewrite Epp in Hp1. clear Efl' Epp pre' post'.
  assert (Hy1 : load (unlink m (addr x)) y = load m y).
  { apply Hfr1. split; [exact Hy0 |]. intros c Hc Hu. apply Hyl.
    apply (wf_free _ _ _ _ _ _ Hwf). tauto. }
  assert (Hyl' : forall c, In c (pre ++ post) ->
            y <> addr c + 16 /\ y <> addr c + 24).
  { intros c Hc. apply Hyl. rewrite Efl.
    apply in_app_or in Hc. apply in_or_app. simpl. tauto. }
  set (m1 := unlink m (addr x)) in *.
  assert (Hsz1 : size m1 (addr x) = csize x).
  { apply (size_of_tag m1 (addr x) (csize x) false); try lia.
    rewrite Hfr1.
    - destruct (wf_tags _ _ _ _ _ _ Hwf x Hxcs) as (T & _).
      rewrite Hfree in T. exact T.
    - split.
      + now destruct (pwf_tag_not_link _ _ _ _ _ _ _ _ _ x x Hp
          (in_elt x a b)
          (in_elt x a b)
          (addr x + 8) (or_introl eq_refl)).
      + intros c Hc _.
        now destruct (pwf_tag_not_link _ _ _ _ _ _ _ _ _ x c Hp
          (in_elt x a b) Hc
          (addr x + 8) (or_introl eq_refl)). }
  rewrite Hsz1 in Ha. rewrite (wrap_small (csize x - n)) in Ha by lia.
  consts.
  destruct (Z.leb_spec (4 * 8) (csize x - n)) as [Hrem | Hrem].
  - assert (Hmod : (addr x + n - addr x) mod 16 = 0)
      by (replace (addr x + n - addr x) with n by lia; exact Hal).
    pose proof (fill_used this h0 hend m1 a b (pre ++ post) (addr x)
                  (addr x + n) (addr x + csize x) Hp1
                  ltac:(lia) ltac:(lia) Hmod) as Hp2.
    replace (addr x + n - addr x) with n in Hp2 by lia.
    assert (Hy2 : load (setSize_used m1 (addr x) n) y = load m1 y).
    { rewrite setSize_used_eq by lia.
      rewrite !load_store_other by lia. reflexivity. }
    set (m2 := setSize_used m1 (addr x) n) in *.
    assert (Hnx : next m2 (addr x) = addr x + n).
    { unfold next.
      pose proof (pwf_size _ _ _ _ _ _ _ _ _ (Chunk (addr x) n true) Hp2)
        as Hs2. simpl in Hs2. rewrite Hs2.
      - apply wrap_small. lia.
      - rewrite <- app_assoc. apply in_or_app. simpl. tauto. }
    rewrite Hnx in Ha.
    assert (Hmod2 : (addr x + csize x - (addr x + n)) mod 16 = 0).
    { replace (addr x + csize x - (addr x + n)) with (csize x - n) by lia.
      rewrite Zminus_mod, Hxal, Hal. reflexivity. }
    destruct (link fuel (setSize_free m2 (addr x + n) (csize x - n))
                (addr x + n) this) as [m4 |] eqn:E4; [| discriminate].
    injection Ha as _ <-.
    replace (csize x - n) with (addr x + csize x - (addr x + n)) in E4 by lia.
    transitivity (load m2 y); [| now rewrite Hy2].
    apply (fill_free_frame this h0 hend m2 m4 _ b (pre ++ post)
             (addr x + n) (addr x + csize x) fuel Hp2 ltac:(lia) Hmod2);
      try assumption; try lia.
    rewrite Efl in Hfuel. rewrite !length_app in *. simpl in Hfuel. lia.
  - injection Ha as _ <-.
    rewrite setSize_used_eq by lia.
    rewrite !load_store_other by lia. exact Hy1.
Qed.

End FrameAllocate.

Section FrameDeallocate.

Variables (this h0 hend : Z).

Lemma without_In (h : Z) (l : list chunk) (c : chunk) :
  In c (without h l) -> In c l.
Proof. unfold without. intros H. now apply filter_In in H. Qed.

Lemma deallocate_frame (fuel : nat) (m m' : mem) (a b fl : list chunk)
    (x : chunk) :
  wf this h0 hend m (a ++ x :: b) fl ->
  used x = true ->
  (length fl < fuel)%nat ->
  deallocate fuel this m (addr x + 16) = Some m' ->
  forall y, kept this hend (a ++ x :: b) y ->
    ~ addr x < y < addr x + csize x ->
    load m' y = load m y.
Proof.
  intros Hwf Hu Hfuel Hd y Hk Hyx.
  destruct (kept_not_link this h0 hend m _ fl y Hwf Hk) as (Hy0 & Hyl).
  pose proof (open_used this h0 hend m a b fl x Hwf Hu) as Hp.
  pose proof (pwf_of_wf this h0 hend m a (x :: b) fl Hwf) as Hp0.
  pose proof (pwf_size _ _ _ _ _ _ _ _ _ x Hp0 (in_elt x a b)) as Hsz.
  destruct (pwf_In _ _ _ _ _ _ _ _ _ _ Hp0 (in_elt x a b))
    as ((Hh0 & Hx0) & Hx1 & Hend & Hx2 & _).
  assert (Hxal : csize x mod 16 = 0).
  { now destruct (tiles_In _ _ _ _ (wf_tiles _ _ _ _ _ _ Hwf) (in_elt x a b))
      as (_ & _ & _ & ?). }
  pose proof (nextIfFree_wf this h0 hend m a b fl x Hwf) as Hnext.
  pose proof (prevIfFree_wf this h0 hend m a b fl x Hwf) as Hprev.
  pose proof (chunk_end_scratch this h0 hend m a b fl x Hwf) as Hend_x.
  pose proof (pw_this _ _ _ _ _ _ _ _ _ Hp) as Hthis.
  set (lo := addr x) in *. set (hi := lo + csize x) in *.
  assert (Hsz' : size m lo = hi - lo) by (unfold hi; lia).
  unfold deallocate, payloadToHeader in Hd. consts.
  replace (lo + 16 - 2 * 8) with lo in Hd by lia.
  rewrite (wrap_small lo) in Hd by lia. cbv zeta in Hd. rewrite Hsz' in Hd.
  destruct (absorb_next this h0 hend m a b fl lo hi Hp ltac:(unfold hi; lia) Hsz')
    as (m1 & b1 & hi1 & fl1 & E1 & Hp1 & Hhi & Hhim & Eb).
  rewrite E1 in Hd.
  destruct (absorb_prev this h0 hend m1 a b1 fl1 lo hi1 Hp1)
    as (m2 & a2 & lo2 & fl2 & E2 & Hp2 & Hlo & Hlom & Ea).
  rewrite E2 in Hd.
  assert (Hmod : (hi1 - lo2) mod 16 = 0).
  { replace (hi1 - lo2) with ((hi1 - hi) + (csize x + (lo - lo2)))
      by (unfold hi; lia).
    rewrite Z.add_mod, Hhim by lia.
    rewrite (Z.add_mod (csize x)), Hxal, Hlom by lia. reflexivity. }
  (* the frame of forward coalescing *)
  assert (Hfree_fl : forall c, In c (a ++ b) -> used c = false ->
            In c fl /\ 0 < addr c /\
            (addr c + csize c <= lo \/ hi <= addr c) /\ 32 <= csize c).
  { intros c Hc Huc.
    destruct (pwf_In _ _ _ _ _ _ _ _ _ _ Hp Hc) as (? & ? & ? & ? & ?).
    split; [apply (pw_free _ _ _ _ _ _ _ _ _ Hp); tauto |].
    repeat split; try assumption; lia. }
  assert (Hm1 : m1 = if nextIfFree m lo =? 0 then m
                     else unlink m (nextIfFree m lo)).
  { destruct (nextIfFree m lo =? 0); now injection E1. }
  assert (F1 : (forall c, In c fl1 -> In c fl) /\
               (forall z, z <> this ->
                  (forall c, In c fl -> z <> addr c + 16 /\ z <> addr c + 24) ->
                  load m1 z = load m z) /\
               scratch this hend (a ++ x :: b) hi1).
  { rewrite Hnext in Hm1. destruct b as [| n b']; simpl in Eb, Hm1.
    - injection Eb as -> -> ->. subst m1. tauto.
    - destruct (used n) eqn:Eun.
      + injection Eb as -> -> ->. subst m1. tauto.
      + injection Eb as -> -> ->.
        destruct (Hfree_fl n) as (Hnfl & Hn0 & _); [apply in_elt | exact Eun |].
        destruct (Z.eqb_spec (addr n) 0); [lia |]. subst m1.
        split; [intros c; apply without_In |].
        split; [intros z Hz Hzl; now apply (unlink_frame this h0 hend m a (n :: b') fl lo hi n Hp) |].
        destruct (tiles_middle _ _ _ _ _ (wf_tiles _ _ _ _ _ _ Hwf))
          as (_ & _ & Htb).
        simpl in Htb. destruct Htb as (Hn & _).
        replace (hi + csize n) with (addr n + csize n) by (unfold hi, lo; lia).
        assert (Hwf' : wf this h0 hend m ((a ++ [x]) ++ n :: b') fl)
          by (rewrite <- app_assoc; exact Hwf).
        pose proof (chunk_end_scratch this h0 hend m _ _ _ _ Hwf') as Hs.
        rewrite <- app_assoc in Hs. exact Hs. }
  destruct F1 as (Hsub1 & Hfr1 & Hhi1).
  (* the frame of backward coalescing *)
  assert (Hlo1 : load m1 lo = load m lo).
  { apply Hfr1; [lia |]. intros c Hc.
    apply (pw_free _ _ _ _ _ _ _ _ _ Hp) in Hc. destruct Hc as (Hc & Huc).
    destruct (Hfree_fl c Hc Huc) as (_ & _ & ? & ?). lia. }
  assert (Hprev1 : prevIfFree m1 lo = prevIfFree m lo).
  { unfold prevIfFree, previousSize, prevSize_at. now rewrite Hlo1. }
  assert (Hm2 : m2 = if prevIfFree m1 lo =? 0 then m1
                     else unlink m1 (prevIfFree m1 lo)).
  { destruct (prevIfFree m1 lo =? 0); now injection E2. }
  assert (F2 : (forall c, In c fl2 -> In c fl1) /\
               (forall z, z <> this ->
                  (forall c, In c fl -> z <> addr c + 16 /\ z <> addr c + 24) ->
                  load m2 z = load m1 z) /\
               (lo2 = lo \/
                exists p, In p (a ++ x :: b) /\ used p = false /\
                          lo2 = addr p)).
  { rewrite Hprev1, Hprev in Hm2.
    pose proof (free_last_spec a) as Hfl.
    destruct (free_last a) as [[a' p] |].
    - destruct Hfl as (Ea' & Eup). injection Ea as -> -> ->.
      assert (Hpin : In p (a ++ b)).
      { rewrite Ea'. apply in_or_app. left. apply in_elt. }
      destruct (Hfree_fl p Hpin Eup) as (Hpfl & Hp0' & _).
      destruct (Z.eqb_spec (addr p) 0); [lia |]. subst m2.
      split; [intros c; apply without_In |].
      split.
      + intros z Hz Hzl.
        apply (unlink_frame this h0 hend m1 a b1 fl1 lo hi1 p Hp1);
          try assumption.
        * apply (pw_free _ _ _ _ _ _ _ _ _ Hp1). split; [| exact Eup].
          rewrite Ea'. apply in_or_app. left. apply in_elt.
        * intros c Hc. now apply Hzl, Hsub1.
      + right. exists p. split; [| tauto].
        rewrite Ea'. rewrite <- !app_assoc. apply in_or_app. right.
        simpl. tauto.
    - injection Ea as -> -> ->. subst m2. tauto. }
  destruct F2 as (Hsub2 & Hfr2 & Hlo2).
  assert (Hlen : (length fl2 < fuel)%nat).
  { assert (Hlen1 : (length fl1 <= length fl)%nat).
    { destruct (free_head b) as [[n b'] |]; inversion Eb; subst;
        [apply without_length | lia]. }
    destruct (free_last a) as [[a' p] |]; inversion Ea; subst;
      [pose proof (without_length (addr p) fl1) |]; lia. }
  transitivity (load m2 y).
  - apply (fill_free_frame this h0 hend m2 m' a2 b1 fl2 lo2 hi1 fuel Hp2);
      try assumption; try (unfold hi in *; lia).
    + intros ->. destruct Hlo2 as [-> | (p & Hp' & Hup & ->)]; [lia |].
      apply Hk. right. right. exists p. split; [exact Hp' |]. right.
      destruct (tiles_In _ _ _ _ (wf_tiles _ _ _ _ _ _ Hwf) Hp')
        as (_ & _ & ? & _). consts. split; [exact Hup | lia].
    + intros ->. now apply Hk.
    + intros ->. destruct Hlo2 as [-> | (p & Hp' & Hup & ->)]; [lia |].
      apply Hk. right. right. exists p. split; [exact Hp' |]. right.
      destruct (tiles_In _ _ _ _ (wf_tiles _ _ _ _ _ _ Hwf) Hp')
        as (_ & _ & ? & _). consts. split; [exact Hup | lia].
    + intros ->. destruct Hlo2 as [-> | (p & Hp' & Hup & ->)]; [lia |].
      apply Hk. right. right. exists p. split; [exact Hp' |]. right.
      destruct (tiles_In _ _ _ _ (wf_tiles _ _ _ _ _ _ Hwf) Hp')
        as (_ & _ & ? & _). consts. split; [exact Hup | lia].
    + intros c Hc. now apply Hyl, Hsub1, Hsub2.
  - rewrite Hfr2 by assumption. now apply Hfr1.
Qed.

End FrameDeallocate.

(** * Memory safety *)

(** ** What the constructor writes *)

Lemma constructor_closed (this : Z) (fuel : nat) (m : mem) (begin end_ : Z) :
  region_ok this begin end_ ->
  align_begin begin < align_end end_ ->
  let h := align_begin begin - 16 in
  let T := align_end end_ - align_begin begin in
  DlAllocator (S fuel) this m begin end_ =
  Some (store (store (store (store (store (store (store (store
          m this 0) (h + 8) T) (h + T) T) h InUse) (h + T + 8) InUse)
          (h + 24) this) (h + 16) 0) this h).
Proof.
  intros Hok Hlt h T.
  destruct (region_aligned _ _ _ Hok) as ((Hb & _) & _ & He & Hbm & Hem).
  destruct Hok as (H0 & H1 & H2 & Hthis).
  unfold DlAllocator. cbv zeta.
  set (b := align_begin begin) in *. set (e := align_end end_) in *. consts.
  assert (HTm : T mod 16 = 0).
  { unfold T. rewrite Zminus_mod, Hbm, Hem. reflexivity. }
  assert (HT : 16 <= T) by (unfold T in *; Z.div_mod_to_equations; lia).
  destruct (Z.leb_spec e b); [lia |].
  unfold payloadToHeader. consts.
  rewrite (wrap_small (b - 2 * 8)) by lia.
  rewrite (wrap_small (e - b)) by lia.
  replace (b - 2 * 8) with h by (unfold h; lia). fold T.
  rewrite setSize_free_eq by (unfold h, T in *; lia).
  unfold prevSize_at.
  set (m1 := store (store (store m this 0) (h + 8) T) (h + T) T).
  set (m2 := store m1 h InUse).
  assert (Hnx : next m2 h = h + T).
  { unfold next. rewrite (size_of_tag m2 h T false); unfold h, T in *; try lia.
    - apply wrap_small. lia.
    - unfold m2, m1. rewrite !load_store_other by lia. apply load_store_same. }
  rewrite Hnx. unfold thisSize_at. consts.
  rewrite (wrap_small (h + T + 8)) by (unfold h, T in *; lia).
  set (m3 := store m2 (h + T + 8) InUse).
  apply link_empty; unfold h, T in *; try lia.
  unfold m3, m2, m1. rewrite !load_store_other by lia. apply load_store_same.
Qed.

(** The constructor returns, sets the list pointer, and writes nothing
    else outside the region. *)
Lemma constructor_confined (this : Z) (fuel : nat) (m : mem)
    (begin end_ : Z) :
  region_ok this begin end_ ->
  exists m',
    DlAllocator (S fuel) this m begin end_ = Some m' /\
    load m' this =
      (if align_end end_ <=? align_begin begin then 0
       else align_begin begin - 16) /\
    forall y, y <> this -> y < begin \/ end_ <= y -> load m' y = load m y.
Proof.
  intros Hok.
  destruct (Z.leb_spec (align_end end_) (align_begin begin)) as [Hdeg | Hnd].
  - exists (store m this 0). unfold DlAllocator. cbv zeta.
    destruct (Z.leb_spec (align_end end_) (align_begin begin)); [| lia].
    split; [reflexivity |]. split; [apply load_store_same |].
    intros y Hy _. now apply load_store_other.
  - eexists. split; [exact (constructor_closed this fuel m begin end_ Hok Hnd) |].
    destruct (region_aligned _ _ _ Hok) as ((Hb & _) & _ & He & _ & _).
    cbv zeta in Hb, He.
    split; [apply load_store_same |].
    intros y Hy Hout. rewrite !load_store_other by lia. reflexivity.
Qed.

(** ** Kept words *)

Section Kept.

Variables (this h0 hend : Z).

(** The size field and the payload of a used chunk are kept. *)
Lemma used_kept (m : mem) (cs fl : list chunk) (c : chunk) (y : Z) :
  wf this h0 hend m cs fl ->
  In c cs -> used c = true ->
  addr c < y < addr c + csize c ->
  kept this hend cs y.
Proof.
  intros Hwf Hc Hu Hy Hs.
  pose proof (wf_this _ _ _ _ _ _ Hwf) as Hthis.
  pose proof (wf_tiles _ _ _ _ _ _ Hwf) as Ht.
  destruct (tiles_In _ _ _ _ Ht Hc) as (Hc0 & Hc1 & _). consts.
  destruct Hs as [-> | [-> | (d & Hd & Hs)]]; [lia | lia |].
  destruct (tiles_In _ _ _ _ Ht Hd) as (_ & _ & Hd2 & _). consts.
  destruct (tiles_disjoint _ _ _ _ _ Ht Hc Hd) as [-> | Hdis].
  - destruct Hs as [-> | (Hud & _)]; [lia | congruence].
  - destruct Hs as [-> | (_ & Hin)]; lia.
Qed.

(** So is everything around the heap, the allocator object apart. *)
Lemma outside_kept (m : mem) (cs fl : list chunk) (y : Z) :
  wf this h0 hend m cs fl ->
  y <> this -> y < h0 \/ hend < y ->
  kept this hend cs y.
Proof.
  intros Hwf Hy Hout Hs.
  pose proof (wf_tiles _ _ _ _ _ _ Hwf) as Ht.
  pose proof (tiles_le _ _ _ Ht) as Hle.
  destruct Hs as [-> | [-> | (d & Hd & Hs)]]; [lia | lia |].
  destruct (tiles_In _ _ _ _ Ht Hd) as (? & ? & ? & _). consts.
  destruct Hs as [-> | (_ & Hin)]; lia.
Qed.

End Kept.

(** ** Blocks and surroundings in reachable states *)

Section Safety.

Variables (this begin end_ : Z).
Hypothesis Hregion : region_ok this begin end_.

Lemma reachable_allocate_keeps (fuel : nat) (m m' : mem) (live : list Z)
    (N p : Z) :
  reachable this begin end_ m live ->
  0 <= N <= max_request ->
  allocate fuel this m N = Some (p, m') ->
  (forall q y, In q live -> q - 8 <= y < q + usable m q ->
               load m' y = load m y) /\
  (forall y, y <> this -> y < begin \/ end_ <= y -> load m' y = load m y).
Proof.
  intros Hr HN H.
  destruct (needed_nowrap N HN) as (_ & Hn & _).
  destruct (region_aligned _ _ _ Hregion) as ((Hb & _) & _ & He & _ & _).
  cbv zeta in Hb, He.
  destruct (reachable_inv _ _ _ Hregion _ _ Hr)
    as [(_ & cs & fl & Hwf & _ & _ & Hlive) | (_ & _ & Hsmall)].
  - set (F := Nat.max fuel (S (length fl))).
    apply (allocate_mono fuel F) in H; [| unfold F; lia].
    pose proof (allocate_frame _ _ _ F m m' cs fl N p Hwf Hn
                  ltac:(unfold F; lia) H) as Hfr.
    split.
    + intros q y Hq Hy. apply Hfr.
      apply Hlive, live_ptrs_In in Hq. destruct Hq as (c & Hc & Hu & ->).
      rewrite (usable_chunk _ _ _ _ _ _ c Hwf Hc) in Hy.
      apply (used_kept _ _ _ m cs fl c y Hwf Hc Hu). lia.
    + intros y Hy Hout. apply Hfr.
      apply (outside_kept _ _ _ m cs fl y Hwf Hy). lia.
  - assert (E : allocate (S (S fuel)) this m N = Some (0, m)).
    { destruct Hsmall as [H0 | Ht].
      - now apply allocate_empty.
      - now apply (allocate_tiny this _ m fuel N Ht). }
    apply (allocate_mono fuel (S (S fuel))) in H; [| lia].
    rewrite E in H. injection H as _ <-. tauto.
Qed.

Lemma reachable_deallocate_keeps (fuel : nat) (m m' : mem) (live : list Z)
    (p : Z) :
  reachable this begin end_ m live ->
  In p live ->
  deallocate fuel this m p = Some m' ->
  (forall q y, In q live -> q <> p -> q - 8 <= y < q + usable m q ->
               load m' y = load m y) /\
  (forall y, y <> this -> y < begin \/ end_ <= y -> load m' y = load m y).
Proof.
  intros Hr Hp H.
  destruct (region_aligned _ _ _ Hregion) as ((Hb & _) & _ & He & _ & _).
  cbv zeta in Hb, He.
  destruct (reachable_inv _ _ _ Hregion _ _ Hr)
    as [(_ & cs & fl & Hwf & _ & _ & Hlive) | (_ & -> & _)];
    [| contradiction].
  apply Hlive, live_ptrs_In in Hp. destruct Hp as (x & Hx & Hu & ->).
  destruct (in_split _ _ Hx) as (a & b & ->).
  set (F := Nat.max fuel (S (length fl))).
  apply (deallocate_mono fuel F) in H; [| unfold F; lia].
  pose proof (deallocate_frame _ _ _ F m m' a b fl x Hwf Hu
                ltac:(unfold F; lia) H) as Hfr.
  pose proof (wf_tiles _ _ _ _ _ _ Hwf) as Ht.
  destruct (tiles_In _ _ _ _ Ht Hx) as (Hx0 & Hx1 & _).
  split.
  - intros q y Hq Hne Hy.
    apply Hlive, live_ptrs_In in Hq. destruct Hq as (c & Hc & Huc & ->).
    rewrite (usable_chunk _ _ _ _ _ _ c Hwf Hc) in Hy.
    destruct (tiles_disjoint _ _ _ _ _ Ht Hc Hx) as [-> | Hdis];
      [contradiction |].
    apply Hfr; [| lia].
    apply (used_kept _ _ _ m _ fl c y Hwf Hc Huc). lia.
  - intros y Hy Hout. apply Hfr; [| lia].
    apply (outside_kept _ _ _ m _ fl y Hwf Hy). lia.
Qed.

End Safety.

(** The size of a block is read from the word before it. *)
Lemma usable_same (m m' : mem) (q : Z) :
  16 <= q < modulus ->
  load m' (q - 8) = load m (q - 8) ->
  usable m' q = usable m q.
Proof.
  intros Hq E. unfold usable, next, size, thisSize_at, payloadToHeader.
  consts. rewrite (wrap_small (q - 2 * 8)) by lia.
  rewrite (wrap_small (q - 2 * 8 + 8)) by lia.
  replace (q - 2 * 8 + 8) with (q - 8) by lia. now rewrite E.
Qed.

(** * More of the concrete regions *)

Lemma demo_spaced : spaced demo_this [Chunk 4096 128 false].
Proof.
  exact (pwf_spaced _ _ _ _ _ _ _ _ _
           (pwf_of_wf _ _ _ _ [] _ _ demo_fresh_wf)).
Qed.

Lemma demo_after16_alloc :
  allocate 5 demo_this demo_fresh 16 = Some (4112, demo_after16).
Proof. unfold demo_after16, demo_fresh. vm_compute. reflexivity. Qed.

Lemma demo_after16_wf :
  wf demo_this 4096 4224 demo_after16
     [Chunk 4096 32 true; Chunk 4128 96 false] [Chunk 4128 96 false].
Proof.
  destruct (allocate_idle demo_this 4096 4224 128 3 demo_fresh 16
              demo_fresh_wf) as (m' & E & Hwf).
  - vm_compute. congruence.
  - pose proof demo_after16_alloc as A.
    set (d := demo_after16) in *. set (f := demo_fresh) in *.
    clearbody d f. rewrite A in E.
    assert (Em : d = m') by congruence. subst m'.
    apply Hwf. vm_compute. congruence.
Qed.

Lemma demo_after16_reachable :
  reachable demo_this demo_begin demo_end demo_after16 [4112].
Proof.
  apply (reach_allocate _ _ _ 5 demo_fresh demo_after16 [] 16 4112
           demo_reachable).
  - vm_compute. split; congruence.
  - exact demo_after16_alloc.
Qed.

Lemma demo_after16_16_alloc :
  allocate 5 demo_this demo_after16 16 = Some (4144, demo_after16_16).
Proof.
  unfold demo_after16_16, demo_after16, demo_fresh. vm_compute. reflexivity.
Qed.

Lemma demo_after16_16_reachable :
  reachable demo_this demo_begin demo_end demo_after16_16 [4144; 4112].
Proof.
  apply (reach_allocate _ _ _ 5 demo_after16 demo_after16_16 [4112] 16 4144
           demo_after16_reachable).
  - vm_compute. split; congruence.
  - exact demo_after16_16_alloc.
Qed.

Lemma tiny_region_ok : region_ok demo_this tiny_begin tiny_end.
Proof.
  unfold region_ok. vm_compute. repeat split; try congruence.
  right. split; congruence.
Qed.

Lemma demo_enough_fuel : enough_fuel demo_begin demo_end 5.
Proof. vm_compute. reflexivity. Qed.

Lemma demo_after_free_eq :
  deallocate 5 demo_this demo_after16_16 4144 = Some demo_after_free.
Proof.
  destruct (deallocate_total _ _ _ 5 demo_after16_16 [4144; 4112] 4144
              (reachable_inv _ _ _ demo_region_ok _ _
                 demo_after16_16_reachable)
              (or_introl eq_refl) demo_enough_fuel) as (m' & E).
  unfold demo_after_free. now rewrite E.
Qed.

(** * Following calls on a well-formed heap *)

Lemma tiles_nodup (cs : list chunk) :
  forall h hend, tiles h cs hend -> NoDup (map addr cs).
Proof.
  induction cs as [| c cs IH]; intros h hend H; simpl; [constructor |].
  pose proof H as H'. simpl in H. destruct H as (Ha & Hs & _ & Ht).
  constructor; [| exact (IH _ _ Ht)].
  rewrite in_map_iff. intros (d & Ed & Hd).
  destruct (tiles_In _ _ _ _ Ht Hd) as (? & _). consts. lia.
Qed.

Lemma split_unique (x : chunk) (a : list chunk) :
  forall a' b b',
    NoDup (map addr (a ++ x :: b)) ->
    a ++ x :: b = a' ++ x :: b' -> a = a' /\ b = b'.
Proof.
  induction a as [| c a IH]; intros a' b b' Hnd E.
  - destruct a' as [| c' a']; simpl in E.
    + injection E as ->. tauto.
    + injection E as -> ->. exfalso. simpl in Hnd. inversion Hnd as [| ? ? Hx _].
      apply Hx. rewrite map_app. apply in_or_app. right. simpl. tauto.
  - destruct a' as [| c' a']; simpl in E.
    + injection E as -> _. exfalso. simpl in Hnd. inversion Hnd as [| ? ? Hx _].
      apply Hx. rewrite map_app. apply in_or_app. right. simpl. tauto.
    + injection E as -> E. simpl in Hnd. inversion Hnd as [| ? ? _ Hnd'].
      destruct (IH a' b b' Hnd' E) as (-> & ->). tauto.
Qed.

Section Following.

Variables (this h0 hend : Z).

Lemma allocate_at_eq (fuel : nat) (m m' : mem) (a b fl pre post : list chunk)
    (x : chunk) (N p : Z) :
  wf this h0 hend m (a ++ x :: b) fl ->
  sizeof_Header <= needed N ->
  (length fl < fuel)%nat ->
  first_fit (needed N) fl = Some (pre, x, post) ->
  allocate fuel this m N = Some (p, m') ->
  p = addr x + 16 /\
  wf this h0 hend m' (a ++ carve (needed N) x ++ b)
     (relink (needed N) x (pre ++ post)).
Proof.
  intros Hwf Hn Hfuel Hfit Ha.
  pose proof (allocate_spec this h0 hend fuel m _ fl N Hwf Hn Hfuel) as Hspec.
  rewrite Hfit in Hspec.
  destruct Hspec as (a' & b' & m'' & E & _ & Ea & Hwf').
  rewrite Ea in Ha. injection Ha as <- <-.
  destruct (split_unique x a a' b b') as (-> & ->); [| exact E |].
  - exact (tiles_nodup _ _ _ (wf_tiles _ _ _ _ _ _ Hwf)).
  - tauto.
Qed.

Lemma allocate_at (fuel : nat) (m : mem) (a b fl pre post : list chunk)
    (x : chunk) (N : Z) :
  wf this h0 hend m (a ++ x :: b) fl ->
  sizeof_Header <= needed N ->
  (length fl < fuel)%nat ->
  first_fit (needed N) fl = Some (pre, x, post) ->
  allocate fuel this m N
    = Some (addr x + 16, after_allocate fuel this m N) /\
  wf this h0 hend (after_allocate fuel this m N)
     (a ++ carve (needed N) x ++ b) (relink (needed N) x (pre ++ post)).
Proof.
  intros Hwf Hn Hfuel Hfit.
  pose proof (allocate_spec this h0 hend fuel m _ fl N Hwf Hn Hfuel) as Hspec.
  rewrite Hfit in Hspec.
  destruct Hspec as (a' & b' & m'' & _ & _ & Ea & _).
  destruct (allocate_at_eq fuel m m'' a b fl pre post x N _
              Hwf Hn Hfuel Hfit Ea) as (_ & Hwf').
  unfold after_allocate. rewrite Ea. tauto.
Qed.

Lemma deallocate_at_eq (fuel : nat) (m m' : mem) (a b fl : list chunk)
    (x : chunk) :
  wf this h0 hend m (a ++ x :: b) fl ->
  used x = true ->
  (length fl < fuel)%nat ->
  deallocate fuel this m (addr x + 16) = Some m' ->
  let '(a1, M, b1) := coalesce a x b in
  wf this h0 hend m' (a1 ++ M :: b1) (insert M (unlinked a b fl)).
Proof.
  intros Hwf Hu Hfuel Hd.
  destruct (deallocate_spec this h0 hend fuel m a b fl x Hwf Hu Hfuel)
    as (m'' & E & Hwf').
  rewrite E in Hd. injection Hd as <-. exact Hwf'.
Qed.

Lemma deallocate_at (fuel : nat) (m : mem) (a b fl : list chunk)
    (x : chunk) :
  wf this h0 hend m (a ++ x :: b) fl ->
  used x = true ->
  (length fl < fuel)%nat ->
  deallocate fuel this m (addr x + 16)
    = Some (after_deallocate fuel this m (addr x + 16)) /\
  let '(a1, M, b1) := coalesce a x b in
  wf this h0 hend (after_deallocate fuel this m (addr x + 16))
     (a1 ++ M :: b1) (insert M (unlinked a b fl)).
Proof.
  intros Hwf Hu Hfuel.
  destruct (deallocate_spec this h0 hend fuel m a b fl x Hwf Hu Hfuel)
    as (m'' & E & Hwf').
  unfold after_deallocate. rewrite E. tauto.
Qed.

End Following.

(** * The concrete regions, call by call *)

(** ** The demo region *)

Lemma demo_after16_16_wf :
  wf demo_this 4096 4224 demo_after16_16
     [Chunk 4096 32 true; Chunk 4128 32 true; Chunk 4160 64 false]
     [Chunk 4160 64 false].
Proof.
  refine (proj2 (allocate_at_eq demo_this 4096 4224 5 demo_after16
            demo_after16_16 [Chunk 4096 32 true] [] [Chunk 4128 96 false]
            [] [] (Chunk 4128 96 false) 16 4144 demo_after16_wf _ _ _
            demo_after16_16_alloc)).
  - vm_compute. congruence.
  - simpl. lia.
  - reflexivity.
Qed.

Lemma demo_two_free_step :
  deallocate 5 demo_this demo_after16_16 4112 = Some demo_two_free /\
  wf demo_this 4096 4224 demo_two_free
     [Chunk 4096 32 false; Chunk 4128 32 true; Chunk 4160 64 false]
     [Chunk 4096 32 false; Chunk 4160 64 false].
Proof.
  refine (deallocate_at demo_this 4096 4224 5 demo_after16_16 []
            [Chunk 4128 32 true; Chunk 4160 64 false] [Chunk 4160 64 false]
            (Chunk 4096 32 true) demo_after16_16_wf _ _).
  - reflexivity.
  - simpl. lia.
Qed.

Lemma demo_two_free_reachable :
  reachable demo_this demo_begin demo_end demo_two_free [4144].
Proof.
  exact (reach_deallocate _ _ _ 5 demo_after16_16 demo_two_free
           [4144; 4112] 4112 demo_after16_16_reachable
           (or_intror (or_introl eq_refl)) (proj1 demo_two_free_step)).
Qed.

Lemma demo_idle_step :
  deallocate 5 demo_this demo_two_free 4144 = Some demo_idle /\
  wf demo_this 4096 4224 demo_idle
     [Chunk 4096 128 false] [Chunk 4096 128 false].
Proof.
  refine (deallocate_at demo_this 4096 4224 5 demo_two_free
            [Chunk 4096 32 false] [Chunk 4160 64 false]
            [Chunk 4096 32 false; Chunk 4160 64 false]
            (Chunk 4128 32 true) (proj2 demo_two_free_step) _ _).
  - reflexivity.
  - simpl. lia.
Qed.

Lemma demo_idle_reachable :
  reachable demo_this demo_begin demo_end demo_idle [].
Proof.
  exact (reach_deallocate _ _ _ 5 demo_two_free demo_idle [4144] 4144
           demo_two_free_reachable (or_introl eq_refl)
           (proj1 demo_idle_step)).
Qed.

(** ** The wide region *)

Lemma wide_region_ok : region_ok demo_this wide_begin wide_end.
Proof.
  unfold region_ok. vm_compute. repeat split; try congruence.
  right. split; congruence.
Qed.

Lemma wide_enough_fuel : enough_fuel wide_begin wide_end 9.
Proof. vm_compute. reflexivity. Qed.

Lemma wide0_step :
  DlAllocator 9 demo_this zero_mem wide_begin wide_end = Some wide0 /\
  wf demo_this 4096 4352 wide0
     [Chunk 4096 256 false] [Chunk 4096 256 false].
Proof.
  destruct (constructor_spec demo_this 8 zero_mem wide_begin wide_end
              wide_region_ok) as (m' & E & Hwf).
  - vm_compute. congruence.
  - unfold wide0. rewrite E. split; [reflexivity | exact Hwf].
Qed.

Lemma wide1_step :
  allocate 9 demo_this wide0 16 = Some (4112, wide1) /\
  wf demo_this 4096 4352 wide1
     [Chunk 4096 32 true; Chunk 4128 224 false] [Chunk 4128 224 false].
Proof.
  refine (allocate_at demo_this 4096 4352 9 wide0 [] []
            [Chunk 4096 256 false] [] [] (Chunk 4096 256 false) 16
            (proj2 wide0_step) _ _ _).
  - vm_compute. congruence.
  - simpl. lia.
  - reflexivity.
Qed.

Lemma wide2_step :
  allocate 9 demo_this wide1 16 = Some (4144, wide2) /\
  wf demo_this 4096 4352 wide2
     [Chunk 4096 32 true; Chunk 4128 32 true; Chunk 4160 192 false]
     [Chunk 4160 192 false].
Proof.
  refine (allocate_at demo_this 4096 4352 9 wide1 [Chunk 4096 32 true] []
            [Chunk 4128 224 false] [] [] (Chunk 4128 224 false) 16
            (proj2 wide1_step) _ _ _).
  - vm_compute. congruence.
  - simpl. lia.
  - reflexivity.
Qed.

Lemma wide3_step :
  allocate 9 demo_this wide2 48 = Some (4176, wide3) /\
  wf demo_this 4096 4352 wide3
     [Chunk 4096 32 true; Chunk 4128 32 true; Chunk 4160 64 true;
      Chunk 4224 128 false]
     [Chunk 4224 128 false].
Proof.
  refine (allocate_at demo_this 4096 4352 9 wide2
            [Chunk 4096 32 true; Chunk 4128 32 true] []
            [Chunk 4160 192 false] [] [] (Chunk 4160 192 false) 48
            (proj2 wide2_step) _ _ _).
  - vm_compute. congruence.
  - simpl. lia.
  - reflexivity.
Qed.

Lemma wide4_step :
  allocate 9 demo_this wide3 16 = Some (4240, wide4) /\
  wf demo_this 4096 4352 wide4
     [Chunk 4096 32 true; Chunk 4128 32 true; Chunk 4160 64 true;
      Chunk 4224 32 true; Chunk 4256 96 false]
     [Chunk 4256 96 false].
Proof.
  refine (allocate_at demo_this 4096 4352 9 wide3
            [Chunk 4096 32 true; Chunk 4128 32 true; Chunk 4160 64 true] []
            [Chunk 4224 128 false] [] [] (Chunk 4224 128 false) 16
            (proj2 wide3_step) _ _ _).
  - vm_compute. congruence.
  - simpl. lia.
  - reflexivity.
Qed.

Lemma wide5_step :
  deallocate 9 demo_this wide4 4112 = Some wide5 /\
  wf demo_this 4096 4352 wide5
     [Chunk 4096 32 false; Chunk 4128 32 true; Chunk 4160 64 true;
      Chunk 4224 32 true; Chunk 4256 96 false]
     [Chunk 4096 32 false; Chunk 4256 96 false].
Proof.
  refine (deallocate_at demo_this 4096 4352 9 wide4 []
            [Chunk 4128 32 true; Chunk 4160 64 true; Chunk 4224 32 true;
             Chunk 4256 96 false]
            [Chunk 4256 96 false] (Chunk 4096 32 true)
            (proj2 wide4_step) _ _).
  - reflexivity.
  - simpl. lia.
Qed.

Lemma wide_three_step :
  deallocate 9 demo_this wide5 4176 = Some wide_three /\
  wf demo_this 4096 4352 wide_three
     [Chunk 4096 32 false; Chunk 4128 32 true; Chunk 4160 64 false;
      Chunk 4224 32 true; Chunk 4256 96 false]
     [Chunk 4096 32 false; Chunk 4160 64 false; Chunk 4256 96 false].
Proof.
  refine (deallocate_at demo_this 4096 4352 9 wide5
            [Chunk 4096 32 false; Chunk 4128 32 true]
            [Chunk 4224 32 true; Chunk 4256 96 false]
            [Chunk 4096 32 false; Chunk 4256 96 false] (Chunk 4160 64 true)
            (proj2 wide5_step) _ _).
  - reflexivity.
  - simpl. lia.
Qed.

Lemma wide_three_reachable :
  reachable demo_this wide_begin wide_end wide_three [4240; 4144].
Proof.
  pose proof (reach_new _ _ _ 9 zero_mem wide0 (proj1 wide0_step)) as R0.
  assert (HN : forall N, N = 16 \/ N = 48 -> 0 <= N <= max_request).
  { intros N [-> | ->]; vm_compute; split; congruence. }
  pose proof (reach_allocate _ _ _ 9 wide0 wide1 [] 16 4112 R0
                (HN 16 (or_introl eq_refl)) (proj1 wide1_step)) as R1.
  pose proof (reach_allocate _ _ _ 9 wide1 wide2 _ 16 4144 R1
                (HN 16 (or_introl eq_refl)) (proj1 wide2_step)) as R2.
  pose proof (reach_allocate _ _ _ 9 wide2 wide3 _ 48 4176 R2
                (HN 48 (or_intror eq_refl)) (proj1 wide3_step)) as R3.
  pose proof (reach_allocate _ _ _ 9 wide3 wide4 _ 16 4240 R3
                (HN 16 (or_introl eq_refl)) (proj1 wide4_step)) as R4.
  pose proof (reach_deallocate _ _ _ 9 wide4 wide5 _ 4112 R4
                (or_intror (or_intror (or_intror (or_introl eq_refl))))
                (proj1 wide5_step)) as R5.
  exact (reach_deallocate _ _ _ 9 wide5 wide_three _ 4176 R5
           (or_intror (or_introl eq_refl)) (proj1 wide_three_step)).
Qed.

(** ** The wide region with two free chunks of one size *)

Lemma ties3_step :
  allocate 9 demo_this wide2 16 = Some (4176, ties3) /\
  wf demo_this 4096 4352 ties3
     [Chunk 4096 32 true; Chunk 4128 32 true; Chunk 4160 32 true;
      Chunk 4192 160 false]
     [Chunk 4192 160 false].
Proof.
  refine (allocate_at demo_this 4096 4352 9 wide2
            [Chunk 4096 32 true; Chunk 4128 32 true] []
            [Chunk 4160 192 false] [] [] (Chunk 4160 192 false) 16
            (proj2 wide2_step) _ _ _).
  - vm_compute. congruence.
  - simpl. lia.
  - reflexivity.
Qed.

Lemma ties4_step :
  allocate 9 demo_this ties3 16 = Some (4208, ties4) /\
  wf demo_this 4096 4352 ties4
     [Chunk 4096 32 true; Chunk 4128 32 true; Chunk 4160 32 true;
      Chunk 4192 32 true; Chunk 4224 128 false]
     [Chunk 4224 128 false].
Proof.
  refine (allocate_at demo_this 4096 4352 9 ties3
            [Chunk 4096 32 true; Chunk 4128 32 true; Chunk 4160 32 true] []
            [Chunk 4192 160 false] [] [] (Chunk 4192 160 false) 16
            (proj2 ties3_step) _ _ _).
  - vm_compute. congruence.
  - simpl. lia.
  - reflexivity.
Qed.

Lemma ties5_step :
  allocate 9 demo_this ties4 16 = Some (4240, ties5) /\
  wf demo_this 4096 4352 ties5
     [Chunk 4096 32 true; Chunk 4128 32 true; Chunk 4160 32 true;
      Chunk 4192 32 true; Chunk 4224 32 true; Chunk 4256 96 false]
     [Chunk 4256 96 false].
Proof.
  refine (allocate_at demo_this 4096 4352 9 ties4
            [Chunk 4096 32 true; Chunk 4128 32 true; Chunk 4160 32 true;
             Chunk 4192 32 true] []
            [Chunk 4224 128 false] [] [] (Chunk 4224 128 false) 16
            (proj2 ties4_step) _ _ _).
  - vm_compute. congruence.
  - simpl. lia.
  - reflexivity.
Qed.

Lemma ties6_step :
  deallocate 9 demo_this ties5 4112 = Some ties6 /\
  wf demo_this 4096 4352 ties6
     [Chunk 4096 32 false; Chunk 4128 32 true; Chunk 4160 32 true;
      Chunk 4192 32 true; Chunk 4224 32 true; Chunk 4256 96 false]
     [Chunk 4096 32 false; Chunk 4256 96 false].
Proof.
  refine (deallocate_at demo_this 4096 4352 9 ties5 []
            [Chunk 4128 32 true; Chunk 4160 32 true; Chunk 4192 32 true;
             Chunk 4224 32 true; Chunk 4256 96 false]
            [Chunk 4256 96 false] (Chunk 4096 32 true)
            (proj2 ties5_step) _ _).
  - reflexivity.
  - simpl. lia.
Qed.

Lemma wide_ties_step :
  deallocate 9 demo_this ties6 4176 = Some wide_ties /\
  wf demo_this 4096 4352 wide_ties
     [Chunk 4096 32 false; Chunk 4128 32 true; Chunk 4160 32 false;
      Chunk 4192 32 true; Chunk 4224 32 true; Chunk 4256 96 false]
     [Chunk 4160 32 false; Chunk 4096 32 false; Chunk 4256 96 false].
Proof.
  refine (deallocate_at demo_this 4096 4352 9 ties6
            [Chunk 4096 32 false; Chunk 4128 32 true]
            [Chunk 4192 32 true; Chunk 4224 32 true; Chunk 4256 96 false]
            [Chunk 4096 32 false; Chunk 4256 96 false] (Chunk 4160 32 true)
            (proj2 ties6_step) _ _).
  - reflexivity.
  - simpl. lia.
Qed.

(** ** A free list with one chunk taken out *)

Lemma spaced_perm (slot : Z) (l l' : list chunk) :
  spaced slot l ->
  (forall c, In c l' -> In c l) ->
  NoDup (map addr l') ->
  spaced slot l'.
Proof.
  intros [H1 H2 H3 H4] Hin Hnd. split.
  - intros c Hc. now apply H1, Hin.
  - intros c Hc. now apply H2, Hin.
  - intros c c' Hc Hc'. apply H3; now apply Hin.
  - exact Hnd.
Qed.

Lemma unlinked_ready (this h0 hend : Z) (m : mem) (cs fl f1 f2 : list chunk)
    (n : chunk) :
  wf this h0 hend m cs fl ->
  fl = f1 ++ n :: f2 ->
  spaced this (f1 ++ n :: f2) /\
  flist m this (f1 ++ n :: f2) /\
  spaced this (n :: f1 ++ f2) /\
  flist (unlink m (addr n)) this (f1 ++ f2) /\
  (forall c, In c (f1 ++ f2) ->
             size (unlink m (addr n)) (addr c) = csize c) /\
  size (unlink m (addr n)) (addr n) = csize n.
Proof.
  intros Hwf E.
  pose proof (pwf_spaced _ _ _ _ _ _ _ _ _
                (pwf_of_wf _ _ _ _ [] _ _ Hwf)) as Hsp.
  pose proof (wf_flist _ _ _ _ _ _ Hwf) as Hfl.
  rewrite E in Hsp, Hfl.
  assert (Hsp' : spaced this (n :: f1 ++ f2)).
  { apply (spaced_perm this (f1 ++ n :: f2)); [exact Hsp | |].
    - intros c [<- | Hc]; [apply in_elt |].
      apply in_app_or in Hc. apply in_or_app. simpl. tauto.
    - apply (Permutation_NoDup (l := map addr (f1 ++ n :: f2)));
        [| exact (sp_nodup _ _ Hsp)].
      apply Permutation_map. symmetry. apply Permutation_middle. }
  destruct (unlink_spec m n f2 f1 this Hsp Hfl) as (Hfl' & Hfr).
  assert (Hsz : forall c, In c (n :: f1 ++ f2) ->
            size (unlink m (addr n)) (addr c) = csize c).
  { intros c Hc.
    assert (Hcfl : In c fl).
    { rewrite E. destruct Hc as [<- | Hc]; [apply in_elt |].
      apply in_app_or in Hc. apply in_or_app. simpl. tauto. }
    apply (wf_free _ _ _ _ _ _ Hwf) in Hcfl. destruct Hcfl as (Hccs & _).
    rewrite <- (wf_size _ _ _ _ _ _ Hwf c Hccs).
    unfold size. f_equal. apply Hfr.
    intros Ht.
    apply (touches_spaced _ _ _ (spaced_remove _ _ _ _ Hsp)) in Ht.
    destruct (sp_range _ _ Hsp' c Hc) as (Hc0 & Hc1).
    pose proof (sp_slot _ _ Hsp' c Hc) as Hcs.
    unwrap_at (addr c). consts.
    destruct Ht as [Ht | (c' & Hc' & Ht)]; [lia |].
    assert (Hc'' : In c' (n :: f1 ++ f2)) by now right.
    destruct (sp_far _ _ Hsp' c c' Hc Hc'') as [He | Hf];
      [| unfold far in Hf; consts]; lia. }
  split; [exact Hsp |]. split; [exact Hfl |]. split; [exact Hsp' |].
  split; [exact Hfl' |]. split.
  - intros c Hc. apply Hsz. now right.
  - apply Hsz. now left.
Qed.

(** * The claims of the specification *)

(** C10: the size [allocate] looks for is computed in 64-bit unsigned
    arithmetic: the request is clamped to the minimum allocation size, the
    two size fields are added and the sum is rounded up to the maximum
    alignment, each step modulo [2^64]; so there is a request within
    [2 * sizeof(size_type) + max_alignment] of the largest word whose
    needed size is smaller than the request itself. *)
Theorem needed_wraps :
  (forall N, needed N = needed_by_steps N) /\
  exists N, 0 <= N < modulus /\
            modulus - 1 - N <= 2 * sizeof_size_type + max_alignment /\
            needed N < N.
Proof.
  split.
  - intros N. unfold needed, needed_by_steps. cbv zeta.
    replace (if N <=? minimum_alloc_size then minimum_alloc_size else N)
      with (Z.max N minimum_alloc_size)
      by (destruct (Z.leb_spec N minimum_alloc_size); lia).
    rewrite wrap_sub_l.
    rewrite land_neg_max_alignment by apply wrap_range.
    unfold wrap, modulus, max_alignment. do 3 f_equal. lia.
  - exists (modulus - 1). vm_compute. repeat split; congruence.
Qed.

(** C7: when the aligned end does not exceed the aligned begin, the
    constructor returns with the free list empty, and every later sequence
    of [allocate] calls, whatever the sizes, returns null pointers only
    and changes nothing. *)
Theorem degenerate_region (fuel fuel' : nat) (this : Z) (m : mem)
    (begin end_ : Z) (ops : list op) :
  align_end end_ <= align_begin begin ->
  Forall is_Allocate ops ->
  exists m0,
    DlAllocator fuel this m begin end_ = Some m0 /\
    load m0 this = 0 /\
    run (S fuel') this m0 ops = Some (map (fun _ => 0) ops, m0).
Proof. apply constructor_degenerate. Qed.

(** Witness for C7: a region of four bytes. *)
Lemma degenerate_region_witness :
  exists m0,
    DlAllocator 0 demo_this zero_mem 4096 4100 = Some m0 /\
    load m0 demo_this = 0 /\
    run 1 demo_this m0 [Allocate 1; Allocate 100] = Some ([0; 0], m0).
Proof.
  apply (degenerate_region 0 0 demo_this zero_mem 4096 4100
           [Allocate 1; Allocate 100]).
  - vm_compute. congruence.
  - repeat constructor.
Defined.




(** * What a wrapped request does

    A request above [max_request] wraps in [needed] to a chunk size of 0
    or 16 bytes.  The evaluations below run the code on the
    concrete regions. *)

(** C1: in the fresh demo region [allocate (2^64 - 1)] returns the
    non-null pointer 4112, and no byte lies between that address and the
    header of the next chunk. *)
Theorem wrapped_request_gets_no_bytes :
  exists m,
    allocate 2 demo_this demo_fresh (modulus - 1) = Some (4112, m) /\
    usable m 4112 = 0.
Proof.
  eexists. split.
  - unfold demo_fresh. vm_compute. reflexivity.
  - vm_compute. reflexivity.
Qed.

(** C4: after [allocate (2^64 - 1)], [allocate 16] and [deallocate] of
    the first block the size field of the second, live, block holds the
    address of the allocator object; the walk over the chunks leaves the
    region, where before it met chunks of 16, 32 and 80 bytes. *)
Theorem wrapped_request_breaks_tiling :
  exists m1 m2,
    run 2 demo_this demo_fresh [Allocate (modulus - 1); Allocate 16]
      = Some ([4112; 4128], m1) /\
    chunk_sizes 4 m1 4096 4224 = Some [16; 32; 80] /\
    deallocate 2 demo_this m1 4112 = Some m2 /\
    size m2 (payloadToHeader 4128) = demo_this /\
    forall fuel, chunk_sizes fuel m2 4096 4224 = None.
Proof.
  eexists. eexists. split; [| split; [| split; [| split]]].
  - unfold demo_fresh. vm_compute. reflexivity.
  - vm_compute. reflexivity.
  - vm_compute. reflexivity.
  - vm_compute. reflexivity.
  - intros [| [| [| fuel]]]; vm_compute; reflexivity.
Qed.

(** C6: in a region with 96 interior bytes, [allocate (2^64 - 16)]
    returns the payload address of a chunk it leaves in the free list;
    after the sequence below the free list holds a chunk of size 4160
    before a chunk of size 64. *)
Theorem wrapped_request_unsorts_free_list :
  exists m0 m,
    DlAllocator 2 demo_this zero_mem 4096 4224 = Some m0 /\
    run 2 demo_this m0
        [Allocate 16; Allocate (modulus - 16); Deallocate 4112;
         Allocate 32; Deallocate 4144]
      = Some ([4112; 4144; 4112], m) /\
    free_sizes 3 m (load m demo_this) = Some [4160; 64].
Proof.
  eexists. eexists. split; [| split].
  - vm_compute. reflexivity.
  - vm_compute. reflexivity.
  - vm_compute. reflexivity.
Qed.

(** C3: in a region with 16 interior bytes [allocate (2^64 - 1)] needs
    16 bytes and succeeds with the only chunk.  [deallocate] then takes
    the end sentinel, whose size field the constructor overwrote with the
    list pointer of the first chunk, for a free chunk and unlinks it
    through the two words behind it, which the allocator never wrote.
    With zeros there the second [allocate] returns 4112 again; with the
    words of [stale_mem] it returns 4144. *)
Theorem wrapped_round_trip_moves :
  align_end tiny_end - align_begin tiny_begin = 16 /\
  returns 3 demo_this zero_mem tiny_begin tiny_end
    [Allocate (modulus - 1); Deallocate 4112; Allocate (modulus - 1)]
    = Some [4112; 4112] /\
  returns 3 demo_this stale_mem tiny_begin tiny_end
    [Allocate (modulus - 1); Deallocate 4112; Allocate (modulus - 1)]
    = Some [4112; 4144].
Proof. repeat split; vm_compute; reflexivity. Qed.

(** C2: in the demo region [allocate (2^64 - 16)] returns 4112 and
    [deallocate] of that pointer links the chunk at 4096 in front of
    itself.  The free list then holds that one chunk, of 128 bytes, which
    does not reach the 1024 bytes a request of 1000 bytes needs; but
    [allocate 1000] does not return null: its search has no result,
    whatever the number of steps it is given. *)
Theorem exhausted_search_never_ends :
  exists m1 m2,
    allocate 2 demo_this demo_fresh (modulus - 16) = Some (4112, m1) /\
    deallocate 1 demo_this m1 4112 = Some m2 /\
    load m2 demo_this = 4096 /\
    load m2 (nextFree_at 4096) = 4096 /\
    size m2 4096 = 128 /\
    needed 1000 = 1024 /\
    forall fuel, allocate fuel demo_this m2 1000 = None.
Proof.
  assert (Eb : align_begin demo_begin = 4112) by (vm_compute; reflexivity).
  assert (Ee : align_end demo_end = 4240) by (vm_compute; reflexivity).
  destruct (wrapped_free_states demo_this demo_begin demo_end
              demo_region_ok ltac:(vm_compute; congruence)
              2 0 zero_mem demo_fresh (modulus - 16) demo_fresh_eq
              ltac:(vm_compute; reflexivity))
    as (Hgeo & _ & m1 & m2 & E1 & _ & E2 & Hself).
  rewrite Eb, Ee in *.
  change (4112 - 16) with 4096 in *. change (4240 - 4112) with 128 in *.
  destruct (cycle_facts demo_this 4096 128 Hgeo m2 Hself) as (F1 & F2 & F3).
  exists m1, m2.
  split; [exact E1 |]. split; [exact E2 |]. split; [exact F1 |].
  split; [exact F2 |]. split; [exact F3 |].
  split; [vm_compute; reflexivity |].
  apply (allocate_cycle demo_this 4096 128 Hgeo m2 1000 Hself).
  vm_compute. reflexivity.
Qed.

(** C8: in the fresh demo region [allocate (2^64 - 16)] needs 0 bytes
    and matches the free chunk of 128 bytes at 4096; what is left of it
    after the needed size is 128 bytes, at least a header.  The call
    returns the payload address 4112, but no front portion is marked
    used: afterwards the size field of the chunk holds 128 with the flag
    clear, and the chunk is the head of the free list. *)
Theorem wrapped_request_marks_nothing_used :
  exists m1,
    needed (modulus - 16) = 0 /\
    size demo_fresh 4096 = 128 /\
    sizeof_Header <= size demo_fresh 4096 - needed (modulus - 16) /\
    allocate 2 demo_this demo_fresh (modulus - 16) = Some (4112, m1) /\
    load m1 (thisSize_at 4096) = 128 /\
    Z.land (load m1 (thisSize_at 4096)) InUse = 0 /\
    size m1 4096 = 128 /\
    load m1 demo_this = 4096.
Proof.
  assert (Eb : align_begin demo_begin = 4112) by (vm_compute; reflexivity).
  assert (Ee : align_end demo_end = 4240) by (vm_compute; reflexivity).
  assert (En : needed (modulus - 16) = 0) by (vm_compute; reflexivity).
  destruct (wrapped_free_states demo_this demo_begin demo_end
              demo_region_ok ltac:(vm_compute; congruence)
              2 0 zero_mem demo_fresh (modulus - 16) demo_fresh_eq En)
    as (Hgeo & H0 & m1 & m2 & E1 & H1 & _).
  rewrite Eb, Ee in *.
  change (4112 - 16) with 4096 in *. change (4240 - 4112) with 128 in *.
  destruct (one_free_facts demo_this 4096 128 Hgeo _ H0) as (_ & _ & _ & S0).
  destruct (one_free_facts demo_this 4096 128 Hgeo _ H1)
    as (F1 & F2 & F3 & F4).
  exists m1. rewrite En, S0.
  split; [reflexivity |]. split; [reflexivity |].
  split; [vm_compute; congruence |]. tauto.
Qed.

(** C9: in the region with 16 interior bytes and the words of
    [stale_mem_odd] behind the end sentinel, [allocate (2^64 - 1)]
    returns 4112 and [deallocate] of that pointer unlinks the end
    sentinel through the stale words, which puts the address 4120 into
    the free list.  The request of 16 bytes that follows is served from
    there and returns 4136, which is no multiple of 16. *)
Theorem wrapped_request_misaligns :
  align_end tiny_end - align_begin tiny_begin = 16 /\
  returns 4 demo_this stale_mem_odd tiny_begin tiny_end
    [Allocate (modulus - 1); Deallocate 4112; Allocate 16]
    = Some [4112; 4136] /\
  4136 mod max_alignment = 8.
Proof. repeat split; vm_compute; reflexivity. Qed.

(** * Further properties of the code *)

(** ** The header operations *)

(** X1: [toPayload] and [payloadToHeader] are inverse to each other on
    every 64-bit address, the ones where the 16 bytes wrap included. *)
Theorem payload_header_round_trip (p : Z) :
  0 <= p < modulus ->
  toPayload (payloadToHeader p) = p /\ payloadToHeader (toPayload p) = p.
Proof.
  intros Hp. split.
  - now apply toPayload_payloadToHeader.
  - now apply payloadToHeader_toPayload.
Qed.

Lemma payload_header_round_trip_witness :
  toPayload (payloadToHeader 8) = 8 /\ payloadToHeader (toPayload 8) = 8.
Proof.
  apply (payload_header_round_trip 8). vm_compute. split; congruence.
Defined.

(** X2: after [setSize], with either tag, [size] of the chunk and
    [previousSize] of the chunk that follows it return the size that was
    set, and the flag bit of both words tells used from free.  This holds
    for a header at a multiple of 8 and a size that is a multiple of 8:
    the two words the operation writes are then one word (size 8) or do
    not overlap. *)
Theorem setSize_then_size (m : mem) (h s : Z) :
  0 <= h < modulus -> h mod 8 = 0 ->
  0 <= s < modulus -> s mod 8 = 0 ->
  let mu := setSize_used m h s in
  let mf := setSize_free m h s in
  (size mu h = s /\
   Z.land (load mu (thisSize_at h)) InUse = 1 /\
   previousSize mu (next mu h) = s /\
   Z.land (load mu (prevSize_at (next mu h))) InUse = 1) /\
  (size mf h = s /\
   Z.land (load mf (thisSize_at h)) InUse = 0 /\
   previousSize mf (next mf h) = s /\
   Z.land (load mf (prevSize_at (next mf h))) InUse = 0).
Proof.
  intros _ _ Hs H8.
  assert (He : s mod 2 = 0).
  { rewrite (Z.div_mod s 8) by lia. rewrite H8.
    replace (8 * (s / 8) + 0) with (s / 8 * 4 * 2) by lia.
    apply Z.mod_mul. lia. }
  split.
  - exact (setSize_read m h s true Hs He).
  - exact (setSize_read m h s false Hs He).
Qed.

Lemma setSize_then_size_witness :
  let mu := setSize_used zero_mem 4096 48 in
  let mf := setSize_free zero_mem 4096 48 in
  (size mu 4096 = 48 /\
   Z.land (load mu (thisSize_at 4096)) InUse = 1 /\
   previousSize mu (next mu 4096) = 48 /\
   Z.land (load mu (prevSize_at (next mu 4096))) InUse = 1) /\
  (size mf 4096 = 48 /\
   Z.land (load mf (thisSize_at 4096)) InUse = 0 /\
   previousSize mf (next mf 4096) = 48 /\
   Z.land (load mf (prevSize_at (next mf 4096))) InUse = 0).
Proof.
  apply (setSize_then_size zero_mem 4096 48).
  - vm_compute. split; congruence.
  - reflexivity.
  - vm_compute. split; congruence.
  - reflexivity.
Defined.

(** X3: the needed chunk size in closed form.  Up to [2^64 - 32] it is
    the request, raised to 16 if smaller, plus 16 bytes, rounded up to a
    multiple of 16; for the next 16 requests it is 0 and for the last 15
    it is 16. *)
Theorem needed_closed_form (N : Z) :
  0 <= N < modulus ->
  needed N =
  if N <=? max_request then 16 * ((Z.max N 16 + 31) / 16)
  else if N <=? modulus - 16 then 0 else 16.
Proof. apply needed_closed. Qed.

Lemma needed_closed_form_witness :
  needed 100 =
  if 100 <=? max_request then 16 * ((Z.max 100 16 + 31) / 16)
  else if 100 <=? modulus - 16 then 0 else 16.
Proof.
  apply (needed_closed_form 100). vm_compute. split; congruence.
Defined.

(** X4: [unlink] takes a chunk out of a doubly linked free list: the list
    pointer then starts the list without the chunk, and no word other
    than the list pointer and the link fields of the remaining chunks
    has changed. *)
Theorem unlink_removes (m : mem) (slot : Z) (f1 f2 : list chunk)
    (n : chunk) :
  spaced slot (f1 ++ n :: f2) ->
  flist m slot (f1 ++ n :: f2) ->
  flist (unlink m (addr n)) slot (f1 ++ f2) /\
  (forall y, ~ touches slot (f1 ++ f2) y ->
             load (unlink m (addr n)) y = load m y).
Proof. intros Hsp Hfl. exact (unlink_spec m n f2 f1 slot Hsp Hfl). Qed.

Lemma unlink_removes_witness :
  flist (unlink wide_three 4160) demo_this
        [Chunk 4096 32 false; Chunk 4256 96 false] /\
  (forall y,
     ~ touches demo_this [Chunk 4096 32 false; Chunk 4256 96 false] y ->
     load (unlink wide_three 4160) y = load wide_three y).
Proof.
  destruct (unlinked_ready demo_this 4096 4352 wide_three _ _
              [Chunk 4096 32 false] [Chunk 4256 96 false]
              (Chunk 4160 64 false) (proj2 wide_three_step) eq_refl)
    as (Hsp & Hfl & _).
  exact (unlink_removes wide_three demo_this [Chunk 4096 32 false]
           [Chunk 4256 96 false] (Chunk 4160 64 false) Hsp Hfl).
Defined.

(** X5: [link] puts a chunk into a free list sorted by size: the loop
    ends within one step per list element, the chunk stands before the
    first element that is not smaller, the list is sorted again and holds
    the chunk and the old elements, and no word other than the list
    pointer and link fields has changed. *)
Theorem link_inserts_sorted (m : mem) (slot : Z) (x : chunk)
    (l : list chunk) (fuel : nat) :
  spaced slot (x :: l) ->
  flist m slot l ->
  (forall c, In c l -> size m (addr c) = csize c) ->
  size m (addr x) = csize x ->
  StronglySorted by_size l ->
  (length l < fuel)%nat ->
  exists m',
    link fuel m (addr x) slot = Some m' /\
    flist m' slot (insert x l) /\
    StronglySorted by_size (insert x l) /\
    (forall c, In c (insert x l) <-> c = x \/ In c l) /\
    (forall y, ~ touches slot (x :: l) y -> load m' y = load m y).
Proof.
  intros Hsp Hfl Hsz Hx Hs Hfuel.
  destruct (link_spec m x l slot fuel Hsp Hfl Hsz Hx Hfuel)
    as (m' & E & Hl & Hfr).
  exists m'. split; [exact E |]. split; [exact Hl |].
  split; [now apply insert_sorted |].
  split; [intros c; apply insert_In | exact Hfr].
Qed.

Lemma link_inserts_sorted_witness :
  exists m',
    link 3 (unlink wide_three 4160) 4160 demo_this = Some m' /\
    flist m' demo_this
      [Chunk 4096 32 false; Chunk 4160 64 false; Chunk 4256 96 false] /\
    StronglySorted by_size
      [Chunk 4096 32 false; Chunk 4160 64 false; Chunk 4256 96 false] /\
    (forall c,
       In c [Chunk 4096 32 false; Chunk 4160 64 false; Chunk 4256 96 false]
       <-> c = Chunk 4160 64 false \/
           In c [Chunk 4096 32 false; Chunk 4256 96 false]) /\
    (forall y,
       ~ touches demo_this
           [Chunk 4160 64 false; Chunk 4096 32 false; Chunk 4256 96 false]
           y ->
       load m' y = load (unlink wide_three 4160) y).
Proof.
  destruct (unlinked_ready demo_this 4096 4352 wide_three _ _
              [Chunk 4096 32 false] [Chunk 4256 96 false]
              (Chunk 4160 64 false) (proj2 wide_three_step) eq_refl)
    as (_ & _ & Hsp & Hfl & Hsz & Hx).
  refine (link_inserts_sorted (unlink wide_three 4160) demo_this
            (Chunk 4160 64 false)
            [Chunk 4096 32 false; Chunk 4256 96 false] 3
            Hsp Hfl Hsz Hx _ _).
  - repeat constructor; unfold by_size; simpl; lia.
  - simpl. lia.
Defined.

(** X6: [unlink] undoes [link]: linking a chunk into a free list and
    unlinking it again leaves the list pointer starting the list it
    started before. *)
Theorem link_then_unlink (m : mem) (slot : Z) (x : chunk) (l : list chunk)
    (fuel : nat) :
  spaced slot (x :: l) ->
  flist m slot l ->
  (forall c, In c l -> size m (addr c) = csize c) ->
  size m (addr x) = csize x ->
  (length l < fuel)%nat ->
  exists m',
    link fuel m (addr x) slot = Some m' /\
    flist (unlink m' (addr x)) slot l.
Proof.
  intros Hsp Hfl Hsz Hx Hf.
  exact (link_unlink m x l slot fuel Hsp Hfl Hsz Hx Hf).
Qed.

Lemma link_then_unlink_witness :
  exists m',
    link 3 (unlink wide_three 4160) 4160 demo_this = Some m' /\
    flist (unlink m' 4160) demo_this
      [Chunk 4096 32 false; Chunk 4256 96 false].
Proof.
  destruct (unlinked_ready demo_this 4096 4352 wide_three _ _
              [Chunk 4096 32 false] [Chunk 4256 96 false]
              (Chunk 4160 64 false) (proj2 wide_three_step) eq_refl)
    as (_ & _ & Hsp & Hfl & Hsz & Hx).
  refine (link_then_unlink (unlink wide_three 4160) demo_this
            (Chunk 4160 64 false)
            [Chunk 4096 32 false; Chunk 4256 96 false] 3
            Hsp Hfl Hsz Hx _).
  simpl. lia.
Defined.

(** X7: a request for exactly the size of the chunk that [link] has just
    inserted finds that chunk: among free chunks of one size the one
    freed last is reused first. *)
Theorem link_then_find (m : mem) (slot : Z) (x : chunk) (l : list chunk)
    (fuel : nat) :
  spaced slot (x :: l) ->
  flist m slot l ->
  (forall c, In c l -> size m (addr c) = csize c) ->
  size m (addr x) = csize x ->
  (length l < fuel)%nat ->
  exists m',
    link fuel m (addr x) slot = Some m' /\
    find_chunk (S fuel) m' (csize x) (load m' slot) = Some (addr x).
Proof.
  intros Hsp Hfl Hsz Hx Hf.
  exact (link_find m x l slot fuel Hsp Hfl Hsz Hx Hf).
Qed.

Lemma link_then_find_witness :
  exists m',
    link 3 (unlink wide_ties 4160) 4160 demo_this = Some m' /\
    find_chunk 4 m' 32 (load m' demo_this) = Some 4160.
Proof.
  destruct (unlinked_ready demo_this 4096 4352 wide_ties _ _
              [] [Chunk 4096 32 false; Chunk 4256 96 false]
              (Chunk 4160 32 false) (proj2 wide_ties_step) eq_refl)
    as (_ & _ & Hsp & Hfl & Hsz & Hx).
  refine (link_then_find (unlink wide_ties 4160) demo_this
            (Chunk 4160 32 false)
            [Chunk 4096 32 false; Chunk 4256 96 false] 3
            Hsp Hfl Hsz Hx _).
  simpl. lia.
Defined.

(** X8: on a well-formed heap [nextIfFree] returns the header of the
    chunk behind a chunk exactly when that chunk exists and is free, and
    [prevIfFree] the header of the chunk before it exactly when that one
    exists and is free; at the first chunk and at the last one the
    sentinels make them return null. *)
Theorem neighbours_exact (this h0 hend : Z) (m : mem)
    (a b fl : list chunk) (x : chunk) :
  wf this h0 hend m (a ++ x :: b) fl ->
  nextIfFree m (addr x) =
    match free_head b with Some (n, _) => addr n | None => 0 end /\
  prevIfFree m (addr x) =
    match free_last a with Some (_, p) => addr p | None => 0 end.
Proof.
  intros Hwf. split.
  - exact (nextIfFree_wf this h0 hend m a b fl x Hwf).
  - exact (prevIfFree_wf this h0 hend m a b fl x Hwf).
Qed.

Lemma neighbours_exact_witness :
  nextIfFree demo_after16 4096 = 4128 /\ prevIfFree demo_after16 4096 = 0.
Proof.
  apply (neighbours_exact demo_this 4096 4224 demo_after16 []
           [Chunk 4128 96 false] [Chunk 4128 96 false] (Chunk 4096 32 true)).
  exact demo_after16_wf.
Defined.

(** ** The constructor *)

(** X9: on a region whose aligned interior holds a header the
    constructor makes the interior one free chunk, alone in the free
    list, between the two sentinels.  The first header is not before
    [begin], the end sentinel ends not after [end], and at most 62 bytes
    of the region are lost to alignment and sentinels. *)
Theorem constructor_one_chunk (this : Z) (fuel : nat) (m : mem)
    (begin end_ : Z) :
  region_ok this begin end_ ->
  sizeof_Header <= align_end end_ - align_begin begin ->
  exists m',
    DlAllocator (S fuel) this m begin end_ = Some m' /\
    wf this (align_begin begin - 16) (align_end end_ - 16) m'
       [Chunk (align_begin begin - 16)
              (align_end end_ - align_begin begin) false]
       [Chunk (align_begin begin - 16)
              (align_end end_ - align_begin begin) false] /\
    begin <= align_begin begin - 16 /\
    align_end end_ <= end_ - 16 /\
    end_ - begin - 62 <= align_end end_ - align_begin begin.
Proof.
  intros Hok HT.
  destruct (constructor_spec this fuel m begin end_ Hok HT)
    as (m' & E & Hwf).
  destruct (region_aligned _ _ _ Hok) as ((Hb & Hb') & He & He' & _).
  cbv zeta in Hb, Hb', He, He'.
  exists m'. split; [exact E |]. split; [exact Hwf |]. lia.
Qed.

Lemma constructor_one_chunk_witness :
  exists m',
    DlAllocator 1 demo_this zero_mem demo_begin demo_end = Some m' /\
    wf demo_this (align_begin demo_begin - 16) (align_end demo_end - 16) m'
       [Chunk (align_begin demo_begin - 16)
              (align_end demo_end - align_begin demo_begin) false]
       [Chunk (align_begin demo_begin - 16)
              (align_end demo_end - align_begin demo_begin) false] /\
    demo_begin <= align_begin demo_begin - 16 /\
    align_end demo_end <= demo_end - 16 /\
    demo_end - demo_begin - 62 <= align_end demo_end - align_begin demo_begin.
Proof.
  apply (constructor_one_chunk demo_this 0 zero_mem demo_begin demo_end).
  - exact demo_region_ok.
  - vm_compute. congruence.
Defined.

(** X10: the constructor returns for every region, degenerate or not,
    with the list pointer null or at the first header, and apart from
    the list pointer it writes no word outside the region it was
    given. *)
Theorem constructor_stays_inside (this : Z) (fuel : nat) (m : mem)
    (begin end_ : Z) :
  region_ok this begin end_ ->
  exists m',
    DlAllocator (S fuel) this m begin end_ = Some m' /\
    load m' this =
      (if align_end end_ <=? align_begin begin then 0
       else align_begin begin - 16) /\
    forall y, y <> this -> y < begin \/ end_ <= y -> load m' y = load m y.
Proof. apply constructor_confined. Qed.

Lemma constructor_stays_inside_witness :
  exists m',
    DlAllocator 1 demo_this zero_mem tiny_begin tiny_end = Some m' /\
    load m' demo_this =
      (if align_end tiny_end <=? align_begin tiny_begin then 0
       else align_begin tiny_begin - 16) /\
    forall y, y <> demo_this -> y < tiny_begin \/ tiny_end <= y ->
              load m' y = load zero_mem y.
Proof.
  apply (constructor_stays_inside demo_this 0 zero_mem tiny_begin tiny_end).
  exact tiny_region_ok.
Defined.

(** X11: a region whose aligned interior is 16 bytes is not degenerate
    for the constructor, which puts a chunk of 16 bytes into the free
    list, but no request of up to [2^64 - 32] bytes is ever served from
    it: [allocate] returns null and changes nothing. *)
Theorem tiny_region_serves_nothing (this : Z) (fuel fuel' : nat) (m : mem)
    (begin end_ N : Z) :
  region_ok this begin end_ ->
  align_end end_ - align_begin begin = 16 ->
  0 <= N <= max_request ->
  exists m0,
    DlAllocator (S fuel) this m begin end_ = Some m0 /\
    load m0 this = align_begin begin - 16 /\
    allocate (S (S fuel')) this m0 N = Some (0, m0).
Proof.
  intros Hok HT HN.
  destruct (needed_nowrap N HN) as (_ & Hn & _).
  destruct (DlAllocator_tiny_spec this fuel m begin end_ Hok HT)
    as (m0 & E & Ht).
  exists m0. split; [exact E |]. split.
  - now destruct Ht as (_ & _ & _ & ? & _).
  - exact (allocate_tiny this _ m0 fuel' N Ht Hn).
Qed.

Lemma tiny_region_serves_nothing_witness :
  exists m0,
    DlAllocator 1 demo_this zero_mem tiny_begin tiny_end = Some m0 /\
    load m0 demo_this = align_begin tiny_begin - 16 /\
    allocate 2 demo_this m0 16 = Some (0, m0).
Proof.
  apply (tiny_region_serves_nothing demo_this 0 0 zero_mem
           tiny_begin tiny_end 16).
  - exact tiny_region_ok.
  - vm_compute. reflexivity.
  - vm_compute. split; congruence.
Defined.

(** ** [allocate] *)

(** X12: the first request on a new allocator succeeds exactly when its
    needed size fits the aligned interior, and then returns the aligned
    begin of the region. *)
Theorem first_allocation (this begin end_ : Z) (fuel : nat) (m m0 : mem)
    (N : Z) :
  region_ok this begin end_ ->
  sizeof_Header <= align_end end_ - align_begin begin ->
  0 <= N <= max_request ->
  enough_fuel begin end_ fuel ->
  DlAllocator fuel this m begin end_ = Some m0 ->
  exists m1,
    allocate fuel this m0 N =
    Some (if needed N <=? align_end end_ - align_begin begin
          then align_begin begin else 0, m1).
Proof.
  intros Hok HT HN Hf Hc.
  destruct (needed_nowrap N HN) as (_ & Hn & _).
  destruct (constructor_spec this fuel m begin end_ Hok HT)
    as (m0' & Ec & Hwf).
  apply (DlAllocator_mono fuel (S fuel)) in Hc; [| lia].
  rewrite Ec in Hc. injection Hc as ->.
  destruct (enough_fuel_two _ _ _ Hf) as (fuel' & ->).
  destruct (allocate_idle _ _ _ _ fuel' m0 N Hwf Hn) as (m1 & E & _).
  exists m1. rewrite E.
  replace (align_begin begin - 16 + 16) with (align_begin begin) by lia.
  reflexivity.
Qed.

Lemma first_allocation_witness :
  exists m1,
    allocate 5 demo_this demo_fresh 16 =
    Some (if needed 16 <=? align_end demo_end - align_begin demo_begin
          then align_begin demo_begin else 0, m1).
Proof.
  apply (first_allocation demo_this demo_begin demo_end 5 zero_mem
           demo_fresh 16).
  - exact demo_region_ok.
  - vm_compute. congruence.
  - vm_compute. split; congruence.
  - exact demo_enough_fuel.
  - apply (DlAllocator_mono 2 5); [lia | exact demo_fresh_eq].
Defined.



(** X14: a block has room for the request and for at most 31 bytes more
    than the request (than 16 bytes when the request is smaller), and
    the number of its bytes is a multiple of 16. *)
Theorem block_size_bounds (this begin end_ : Z) (fuel : nat) (m m' : mem)
    (live : list Z) (N p : Z) :
  region_ok this begin end_ ->
  reachable this begin end_ m live ->
  0 <= N <= max_request ->
  allocate fuel this m N = Some (p, m') ->
  p <> 0 ->
  N <= usable m' p <= Z.max N 16 + 31 /\ usable m' p mod 16 = 0.
Proof.
  intros Hok. exact (reachable_block_size this begin end_ Hok fuel m m' live N p).
Qed.

Lemma block_size_bounds_witness :
  16 <= usable demo_after16 4112 <= Z.max 16 16 + 31 /\
  usable demo_after16 4112 mod 16 = 0.
Proof.
  apply (block_size_bounds demo_this demo_begin demo_end 5 demo_fresh
           demo_after16 [] 16 4112).
  - exact demo_region_ok.
  - exact demo_reachable.
  - vm_compute. split; congruence.
  - exact demo_after16_alloc.
  - congruence.
Defined.

(** ** What holds in every reachable state

    The states below are the ones reached from the constructor by
    requests of at most [2^64 - 32] bytes and by [deallocate] of live
    pointers. *)

(** X15: in every reachable state of a region whose interior holds a
    header the chunks tile the interior, the boundary tags of every chunk
    agree, the free list holds exactly the free chunks, each once and
    sorted by size, no two neighbouring chunks are both free, and the
    live pointers are exactly the payload addresses of the used chunks,
    each once. *)
Theorem reachable_invariant (this begin end_ : Z) (m : mem)
    (live : list Z) :
  region_ok this begin end_ ->
  sizeof_Header <= align_end end_ - align_begin begin ->
  reachable this begin end_ m live ->
  exists cs fl,
    wf this (align_begin begin - 16) (align_end end_ - 16) m cs fl /\
    no_adj cs /\ NoDup live /\
    forall p, In p live <-> In p (live_ptrs cs).
Proof.
  intros Hok HT Hr.
  destruct (reachable_inv _ _ _ Hok _ _ Hr)
    as [(_ & cs & fl & H) | (HT' & _)]; [| lia].
  now exists cs, fl.
Qed.

Lemma reachable_invariant_witness :
  exists cs fl,
    wf demo_this (align_begin demo_begin - 16) (align_end demo_end - 16)
       demo_after16 cs fl /\
    no_adj cs /\ NoDup [4112] /\
    forall p, In p [4112] <-> In p (live_ptrs cs).
Proof.
  apply (reachable_invariant demo_this demo_begin demo_end demo_after16
           [4112]).
  - exact demo_region_ok.
  - vm_compute. congruence.
  - exact demo_after16_reachable.
Defined.

(** X16: in every reachable state the walk from the first header through
    [next] ends at the end sentinel, and the sizes it meets add up to the
    aligned interior. *)
Theorem conservation_regular (this begin end_ : Z) (fuel : nat) (m : mem)
    (live : list Z) :
  region_ok this begin end_ ->
  reachable this begin end_ m live ->
  sizeof_Header <= align_end end_ - align_begin begin ->
  enough_fuel begin end_ fuel ->
  exists sizes,
    chunk_sizes fuel m (align_begin begin - 16) (align_end end_ - 16)
      = Some sizes /\
    sum_sizes sizes = align_end end_ - align_begin begin.
Proof.
  intros Hok. exact (reachable_conservation this begin end_ Hok fuel m live).
Qed.

Lemma conservation_regular_witness :
  exists sizes,
    chunk_sizes 5 demo_after16 (align_begin demo_begin - 16)
      (align_end demo_end - 16) = Some sizes /\
    sum_sizes sizes = align_end demo_end - align_begin demo_begin.
Proof.
  apply (conservation_regular demo_this demo_begin demo_end 5 demo_after16
           [4112]).
  - exact demo_region_ok.
  - exact demo_after16_reachable.
  - vm_compute. congruence.
  - exact demo_enough_fuel.
Defined.

(** X17: in every reachable state the walk through the free list ends at
    the null pointer and meets the sizes in non-decreasing order. *)
Theorem free_list_sorted_regular (this begin end_ : Z) (fuel : nat)
    (m : mem) (live : list Z) :
  region_ok this begin end_ ->
  reachable this begin end_ m live ->
  enough_fuel begin end_ fuel ->
  exists sizes,
    free_sizes fuel m (load m this) = Some sizes /\
    StronglySorted Z.le sizes.
Proof.
  intros Hok. exact (reachable_sorted this begin end_ Hok fuel m live).
Qed.

Lemma free_list_sorted_regular_witness :
  exists sizes,
    free_sizes 9 wide_three (load wide_three demo_this) = Some sizes /\
    StronglySorted Z.le sizes.
Proof.
  apply (free_list_sorted_regular demo_this wide_begin wide_end 9
           wide_three [4240; 4144]).
  - exact wide_region_ok.
  - exact wide_three_reachable.
  - exact wide_enough_fuel.
Defined.

(** X18: in every reachable state [allocate], for a request of at most
    [2^64 - 32] bytes, and [deallocate], for a live pointer, return: their
    loops end within one step per 32 bytes of interior, plus one. *)
Theorem operations_terminate (this begin end_ : Z) (fuel : nat) (m : mem)
    (live : list Z) :
  region_ok this begin end_ ->
  reachable this begin end_ m live ->
  enough_fuel begin end_ fuel ->
  (forall N, 0 <= N <= max_request ->
             exists p m', allocate fuel this m N = Some (p, m')) /\
  (forall p, In p live -> exists m', deallocate fuel this m p = Some m').
Proof.
  intros Hok Hr Hf.
  pose proof (reachable_inv _ _ _ Hok _ _ Hr) as Hinv. split.
  - intros N HN.
    exact (allocate_total this begin end_ fuel m live N Hinv HN Hf).
  - intros p Hp.
    exact (deallocate_total this begin end_ fuel m live p Hinv Hp Hf).
Qed.

Lemma operations_terminate_witness :
  (forall N, 0 <= N <= max_request ->
             exists p m', allocate 5 demo_this demo_after16 N = Some (p, m')) /\
  (forall p, In p [4112] ->
             exists m', deallocate 5 demo_this demo_after16 p = Some m').
Proof.
  apply (operations_terminate demo_this demo_begin demo_end 5 demo_after16
           [4112]).
  - exact demo_region_ok.
  - exact demo_after16_reachable.
  - exact demo_enough_fuel.
Defined.

(** ** The blocks of a client *)



(** X20: [allocate] never returns a pointer that is still live. *)
Theorem allocate_fresh_pointer (this begin end_ : Z) (fuel : nat)
    (m m' : mem) (live : list Z) (N p : Z) :
  region_ok this begin end_ ->
  reachable this begin end_ m live ->
  0 <= N <= max_request ->
  allocate fuel this m N = Some (p, m') ->
  p <> 0 ->
  ~ In p live.
Proof.
  intros Hok. exact (reachable_fresh this begin end_ Hok fuel m m' live N p).
Qed.

Lemma allocate_fresh_pointer_witness : ~ In 4144 [4112].
Proof.
  apply (allocate_fresh_pointer demo_this demo_begin demo_end 5
           demo_after16 demo_after16_16 [4112] 16 4144).
  - exact demo_region_ok.
  - exact demo_after16_reachable.
  - vm_compute. split; congruence.
  - exact demo_after16_16_alloc.
  - congruence.
Defined.

(** X21: [allocate] leaves the blocks of the client alone: the bytes of
    every live block and the size field before it are what they were, so
    every block keeps its contents and its size; and apart from the list
    pointer no word outside the region is written. *)
Theorem allocate_keeps_blocks (this begin end_ : Z) (fuel : nat)
    (m m' : mem) (live : list Z) (N p : Z) :
  region_ok this begin end_ ->
  reachable this begin end_ m live ->
  0 <= N <= max_request ->
  allocate fuel this m N = Some (p, m') ->
  (forall q, In q live ->
     usable m' q = usable m q /\
     forall y, q <= y < q + usable m q -> load m' y = load m y) /\
  (forall y, y <> this -> y < begin \/ end_ <= y -> load m' y = load m y).
Proof.
  intros Hok Hr HN H.
  destruct (reachable_allocate_keeps this begin end_ Hok fuel m m' live N p
              Hr HN H) as (Hin & Hout).
  split; [| exact Hout].
  intros q Hq.
  destruct (reachable_block_inside this begin end_ Hok m live q Hr Hq)
    as (Hq0 & Hq1 & Hq2 & _).
  destruct Hok as (R0 & R1 & R2 & _). consts.
  split.
  - apply usable_same; [lia |]. apply (Hin q); [exact Hq | lia].
  - intros y Hy. apply (Hin q); [exact Hq | lia].
Qed.

Lemma allocate_keeps_blocks_witness :
  (forall q, In q [4112] ->
     usable demo_after16_16 q = usable demo_after16 q /\
     forall y, q <= y < q + usable demo_after16 q ->
               load demo_after16_16 y = load demo_after16 y) /\
  (forall y, y <> demo_this -> y < demo_begin \/ demo_end <= y ->
             load demo_after16_16 y = load demo_after16 y).
Proof.
  apply (allocate_keeps_blocks demo_this demo_begin demo_end 5
           demo_after16 demo_after16_16 [4112] 16 4144).
  - exact demo_region_ok.
  - exact demo_after16_reachable.
  - vm_compute. split; congruence.
  - exact demo_after16_16_alloc.
Defined.

(** X22: [deallocate] leaves the other blocks alone: the bytes of every
    other live block and the size field before it are what they were;
    and apart from the list pointer no word outside the region is
    written. *)
Theorem deallocate_keeps_blocks (this begin end_ : Z) (fuel : nat)
    (m m' : mem) (live : list Z) (p : Z) :
  region_ok this begin end_ ->
  reachable this begin end_ m live ->
  In p live ->
  deallocate fuel this m p = Some m' ->
  (forall q, In q live -> q <> p ->
     usable m' q = usable m q /\
     forall y, q <= y < q + usable m q -> load m' y = load m y) /\
  (forall y, y <> this -> y < begin \/ end_ <= y -> load m' y = load m y).
Proof.
  intros Hok Hr Hp H.
  destruct (reachable_deallocate_keeps this begin end_ Hok fuel m m' live p
              Hr Hp H) as (Hin & Hout).
  split; [| exact Hout].
  intros q Hq Hne.
  destruct (reachable_block_inside this begin end_ Hok m live q Hr Hq)
    as (Hq0 & Hq1 & Hq2 & _).
  destruct Hok as (R0 & R1 & R2 & _). consts.
  split.
  - apply usable_same; [lia |]. apply (Hin q); [exact Hq | exact Hne | lia].
  - intros y Hy. apply (Hin q); [exact Hq | exact Hne | lia].
Qed.

Lemma deallocate_keeps_blocks_witness :
  (forall q, In q [4144; 4112] -> q <> 4144 ->
     usable demo_after_free q = usable demo_after16_16 q /\
     forall y, q <= y < q + usable demo_after16_16 q ->
               load demo_after_free y = load demo_after16_16 y) /\
  (forall y, y <> demo_this -> y < demo_begin \/ demo_end <= y ->
             load demo_after_free y = load demo_after16_16 y).
Proof.
  apply (deallocate_keeps_blocks demo_this demo_begin demo_end 5
           demo_after16_16 demo_after_free [4144; 4112] 4144).
  - exact demo_region_ok.
  - exact demo_after16_16_reachable.
  - simpl. tauto.
  - exact demo_after_free_eq.
Defined.

(** ** [deallocate] *)

(** X23: [deallocate] of a used chunk of a well-formed heap returns and
    leaves a well-formed heap in which the chunk, the free chunk behind
    it and the free chunk before it, where they exist, are one free
    chunk; that chunk stands in the free list at its place by size, and
    the two neighbours are gone from the list. *)
Theorem deallocate_coalesces (this h0 hend : Z) (fuel : nat) (m : mem)
    (a b fl : list chunk) (x : chunk) :
  wf this h0 hend m (a ++ x :: b) fl ->
  used x = true ->
  (length fl < fuel)%nat ->
  exists m',
    deallocate fuel this m (addr x + 16) = Some m' /\
    let '(a1, M, b1) := coalesce a x b in
    wf this h0 hend m' (a1 ++ M :: b1) (insert M (unlinked a b fl)).
Proof. apply deallocate_spec. Qed.

Lemma deallocate_coalesces_witness :
  exists m',
    deallocate 2 demo_this demo_after16 4112 = Some m' /\
    wf demo_this 4096 4224 m' [Chunk 4096 128 false] [Chunk 4096 128 false].
Proof.
  apply (deallocate_coalesces demo_this 4096 4224 2 demo_after16 []
           [Chunk 4128 96 false] [Chunk 4128 96 false] (Chunk 4096 32 true)).
  - exact demo_after16_wf.
  - reflexivity.
  - simpl. lia.
Defined.

(** X24: once every block has been given back the free list holds one
    chunk, the whole aligned interior, and a request for all of it but
    the 16 bytes of header succeeds at the aligned begin of the region:
    no fragmentation outlives the blocks. *)
Theorem idle_is_whole (this begin end_ : Z) (fuel : nat) (m : mem) :
  region_ok this begin end_ ->
  reachable this begin end_ m [] ->
  sizeof_Header <= align_end end_ - align_begin begin ->
  enough_fuel begin end_ fuel ->
  free_sizes fuel m (load m this)
    = Some [align_end end_ - align_begin begin] /\
  exists m',
    allocate fuel this m (align_end end_ - align_begin begin - 16)
    = Some (align_begin begin, m').
Proof.
  intros Hok. exact (reachable_idle this begin end_ Hok fuel m).
Qed.

Lemma idle_is_whole_witness :
  free_sizes 5 demo_idle (load demo_idle demo_this)
    = Some [align_end demo_end - align_begin demo_begin] /\
  exists m',
    allocate 5 demo_this demo_idle
      (align_end demo_end - align_begin demo_begin - 16)
    = Some (align_begin demo_begin, m').
Proof.
  apply (idle_is_whole demo_this demo_begin demo_end 5 demo_idle).
  - exact demo_region_ok.
  - exact demo_idle_reachable.
  - vm_compute. congruence.
  - exact demo_enough_fuel.
Defined.

(** X25: on a new allocator a block that is given back at once is the
    block the same request gets next, for every request of at most
    [2^64 - 32] bytes on any region and for every request at all when the
    aligned interior holds a header. *)
Theorem round_trip_all_but_tiny (this begin end_ : Z) (fuel : nat)
    (m m0 m1 : mem) (S p : Z) :
  region_ok this begin end_ ->
  0 <= S < modulus ->
  S <= max_request \/ sizeof_Header <= align_end end_ - align_begin begin ->
  enough_fuel begin end_ fuel ->
  DlAllocator fuel this m begin end_ = Some m0 ->
  allocate fuel this m0 S = Some (p, m1) ->
  p <> 0 ->
  exists m2 m3,
    deallocate fuel this m1 p = Some m2 /\
    allocate fuel this m2 S = Some (p, m3).
Proof. apply round_trip_regular. Qed.

Lemma round_trip_all_but_tiny_witness :
  exists m2 m3,
    deallocate 5 demo_this demo_after16 4112 = Some m2 /\
    allocate 5 demo_this m2 16 = Some (4112, m3).
Proof.
  apply (round_trip_all_but_tiny demo_this demo_begin demo_end 5 zero_mem
           demo_fresh demo_after16 16 4112).
  - exact demo_region_ok.
  - vm_compute. split; congruence.
  - left. vm_compute. congruence.
  - exact demo_enough_fuel.
  - apply (DlAllocator_mono 2 5); [lia | exact demo_fresh_eq].
  - exact demo_after16_alloc.
  - congruence.
Defined.

(** ** Requests whose needed size wraps to 0 *)

(** X26: on a new allocator whose interior holds a header a request
    whose needed size is 0 returns the aligned begin of the region and
    leaves the chunk in the free list, so the next such request returns
    the same address again. *)
Theorem wrapped_request_handed_out_twice (this begin end_ : Z)
    (fuel fuel' : nat) (m m0 : mem) (N : Z) :
  region_ok this begin end_ ->
  sizeof_Header <= align_end end_ - align_begin begin ->
  DlAllocator fuel this m begin end_ = Some m0 ->
  needed N = 0 ->
  exists m1 m2,
    allocate (S (S fuel')) this m0 N = Some (align_begin begin, m1) /\
    allocate (S (S fuel')) this m1 N = Some (align_begin begin, m2).
Proof.
  intros Hok HT.
  exact (wrapped_twice this begin end_ Hok HT fuel fuel' m m0 N).
Qed.

Lemma wrapped_request_handed_out_twice_witness :
  exists m1 m2,
    allocate 2 demo_this demo_fresh (modulus - 16)
      = Some (align_begin demo_begin, m1) /\
    allocate 2 demo_this m1 (modulus - 16)
      = Some (align_begin demo_begin, m2).
Proof.
  apply (wrapped_request_handed_out_twice demo_this demo_begin demo_end
           2 0 zero_mem demo_fresh (modulus - 16)).
  - exact demo_region_ok.
  - vm_compute. congruence.
  - exact demo_fresh_eq.
  - vm_compute. reflexivity.
Defined.

(** X27: when the pointer such a request returned is given back, the
    chunk is linked a second time, in front of itself, and the free list
    is a cycle: a later request that needs more than the interior does
    not return, whatever the number of steps its search is given. *)
Theorem wrapped_request_then_free_cycles (this begin end_ : Z)
    (fuel fuel' : nat) (m m0 : mem) (N N' : Z) :
  region_ok this begin end_ ->
  sizeof_Header <= align_end end_ - align_begin begin ->
  DlAllocator fuel this m begin end_ = Some m0 ->
  needed N = 0 ->
  align_end end_ - align_begin begin < needed N' ->
  exists m1 m2,
    allocate (S (S fuel')) this m0 N = Some (align_begin begin, m1) /\
    deallocate (S fuel') this m1 (align_begin begin) = Some m2 /\
    forall k, allocate k this m2 N' = None.
Proof.
  intros Hok HT.
  exact (wrapped_free_cycle this begin end_ Hok HT fuel fuel' m m0 N N').
Qed.

Lemma wrapped_request_then_free_cycles_witness :
  exists m1 m2,
    allocate 2 demo_this demo_fresh (modulus - 16)
      = Some (align_begin demo_begin, m1) /\
    deallocate 1 demo_this m1 (align_begin demo_begin) = Some m2 /\
    forall k, allocate k demo_this m2 1000 = None.
Proof.
  apply (wrapped_request_then_free_cycles demo_this demo_begin demo_end
           2 0 zero_mem demo_fresh (modulus - 16) 1000).
  - exact demo_region_ok.
  - vm_compute. congruence.
  - exact demo_fresh_eq.
  - vm_compute. reflexivity.
  - vm_compute. reflexivity.
Defined.

(** ** Regular requests *)

(** X28: when the free list is a finite chain that ends at the null
    pointer and none of its chunks reaches the needed size, [allocate]
    returns the null pointer (it does return: the search ends within one
    step per list element) and leaves the memory, that is the free list
    and every chunk header, exactly as it was. *)
Theorem allocate_exhausted (fuel : nat) (this : Z) (m : mem) (N : Z)
    (l : list Z) :
  free_chain m (load m this) l ->
  Forall (fun h => size m h < needed N) l ->
  (length l < fuel)%nat ->
  allocate fuel this m N = Some (0, m).
Proof. apply allocate_none_fits. Qed.

Lemma allocate_exhausted_witness :
  allocate 9 demo_this wide_three 100 = Some (0, wide_three).
Proof.
  apply (allocate_exhausted 9 demo_this wide_three 100 [4096; 4160; 4256]).
  - vm_compute. repeat split; congruence.
  - repeat constructor; vm_compute; reflexivity.
  - simpl. lia.
Defined.

(** X29: on a well-formed heap, for a request whose needed size is at
    least a header (every request of at most [2^64 - 32] bytes), when
    [allocate] finds a matching free chunk [x] it takes it out of the
    free list; if what is left of the chunk after the needed size is at
    least a header, the front becomes a used chunk of the needed size,
    the rest becomes a new free chunk and is inserted into the free
    list; otherwise the whole chunk, at its full size, becomes used. *)
Theorem allocate_on_match (this h0 hend : Z) (fuel : nat) (m : mem)
    (cs fl pre post : list chunk) (x : chunk) (N : Z) :
  wf this h0 hend m cs fl ->
  sizeof_Header <= needed N ->
  (length fl < fuel)%nat ->
  first_fit (needed N) fl = Some (pre, x, post) ->
  exists a b m',
    cs = a ++ x :: b /\
    allocate fuel this m N = Some (toPayload (addr x), m') /\
    (sizeof_Header <= csize x - needed N ->
     wf this h0 hend m'
        (a ++ Chunk (addr x) (needed N) true ::
              Chunk (addr x + needed N) (csize x - needed N) false :: b)
        (insert (Chunk (addr x + needed N) (csize x - needed N) false)
                (pre ++ post))) /\
    (csize x - needed N < sizeof_Header ->
     wf this h0 hend m' (a ++ Chunk (addr x) (csize x) true :: b)
        (pre ++ post)).
Proof.
  intros Hwf Hn Hfuel Hfit.
  pose proof (allocate_spec this h0 hend fuel m cs fl N Hwf Hn Hfuel) as H.
  rewrite Hfit in H. destruct H as (a & b & m' & -> & Hu & E & Hwf').
  exists a, b, m'. split; [reflexivity |].
  assert (Hp : toPayload (addr x) = addr x + 16).
  { destruct (tiles_In _ _ _ _ (wf_tiles _ _ _ _ _ _ Hwf) (in_elt x a b))
      as (? & ? & ? & _).
    pose proof (wf_h0 _ _ _ _ _ _ Hwf). pose proof (wf_hend _ _ _ _ _ _ Hwf).
    unfold toPayload. consts. apply wrap_small. lia. }
  rewrite Hp. split; [exact E |].
  unfold carve, relink in Hwf'.
  destruct (Z.leb_spec sizeof_Header (csize x - needed N)); split;
    intros; try lia; exact Hwf'.
Qed.

Lemma allocate_on_match_witness :
  exists a b m',
    [Chunk 4096 128 false] = a ++ Chunk 4096 128 false :: b /\
    allocate 2 demo_this demo_fresh 16 = Some (4112, m') /\
    (sizeof_Header <= 128 - needed 16 ->
     wf demo_this 4096 4224 m'
        (a ++ Chunk 4096 (needed 16) true ::
              Chunk (4096 + needed 16) (128 - needed 16) false :: b)
        (insert (Chunk (4096 + needed 16) (128 - needed 16) false) [])) /\
    (128 - needed 16 < sizeof_Header ->
     wf demo_this 4096 4224 m' (a ++ Chunk 4096 128 true :: b) []).
Proof.
  apply (allocate_on_match demo_this 4096 4224 2 demo_fresh
           [Chunk 4096 128 false] [Chunk 4096 128 false] [] []
           (Chunk 4096 128 false) 16).
  - exact demo_fresh_wf.
  - vm_compute. congruence.
  - simpl. lia.
  - reflexivity.
Defined.

(** X30: in every state reached from the constructor by [deallocate]
    calls of live blocks and [allocate] calls of at most [2^64 - 32]
    bytes, a pointer returned by [allocate], whatever the size of that
    last request, is null or a multiple of the maximum alignment. *)
Theorem allocate_aligned (this begin end_ : Z) (m m' : mem) (live : list Z)
    (fuel : nat) (N p : Z) :
  region_ok this begin end_ ->
  reachable this begin end_ m live ->
  allocate fuel this m N = Some (p, m') ->
  p <> 0 ->
  p mod max_alignment = 0.
Proof.
  intros Hok Hr H Hp.
  destruct (region_aligned _ _ _ Hok) as (_ & _ & _ & Hbm & _).
  destruct (reachable_inv _ _ _ Hok _ _ Hr)
    as [(_ & cs & fl & Hwf & _) | (_ & _ & [H0 | Ht])].
  - destruct (allocate_wf_ptr _ _ _ _ _ _ _ _ _ _ Hwf H)
      as [-> | (c & Hc & ->)]; [contradiction |].
    apply (wf_free _ _ _ _ _ _ Hwf) in Hc. destruct Hc as (Hc & _).
    pose proof (tiles_all_aligned _ _ _ _ (wf_align _ _ _ _ _ _ Hwf)
                  (wf_tiles _ _ _ _ _ _ Hwf) Hc) as Ha.
    unfold max_alignment in *. rewrite Z.add_mod, Ha by lia. reflexivity.
  - apply (allocate_mono fuel (S fuel)) in H; [| lia].
    rewrite (allocate_empty fuel this m N H0) in H. injection H as <- _.
    contradiction.
  - destruct (allocate_tiny_ptr _ _ _ _ _ _ _ Ht H) as [-> | ->];
      [contradiction |].
    unfold max_alignment in *.
    replace (align_begin begin - 16 + 16) with (align_begin begin) by lia.
    exact Hbm.
Qed.

Lemma allocate_aligned_witness :
  allocate 9 demo_this wide_three 32
    = Some (4176, after_allocate 9 demo_this wide_three 32) /\
  4176 mod max_alignment = 0.
Proof.
  assert (E : allocate 9 demo_this wide_three 32
              = Some (4176, after_allocate 9 demo_this wide_three 32)).
  { refine (proj1 (allocate_at demo_this 4096 4352 9 wide_three
                     [Chunk 4096 32 false; Chunk 4128 32 true]
                     [Chunk 4224 32 true; Chunk 4256 96 false] _
                     [Chunk 4096 32 false] [Chunk 4256 96 false]
                     (Chunk 4160 64 false) 32
                     (proj2 wide_three_step) _ _ _)).
    - vm_compute. congruence.
    - simpl. lia.
    - reflexivity. }
  split; [exact E |].
  apply (allocate_aligned demo_this wide_begin wide_end wide_three
           (after_allocate 9 demo_this wide_three 32) [4240; 4144]
           9 32 4176 wide_region_ok wide_three_reachable E).
  congruence.
Defined.

